(** * Lazy remote-blob reader (fs/remote/blob.go): a shallow embedding

    The development follows the Go source function by function.  Go's
    [int64] values are integers of [Z] on which every arithmetic
    operation wraps around; the caller's byte slice is a [list byte]
    that every destination writer aliases; the mutable fields of the
    [blob] struct, the external clock and the single-flight group live
    in an explicit [world] threaded through a small state monad whose
    outcomes distinguish a normal return (possibly carrying a Go
    [error] value), a run-time panic and an exhausted loop budget. *)

From Stdlib Require Import ZArith Lia List Bool.
From Stdlib Require Import Init.Byte.
From stdpp Require Import base list gmap strings pretty.

Local Open Scope Z_scope.

(** ** 64-bit signed arithmetic *)

Module Int64.

Definition min_int : Z := - 2 ^ 63.
Definition max_int : Z := 2 ^ 63 - 1.

Definition in_range (z : Z) : Prop := min_int <= z <= max_int.

(** Two's complement reduction of a mathematical integer. *)
Definition wrap (z : Z) : Z := (z + 2 ^ 63) mod 2 ^ 64 - 2 ^ 63.

Definition add (x y : Z) : Z := wrap (x + y).
Definition sub (x y : Z) : Z := wrap (x - y).
Definition mul (x y : Z) : Z := wrap (x * y).

(** Go's [/] truncates toward zero; the only overflow is
    [min_int / -1], which wraps.  A zero divisor panics in Go: the
    callers below test for it before dividing. *)
Definition quot (x y : Z) : Z := wrap (Z.quot x y).

(** Go's [%] has the sign of the dividend. *)
Definition rem (x y : Z) : Z := Z.rem x y.

End Int64.

(** ** Regions *)

(** [type region struct{ b, e int64 }]: an inclusive byte range.  The
    declaration lives in a file of the package that is not part of this
    development; the fields are named [reg_b] and [reg_e] here. *)
Record region : Type := Region { reg_b : Z; reg_e : Z }.

#[global] Instance region_eq_dec : EqDecision region.
Proof. solve_decision. Defined.

(** Modelled from the spec: the method [region.size()], declared next
    to [region] outside blob.go; the spec gives [size() = e - b + 1]. *)
Definition region_size (r : region) : Z :=
  Int64.add (Int64.sub (reg_e r) (reg_b r)) 1.

(** ** Region arithmetic of blob.go *)

Definition floor (n unit : Z) : Z :=
  Int64.mul (Int64.quot n unit) unit.

Definition ceil (n unit : Z) : Z :=
  Int64.mul (Int64.add (Int64.quot n unit) 1) unit.

Definition positive (n : Z) : Z :=
  if n <? 0 then 0 else n.

(** ** Errors, panics *)

(** One constructor per error the package builds with [fmt.Errorf], plus
    [io.EOF], the cache's not-found answer and the opaque errors of the
    collaborators (registry transport, cache backend, resolver). *)
Inductive error : Type :=
| ErrClosed
| ErrInvalidSize (newSize want : Z)
| ErrMisaligned (b e : Z)
| ErrIncompleteRead (n expected : Z)
| ErrReadMultipart (cause : error)
| ErrGetChunks (cause : error)
| ErrFetchRegion (unfetched : list region)
| ErrCreateCacheWriter (cause : error)
| ErrWriteChunk (cause : error)
| ErrCommitChunk (cause : error)
| EOF
| ErrMissingCache (id : string)
| ErrExternal (msg : string).

(** Run-time panics of the Go code: an integer division by zero, a slice
    expression out of range, a [Write] through a nil [io.Writer]. *)
Inductive panic : Type :=
| PanicDivideByZero
| PanicSliceBounds
| PanicNilWriter.

(** ** Time *)

(** Instants are nanosecond counts; a [time.Duration] is an [int64]. *)
Definition Time : Type := Z.
Definition Duration : Type := Z.

(** [Time.Sub] of the Go library saturates at the extreme durations. *)
Definition time_Sub (t u : Time) : Duration :=
  let d := t - u in
  if d <? Int64.min_int then Int64.min_int
  else if Int64.max_int <? d then Int64.max_int
  else d.

(** ** Byte slices *)

Definition len {A : Type} (l : list A) : Z := Z.of_nat (length l).

(** [byte_at l i] is [l[i]]; the default is returned outside the slice,
    where Go would panic, and is never relied upon. *)
Definition byte_at (l : list byte) (i : Z) : byte :=
  if i <? 0 then x00 else nth (Z.to_nat i) l x00.

(** [s[lo:hi]] of a slice value. *)
Definition subslice (l : list byte) (lo hi : Z) : list byte :=
  firstn (Z.to_nat (hi - lo)) (skipn (Z.to_nat lo) l).

(** A sub-slice [p[off : off+len]] of the caller's buffer: it shares the
    backing array, so writes through it land in the buffer itself. *)
Record slice : Type := Slice { sl_off : Z; sl_len : Z }.

(** Go's [copy(dst, src)] where [dst] is the window of [room] bytes that
    starts at index [pos] of the buffer: [min room (len src)] bytes
    move. *)
Definition copy_into (buf : list byte) (pos room : Z) (src : list byte) : list byte :=
  let n := Z.to_nat (Z.min room (len src)) in
  firstn (Z.to_nat pos) buf ++ firstn n src ++ skipn (Z.to_nat pos + n) buf.

(** ** Collaborators *)

(** The body of one response part as the sequence of byte blocks that
    successive [Read] calls deliver, closed by [io.EOF] ([None]) or by a
    transport error. *)
Record io_reader : Type := Reader {
  rd_pieces : list (list byte);
  rd_err : option error
}.

Record part : Type := Part {
  part_reg : region;
  part_body : io_reader
}.

(** What [multipartReader.Next] yields call after call: the parts in
    server order, then [io.EOF] ([None]) or an error. *)
Record multipartReader : Type := MultipartReader {
  mr_parts : list part;
  mr_err : option error
}.

(** The [fetcher] interface.  The remote endpoint may answer differently
    from one call to the next: [fetch] and [check] receive the number of
    external calls made so far. *)
Record fetcher : Type := Fetcher {
  fetch : nat -> list region -> error + multipartReader;
  check : nat -> option error;
  genID : region -> string
}.

(** Modelled from the spec: the cache backend [cache.BlobCache], consumed
    through [Get], [Add] and [Close].  Committed entries are a finite map
    from identifiers to contents; a missing entry stands for any failing
    [Get]; [Add], [Commit] and [Close] may fail per identifier. *)
Record BlobCache : Type := Cache_ {
  entries : gmap string (list byte);
  addErr : string -> option error;
  commitErr : string -> option error;
  closeErr : option error
}.

(** Modelled from the spec: [cache.Reader.ReadAt(dst, off)] over a
    committed entry delivers exactly [len dst] bytes or reports [io.EOF];
    the result is the byte count, the error and the bytes delivered. *)
Definition cache_ReadAt (data : list byte) (n off : Z) : Z * option error * list byte :=
  if off <? 0 then (0, Some (ErrExternal "negative offset"), [])
  else if len data <=? off then (0, Some EOF, [])
  else
    let got := subslice data off (Z.min (len data) (off + n)) in
    (len got, if len got <? n then Some EOF else None, got).

(** Modelled from the spec: [regionSet], the accumulator of fetched
    regions, with [add] merging overlapping and adjacent regions and
    [totalSize] summing the sizes. *)
Fixpoint regionSet_add (r : region) (rs : list region) : list region :=
  match rs with
  | [] => [r]
  | x :: rs' =>
      if reg_e r + 1 <? reg_b x then r :: x :: rs'
      else if reg_e x + 1 <? reg_b r then x :: regionSet_add r rs'
      else regionSet_add
             (Region (Z.min (reg_b r) (reg_b x)) (Z.max (reg_e r) (reg_e x))) rs'
  end.

Definition regionSet_totalSize (rs : list region) : Z :=
  fold_right (fun r acc => Int64.add (region_size r) acc) 0 rs.

(** What [Resolver.resolveFetcher] answers to a [Refresh]. *)
Inductive resolved : Type :=
| Resolved (f : fetcher) (newSize : Z)
| ResolveFailed (err : error).

(** ** The blob and its world *)

(** [type blob struct]; the mutexes guard single field accesses and have
    no sequential content. *)
Record blob : Type := Blob {
  b_fetcher : fetcher;
  b_size : Z;
  b_chunkSize : Z;
  b_prefetchChunkSize : Z;
  b_cache : BlobCache;
  b_lastCheck : Time;
  b_checkInterval : Duration;
  b_fetchTimeout : Duration;
  b_fetchedRegionSet : list region;
  b_closed : bool
}.

(** [type bytesWriter struct]. *)
Record bytesWriter : Type := BytesWriterOf {
  dest : slice;
  destOff : Z;
  current : Z
}.

(** The two [io.Writer]s the package registers: a [bytesWriter] for
    [ReadAt], [io.Discard] for [Cache]. *)
Inductive writer : Type :=
| Discard
| BytesWriter (bw : bytesWriter).

(** What one call of [singleflight.Group.Do] turns out to be: this caller
    runs the function itself ([shared] tells whether others waited for
    it), or it waits for another caller's run, receives that run's error
    and finds the cache as the environment left it. *)
Inductive flight : Type :=
| Lead (shared : bool)
| Join (err : option error) (c : BlobCache).

(** External calls, in the order they happen. *)
Inductive event : Type :=
| EvCheck
| EvFetch (req : list region)
| EvDo
| EvCacheClose.

Record world : Type := World {
  blb : blob;
  buf : list byte;                      (* the caller's [p] *)
  allData : list (region * writer);     (* map[region]io.Writer *)
  fetched : list (region * bool);       (* map[region]bool *)
  reader : io_reader;                   (* body of the part being chunked *)
  cw : list byte;                       (* bytes held by the open cache writer *)
  clock : nat -> Time;                  (* successive answers of time.Now *)
  tick : nat;
  flights : list flight;                (* successive single-flight outcomes *)
  trace : list event
}.

(** ** Field updates *)

Definition set_closed (v : bool) (b : blob) : blob :=
  Blob (b_fetcher b) (b_size b) (b_chunkSize b) (b_prefetchChunkSize b) (b_cache b)
       (b_lastCheck b) (b_checkInterval b) (b_fetchTimeout b) (b_fetchedRegionSet b) v.

Definition set_fetcher (v : fetcher) (b : blob) : blob :=
  Blob v (b_size b) (b_chunkSize b) (b_prefetchChunkSize b) (b_cache b)
       (b_lastCheck b) (b_checkInterval b) (b_fetchTimeout b) (b_fetchedRegionSet b)
       (b_closed b).

Definition set_lastCheck (v : Time) (b : blob) : blob :=
  Blob (b_fetcher b) (b_size b) (b_chunkSize b) (b_prefetchChunkSize b) (b_cache b)
       v (b_checkInterval b) (b_fetchTimeout b) (b_fetchedRegionSet b) (b_closed b).

Definition set_cache (v : BlobCache) (b : blob) : blob :=
  Blob (b_fetcher b) (b_size b) (b_chunkSize b) (b_prefetchChunkSize b) v
       (b_lastCheck b) (b_checkInterval b) (b_fetchTimeout b) (b_fetchedRegionSet b)
       (b_closed b).

Definition set_fetchedRegionSet (v : list region) (b : blob) : blob :=
  Blob (b_fetcher b) (b_size b) (b_chunkSize b) (b_prefetchChunkSize b) (b_cache b)
       (b_lastCheck b) (b_checkInterval b) (b_fetchTimeout b) v (b_closed b).

Definition with_blb (f : blob -> blob) (w : world) : world :=
  World (f (blb w)) (buf w) (allData w) (fetched w) (reader w) (cw w) (clock w) (tick w)
        (flights w) (trace w).

Definition with_buf (v : list byte) (w : world) : world :=
  World (blb w) v (allData w) (fetched w) (reader w) (cw w) (clock w) (tick w)
        (flights w) (trace w).

Definition with_allData (v : list (region * writer)) (w : world) : world :=
  World (blb w) (buf w) v (fetched w) (reader w) (cw w) (clock w) (tick w)
        (flights w) (trace w).

Definition with_fetched (v : list (region * bool)) (w : world) : world :=
  World (blb w) (buf w) (allData w) v (reader w) (cw w) (clock w) (tick w)
        (flights w) (trace w).

Definition with_reader (v : io_reader) (w : world) : world :=
  World (blb w) (buf w) (allData w) (fetched w) v (cw w) (clock w) (tick w)
        (flights w) (trace w).

Definition with_cw (v : list byte) (w : world) : world :=
  World (blb w) (buf w) (allData w) (fetched w) (reader w) v (clock w) (tick w)
        (flights w) (trace w).

Definition with_tick (v : nat) (w : world) : world :=
  World (blb w) (buf w) (allData w) (fetched w) (reader w) (cw w) (clock w) v
        (flights w) (trace w).

Definition with_flights (v : list flight) (w : world) : world :=
  World (blb w) (buf w) (allData w) (fetched w) (reader w) (cw w) (clock w) (tick w)
        v (trace w).

Definition log (ev : event) (w : world) : world :=
  World (blb w) (buf w) (allData w) (fetched w) (reader w) (cw w) (clock w) (tick w)
        (flights w) (trace w ++ [ev]).

(** ** The monad of the package's methods *)

Inductive outcome (A : Type) : Type :=
| Done (a : A) (w : world)
| Crash (p : panic)
| OutOfFuel.

Arguments Done {A} a w.
Arguments Crash {A} p.
Arguments OutOfFuel {A}.

Definition M (A : Type) : Type := world -> outcome A.

Definition ret {A : Type} (a : A) : M A := fun w => Done a w.

Definition bind {A B : Type} (m : M A) (k : A -> M B) : M B :=
  fun w =>
    match m w with
    | Done a w' => k a w'
    | Crash p => Crash p
    | OutOfFuel => OutOfFuel
    end.

Definition gets {A : Type} (f : world -> A) : M A := fun w => Done (f w) w.
Definition modify (f : world -> world) : M unit := fun w => Done tt (f w).
Definition crash {A : Type} (p : panic) : M A := fun _ => Crash p.
Definition out_of_fuel {A : Type} : M A := fun _ => OutOfFuel.

Notation "'let*' x ':=' m 'in' k" := (bind m (fun x => k))
  (at level 10, x pattern, m at level 100, k at level 200).
Notation "m ';;;' k" := (bind m (fun _ => k))
  (at level 100, k at level 200, right associativity).

(** [time.Now()]. *)
Definition time_Now : M Time :=
  fun w => Done (clock w (tick w)) (with_tick (S (tick w)) w).

(** ** Maps keyed by regions, in insertion order *)

Fixpoint map_get {V : Type} (k : region) (m : list (region * V)) : option V :=
  match m with
  | [] => None
  | (k', v) :: m' => if decide (k = k') then Some v else map_get k m'
  end.

Fixpoint map_set {V : Type} (k : region) (v : V) (m : list (region * V)) : list (region * V) :=
  match m with
  | [] => [(k, v)]
  | (k', v') :: m' =>
      if decide (k = k') then (k, v) :: m' else (k', v') :: map_set k v m'
  end.

(** ** blob.go: lifecycle, liveness, sizes *)

Definition isClosed : M bool := gets (fun w => b_closed (blb w)).

Definition Close : M (option error) :=
  let* closed := gets (fun w => b_closed (blb w)) in
  if closed then ret None
  else
    modify (with_blb (set_closed true));;;
    let* c := gets (fun w => b_cache (blb w)) in
    modify (log EvCacheClose);;;
    ret (closeErr c).

(** The arguments of [Refresh] only feed the resolver; [answer] is what
    [b.resolver.resolveFetcher] returns for them. *)
Definition Refresh (answer : resolved) : M (option error) :=
  let* closed := isClosed in
  if closed then ret (Some ErrClosed)
  else
    match answer with
    | ResolveFailed err => ret (Some err)
    | Resolved f newSize =>
        let* size := gets (fun w => b_size (blb w)) in
        if negb (newSize =? size) then ret (Some (ErrInvalidSize newSize size))
        else
          modify (with_blb (set_fetcher f));;;
          let* now := time_Now in
          modify (with_blb (set_lastCheck now));;;
          ret None
    end.

(** [fr.check()]: one probe of the remote endpoint. *)
Definition probe (fr : fetcher) : M (option error) :=
  let* n := gets (fun w => length (trace w)) in
  modify (log EvCheck);;;
  ret (check fr n).

Definition Check : M (option error) :=
  let* closed := isClosed in
  if closed then ret (Some ErrClosed)
  else
    let* now := time_Now in
    let* lastCheck := gets (fun w => b_lastCheck (blb w)) in
    let* checkInterval := gets (fun w => b_checkInterval (blb w)) in
    if time_Sub now lastCheck <? checkInterval then ret None
    else
      let* fr := gets (fun w => b_fetcher (blb w)) in
      let* err := probe fr in
      match err with
      | None => modify (with_blb (set_lastCheck now));;; ret err
      | Some _ => ret err
      end.

Definition Size : M Z := gets (fun w => b_size (blb w)).

Definition FetchedSize : M Z :=
  gets (fun w => regionSet_totalSize (b_fetchedRegionSet (blb w))).

Definition getFetcher : M fetcher := gets (fun w => b_fetcher (blb w)).

(** ** blob.go: walking chunks *)

Definition walkFunc : Type := region -> M (option error).

(** The [for] loop of [walkChunks]; [fuel] bounds the number of times
    its condition is evaluated. *)
Fixpoint walk_loop (fuel : nat) (walkFn : walkFunc) (e i : Z) : M (option error) :=
  match fuel with
  | O => out_of_fuel
  | S fuel' =>
      let* size := gets (fun w => b_size (blb w)) in
      let* chunkSize := gets (fun w => b_chunkSize (blb w)) in
      if (i <=? e) && (i <? size) then
        let reg := Region i (Int64.sub (Int64.add i chunkSize) 1) in
        let reg := if size <=? reg_e reg then Region i (Int64.sub size 1) else reg in
        let* err := walkFn reg in
        match err with
        | Some _ => ret err
        | None => walk_loop fuel' walkFn e (Int64.add i chunkSize)
        end
      else ret None
  end.

Definition walkChunks (fuel : nat) (allRegion : region) (walkFn : walkFunc) : M (option error) :=
  let* chunkSize := gets (fun w => b_chunkSize (blb w)) in
  if chunkSize =? 0 then crash PanicDivideByZero
  else if negb (Int64.rem (reg_b allRegion) chunkSize =? 0) then
    ret (Some (ErrMisaligned (reg_b allRegion) (reg_e allRegion)))
  else walk_loop fuel walkFn (reg_e allRegion) (reg_b allRegion).

(** ** blob.go: the destination-offset writer *)

Definition newBytesWriter (dst : slice) (dstOff : Z) : writer :=
  BytesWriter (BytesWriterOf dst dstOff 0).

(** [p[lo:hi]] on the caller's buffer, whose capacity is its length. *)
Definition slice_of_buf (lo hi : Z) : M slice :=
  let* n := gets (fun w => len (buf w)) in
  if (0 <=? lo) && (lo <=? hi) && (hi <=? n) then ret (Slice lo (hi - lo))
  else crash PanicSliceBounds.

(** [bytesWriter.Write]: the cursor advances by [len p] whatever is
    copied.  The method returns [(len p, nil)] on every path. *)
Definition bytesWriter_Write (bw : bytesWriter) (p : list byte) : M bytesWriter :=
  let bw' := BytesWriterOf (dest bw) (destOff bw) (Int64.add (current bw) (len p)) in
  let destBase := positive (Int64.sub (current bw) (destOff bw)) in
  let pBegin := positive (Int64.sub (destOff bw) (current bw)) in
  let pEnd := positive (Int64.sub (Int64.add (destOff bw) (sl_len (dest bw))) (current bw)) in
  if sl_len (dest bw) <? destBase then ret bw'
  else if len p <=? pBegin then ret bw'
  else
    let pEnd := if len p <? pEnd then len p else pEnd in
    if pEnd <? pBegin then crash PanicSliceBounds
    else
      modify (fun w =>
        with_buf (copy_into (buf w) (sl_off (dest bw) + destBase)
                            (sl_len (dest bw) - destBase)
                            (subslice p pBegin pEnd)) w);;;
      ret bw'.

(** [Write] on the writer registered for [chunk]; a missing entry is a
    nil [io.Writer]. *)
Definition write_to (chunk : region) (p : list byte) : M (option error) :=
  let* m := gets allData in
  match map_get chunk m with
  | None => crash PanicNilWriter
  | Some Discard => ret None
  | Some (BytesWriter bw) =>
      let* bw' := bytesWriter_Write bw p in
      modify (fun w => with_allData (map_set chunk (BytesWriter bw') (allData w)) w);;;
      ret None
  end.

(** ** io.CopyN *)

(** [io.CopyN(dst, src, n)] with [src] the world's [reader]: the loop of
    [io.Copy] over an [io.LimitedReader].  Each [Read] delivers the next
    block, cut at the [n] bytes still wanted.  The 32 KiB staging buffer
    of [io.Copy] only splits blocks further, which the block lists
    already range over. *)
Fixpoint copy_blocks (write : list byte -> M (option error)) (n : Z)
    (blocks : list (list byte)) (rerr : option error) : M (option error) :=
  if n <=? 0 then modify (with_reader (Reader blocks rerr));;; ret None
  else
    match blocks with
    | [] =>
        modify (with_reader (Reader [] rerr));;;
        ret (Some (match rerr with Some e => e | None => EOF end))
    | q :: rest =>
        if len q =? 0 then copy_blocks write n rest rerr
        else if n <? len q then
          modify (with_reader (Reader (skipn (Z.to_nat n) q :: rest) rerr));;;
          write (firstn (Z.to_nat n) q)
        else
          let* err := write q in
          match err with
          | Some _ => modify (with_reader (Reader rest rerr));;; ret err
          | None => copy_blocks write (n - len q) rest rerr
          end
    end.

Definition io_CopyN (write : list byte -> M (option error)) (n : Z) : M (option error) :=
  let* r := gets reader in
  copy_blocks write n (rd_pieces r) (rd_err r).

(** ** blob.go: the read path *)

Definition readFromCache (chunk : region) (dst : slice) (offset : Z) (fr : fetcher)
    : M (option error) :=
  let* c := gets (fun w => b_cache (blb w)) in
  match entries c !! genID fr chunk with
  | None => ret (Some (ErrMissingCache (genID fr chunk)))
  | Some data =>
      let '(n, err, got) := cache_ReadAt data (sl_len dst) offset in
      modify (fun w => with_buf (copy_into (buf w) (sl_off dst) (sl_len dst) got) w);;;
      match err with
      | Some EOF | None =>
          if negb (n =? sl_len dst) then ret (Some (ErrIncompleteRead n (sl_len dst)))
          else ret None
      | Some _ => ret err
      end
  end.

(** The [var] block of [prepareChunksForRead]: where the part of [chunk]
    that the request [p], [offset] wants lies in [p] and in the chunk. *)
Definition chunk_base (offset : Z) (chunk : region) : Z :=
  positive (Int64.sub (reg_b chunk) offset).

Definition chunk_lowerUnread (offset : Z) (chunk : region) : Z :=
  positive (Int64.sub offset (reg_b chunk)).

Definition chunk_upperUnread (offset lenp : Z) (chunk : region) : Z :=
  positive (Int64.sub (Int64.add (reg_e chunk) 1) (Int64.add offset lenp)).

Definition chunk_expectedSize (offset lenp : Z) (chunk : region) : Z :=
  Int64.sub (Int64.sub (region_size chunk) (chunk_upperUnread offset lenp chunk))
            (chunk_lowerUnread offset chunk).

(** The closure that [prepareChunksForRead] hands to [walkChunks]; [p]
    is the world's buffer. *)
Definition prepareChunk (offset : Z) (fr : fetcher) : walkFunc := fun chunk =>
  let* lenp := gets (fun w => len (buf w)) in
  let base := chunk_base offset chunk in
  let lowerUnread := chunk_lowerUnread offset chunk in
  let expectedSize := chunk_expectedSize offset lenp chunk in
  let* dst := slice_of_buf base (Int64.add base expectedSize) in
  let* err := readFromCache chunk dst lowerUnread fr in
  match err with
  | None => ret None
  | Some _ =>
      let* dst := slice_of_buf base (Int64.add base expectedSize) in
      modify (fun w =>
        with_allData (map_set chunk (newBytesWriter dst lowerUnread) (allData w)) w);;;
      ret None
  end.

Definition prepareChunksForRead (fuel : nat) (allRegion : region) (offset : Z)
    (fr : fetcher) : M (option error) :=
  walkChunks fuel allRegion (prepareChunk offset fr).

(** [fr.fetch(fetchCtx, req, true)]. *)
Definition do_fetch (fr : fetcher) (req : list region) : M (error + multipartReader) :=
  let* n := gets (fun w => length (trace w)) in
  modify (log (EvFetch req));;;
  ret (fetch fr n req).

Definition cacheChunkData (chunk : region) (fr : fetcher) : M (option error) :=
  let id := genID fr chunk in
  let* c := gets (fun w => b_cache (blb w)) in
  match addErr c id with
  | Some e => ret (Some (ErrCreateCacheWriter e))
  | None =>
      modify (with_cw []);;;
      let* f := gets fetched in
      let w_cache := fun q => modify (fun w => with_cw (cw w ++ q) w);;; ret None in
      let w_tee :=
        match map_get chunk f with
        | Some _ => fun q => w_cache q;;; write_to chunk q
        | None => w_cache
        end in
      let* err := io_CopyN w_tee (region_size chunk) in
      match err with
      | Some e => modify (with_cw []);;; ret (Some (ErrWriteChunk e))
      | None =>
          match commitErr c id with
          | Some e => modify (with_cw []);;; ret (Some (ErrCommitChunk e))
          | None =>
              modify (fun w =>
                with_blb (set_cache (Cache_ (<[id := cw w]> (entries (b_cache (blb w))))
                                            (addErr (b_cache (blb w)))
                                            (commitErr (b_cache (blb w)))
                                            (closeErr (b_cache (blb w))))) w);;;
              modify (with_cw []);;;
              modify (with_blb (fun b =>
                set_fetchedRegionSet (regionSet_add chunk (b_fetchedRegionSet b)) b));;;
              modify (fun w => with_fetched (map_set chunk true (fetched w)) w);;;
              ret None
          end
      end
  end.

(** The [for] loop of [fetchRegions] over [mr.Next()]. *)
Fixpoint next_parts (fuel : nat) (fr : fetcher) (parts : list part)
    (final : option error) : M (option error) :=
  match parts with
  | [] =>
      match final with
      | None => ret None
      | Some e => ret (Some (ErrReadMultipart e))
      end
  | pt :: rest =>
      modify (with_reader (part_body pt));;;
      let* err := walkChunks fuel (part_reg pt) (fun chunk => cacheChunkData chunk fr) in
      match err with
      | Some e => ret (Some (ErrGetChunks e))
      | None => next_parts fuel fr rest final
      end
  end.

Definition fetchRegions (fuel : nat) : M (option error) :=
  let* m := gets allData in
  match m with
  | [] => ret None
  | _ =>
      let* fr := getFetcher in
      let req := map fst m in
      modify (fun w =>
        with_fetched (fold_left (fun acc reg => map_set reg false acc) req (fetched w)) w);;;
      let* res := do_fetch fr req in
      match res with
      | inl err => ret (Some err)
      | inr mr =>
          let* now := time_Now in
          modify (with_blb (set_lastCheck now));;;
          let* err := next_parts fuel fr (mr_parts mr) (mr_err mr) in
          match err with
          | Some _ => ret err
          | None =>
              let* f := gets fetched in
              match List.filter (fun cb => negb (snd cb)) f with
              | [] => ret None
              | unfetched => ret (Some (ErrFetchRegion (map fst unfetched)))
              end
          end
      end
  end.

(** The closure of [copyFetchedChunks]: the committed entry, read back
    through an [io.SectionReader] of [chunk.size()] bytes, is copied to
    the writer registered for [chunk]. *)
Definition copyFetchedChunk : walkFunc := fun chunk =>
  let* fr := getFetcher in
  let* c := gets (fun w => b_cache (blb w)) in
  match entries c !! genID fr chunk with
  | None => ret (Some (ErrMissingCache (genID fr chunk)))
  | Some data =>
      modify (with_reader
                (Reader [firstn (Z.to_nat (region_size chunk)) data] None));;;
      io_CopyN (write_to chunk) (region_size chunk)
  end.

Definition copyFetchedChunks (fuel : nat) (reg : region) : M (option error) :=
  walkChunks fuel reg copyFetchedChunk.

Fixpoint shared_loop (fuel : nat) (regs : list region) : M (option error) :=
  match regs with
  | [] => ret None
  | reg :: rest =>
      let* f := gets fetched in
      match map_get reg f with
      | Some _ => shared_loop fuel rest
      | None =>
          let* err := copyFetchedChunks fuel reg in
          match err with
          | Some _ => ret err
          | None => shared_loop fuel rest
          end
      end
  end.

Definition handleSharedFetch (fuel : nat) : M (option error) :=
  let* m := gets allData in
  shared_loop fuel (map fst m).

(** [b.fetchedRegionGroup.Do(key, fn)]: the next outcome recorded in
    [flights]; with none recorded the caller is alone, runs [fn] and
    shares nothing. *)
Definition singleflight_Do (fn : M (option error)) : M (option error * bool) :=
  modify (log EvDo);;;
  let* fl := gets flights in
  match fl with
  | [] => let* err := fn in ret (err, false)
  | Lead shared :: rest =>
      modify (with_flights rest);;;
      let* err := fn in
      ret (err, shared)
  | Join err c :: rest =>
      modify (with_flights rest);;;
      modify (with_blb (set_cache c));;;
      ret (err, true)
  end.

(** [fetchRange]; [fuel] also bounds the depth of its recursion. *)
Fixpoint fetchRange (fuel : nat) : M (option error) :=
  match fuel with
  | O => out_of_fuel
  | S fuel' =>
      let* m := gets allData in
      match m with
      | [] => ret None
      | _ =>
          modify (with_fetched []);;;
          let* res := singleflight_Do (fetchRegions fuel) in
          match res with
          | (None, true) =>
              let* herr := handleSharedFetch fuel in
              match herr with
              | Some _ => fetchRange fuel'
              | None => ret None
              end
          | (err, _) => ret err
          end
      end
  end.

(** [adjustBufferSize]: the re-slicing [p[:remain]] is in range whenever
    it is reached. *)
Definition adjustBufferSize (lenp offset size : Z) : Z :=
  let remain := Int64.sub size offset in
  if remain <=? lenp then (if remain <? 0 then 0 else remain) else lenp.

Definition ReadAt (fuel : nat) (p : list byte) (offset : Z) : M (Z * option error) :=
  modify (with_buf p);;;
  let* closed := isClosed in
  if closed then ret (0, Some ErrClosed)
  else
    let* size := gets (fun w => b_size (blb w)) in
    if (len p =? 0) || (size <? offset) then ret (0, None)
    else
      let* chunkSize := gets (fun w => b_chunkSize (blb w)) in
      if chunkSize =? 0 then crash PanicDivideByZero
      else
        let allRegion :=
          Region (floor offset chunkSize)
                 (Int64.sub (ceil (Int64.sub (Int64.add offset (len p)) 1) chunkSize) 1) in
        modify (with_allData []);;;
        let* fr := getFetcher in
        let* err := prepareChunksForRead fuel allRegion offset fr in
        match err with
        | Some _ => ret (0, err)
        | None =>
            let* err := fetchRange fuel in
            match err with
            | Some _ => ret (0, err)
            | None => ret (adjustBufferSize (len p) offset size, None)
            end
        end.

(** ** blob.go: the prefetch path *)

Definition cacheChunk (fr : fetcher) : walkFunc := fun reg =>
  let* c := gets (fun w => b_cache (blb w)) in
  match entries c !! genID fr reg with
  | Some _ => ret None
  | None =>
      modify (fun w => with_allData (map_set reg Discard (allData w)) w);;;
      ret None
  end.

Definition cacheAt (fuel : nat) (offset size : Z) (fr : fetcher) : M (option error) :=
  let* chunkSize := gets (fun w => b_chunkSize (blb w)) in
  if chunkSize =? 0 then crash PanicDivideByZero
  else
    let fetchReg :=
      Region (floor offset chunkSize)
             (Int64.sub (ceil (Int64.sub (Int64.add offset size) 1) chunkSize) 1) in
    modify (with_allData []);;;
    let* err := walkChunks fuel fetchReg (cacheChunk fr) in
    match err with
    | Some _ => ret err
    | None => fetchRange fuel
    end.

(** The windows of [Cache].  The source starts one goroutine per window
    and [errgroup.Wait] reports the first failure; here the windows run
    one after the other and the first error is kept. *)
Fixpoint cache_windows (fuel budget : nat) (fetchSize end_ i : Z) (fr : fetcher)
    (first : option error) : M (option error) :=
  match budget with
  | O => out_of_fuel
  | S budget' =>
      if i <? end_ then
        let l := if end_ <? Int64.add i fetchSize then Int64.sub end_ i else fetchSize in
        let* err := cacheAt fuel i l fr in
        cache_windows fuel budget' fetchSize end_ (Int64.add i fetchSize) fr
          (match first with Some _ => first | None => err end)
      else ret first
  end.

Definition Cache (fuel : nat) (offset size : Z) : M (option error) :=
  let* closed := isClosed in
  if closed then ret (Some ErrClosed)
  else
    let* fr := gets (fun w => b_fetcher (blb w)) in
    let* chunkSize := gets (fun w => b_chunkSize (blb w)) in
    let* prefetchChunkSize := gets (fun w => b_prefetchChunkSize (blb w)) in
    if prefetchChunkSize <=? chunkSize then cacheAt fuel offset size fr
    else if chunkSize =? 0 then crash PanicDivideByZero
    else
      let fetchSize := Int64.mul chunkSize (Int64.quot prefetchChunkSize chunkSize) in
      let end_ := Int64.add offset size in
      cache_windows fuel fuel fetchSize end_ offset fr None.

(** ** The public surface *)

(** The operations of the [Blob] interface other than [Close]. *)
Inductive op : Type :=
| OpCheck
| OpSize
| OpFetchedSize
| OpReadAt (p : list byte) (offset : Z)
| OpCache (offset size : Z)
| OpRefresh (answer : resolved).

(** The error an invocation reports; [Size] and [FetchedSize] return a
    bare [int64] and have none to report. *)
Definition invoke (fuel : nat) (o : op) : M (option error) :=
  match o with
  | OpCheck => Check
  | OpSize => Size;;; ret None
  | OpFetchedSize => FetchedSize;;; ret None
  | OpReadAt p offset => let* r := ReadAt fuel p offset in ret (snd r)
  | OpCache offset size => Cache fuel offset size
  | OpRefresh answer => Refresh answer
  end.

(** ** A sample blob

    The blob of the package's tests: ["0123456789"] in chunks of 3. *)

Definition sample_contents (i : Z) : byte :=
  nth (Z.to_nat i) [x30; x31; x32; x33; x34; x35; x36; x37; x38; x39] x00.

(** A part that serves region [r] of [contents] in one block. *)
Definition serve (contents : Z -> byte) (r : region) : part :=
  Part r (Reader [map (fun k => contents (reg_b r + Z.of_nat k))
                      (seq 0 (Z.to_nat (reg_e r - reg_b r + 1)))] None).

Definition sample_genID (r : region) : string :=
  String.append "deadbeaf-"
    (String.append (pretty (reg_b r)) (String.append "-" (pretty (reg_e r)))).

(** A registry that answers every request with one part per region. *)
Definition sample_fetcher : fetcher :=
  Fetcher (fun _ req => inr (MultipartReader (map (serve sample_contents) req) None))
          (fun _ => None) sample_genID.

(** A registry that is down. *)
Definition failing_fetcher : fetcher :=
  Fetcher (fun _ _ => inl (ErrExternal "500 Internal Server Error"))
          (fun _ => Some (ErrExternal "500 Internal Server Error")) sample_genID.

Definition empty_cache : BlobCache :=
  Cache_ ∅ (fun _ => None) (fun _ => None) None.

Definition make_world (b : blob) (fl : list flight) : world :=
  World b [] [] [] (Reader [] None) [] (fun n => Z.of_nat n) 0%nat fl [].

Definition sample_blob : blob :=
  Blob sample_fetcher 10 3 0 empty_cache 0 0 0 [] false.

Definition sample_world : world := make_world sample_blob [].

Definition failing_world : world :=
  make_world (set_fetcher failing_fetcher sample_blob) [].

(** A blob of nearly [2^63] bytes, every one of them [0x01], in chunks
    of three bytes. *)
Definition ones (_ : Z) : byte := x01.

Definition ones_fetcher : fetcher :=
  Fetcher (fun _ req => inr (MultipartReader (map (serve ones) req) None))
          (fun _ => None) sample_genID.

Definition ones_world : world :=
  make_world (Blob ones_fetcher (2 ^ 63 - 1) 3 0 empty_cache 0 0 0 [] false) [].

(** The sample blob when this caller first waits for the flight of
    another goroutine, whose result it then cannot find in the cache,
    and leads a shared flight itself. *)
Definition contended_world : world :=
  make_world sample_blob [Join None empty_cache; Lead true].


(** ** Counting the rounds of [fetchRange] *)

(** Every invocation of [fetchRange] with something to fetch goes once
    through the single-flight group: the number of [EvDo] events is the
    number of such invocations. *)
Definition rounds (w : world) : nat :=
  length (List.filter (fun ev => match ev with EvDo => true | _ => false end) (trace w)).

(** What one round does to the world when the caller joins the flight
    of another goroutine and finds nothing in the cache afterwards. *)
Definition missed_round (w : world) : world :=
  with_blb (set_cache empty_cache)
    (with_flights (tl (flights w)) (log EvDo (with_fetched [] w))).

(** The sample blob as [ReadAt] leaves it before [fetchRange] for two
    bytes at offset 1, with two flights of other goroutines ahead whose
    results are not in the cache. *)
Definition waiting_world : world :=
  with_allData [(Region 0 2, newBytesWriter (Slice 0 2) 1)]
    (with_buf [x00; x00]
       (make_world sample_blob [Join None empty_cache; Join None empty_cache])).


(** The sample blob behind a registry that is down, with its first
    chunk in the cache. *)
Definition warm_cache : BlobCache :=
  Cache_ (<[sample_genID (Region 0 2) := [x30; x31; x32]]> ∅)
         (fun _ => None) (fun _ => None) None.

Definition warm_world : world :=
  make_world (set_cache warm_cache (set_fetcher failing_fetcher sample_blob)) [].

(** The sample blob behind a registry that is down, with an entry for
    its last chunk, the single byte at offset 9, in the cache. *)
Definition tail_cache : BlobCache :=
  Cache_ (<[sample_genID (Region 9 9) := [x39]]> ∅)
         (fun _ => None) (fun _ => None) None.

Definition tail_world : world :=
  make_world (set_cache tail_cache (set_fetcher failing_fetcher sample_blob)) [].

(** A cache whose entry for the first chunk of the sample blob stops
    after one byte, the true first byte of the blob. *)
Definition short_cache : BlobCache :=
  Cache_ (<[sample_genID (Region 0 2) := [x30]]> ∅)
         (fun _ => None) (fun _ => None) None.

(** The sample blob, its cache empty, when this caller waits for the
    flight of another goroutine and finds [short_cache] afterwards. *)
Definition short_entry_world : world :=
  make_world sample_blob [Join None short_cache].

(** A registry that answers every request with the chunk [3, 5] of the
    sample blob, twice. *)
Definition doubling_fetcher : fetcher :=
  Fetcher (fun _ _ => inr (MultipartReader
             [serve sample_contents (Region 3 5); serve sample_contents (Region 3 5)]
             None))
          (fun _ => None) sample_genID.

Definition doubling_world : world :=
  make_world (set_fetcher doubling_fetcher sample_blob) [].


(** ** The chunk walk as the spec words it *)

(** How many sub-regions start at or before [min(r.e, s-1)]. *)
Definition chunk_count (r : region) (c s : Z) : nat :=
  let m := Z.min (reg_e r) (s - 1) in
  if reg_b r <=? m then Z.to_nat ((m - reg_b r) / c + 1) else 0%nat.

(** The sub-regions [{r.b + k*c, min(r.b + (k+1)*c - 1, s-1)}] for
    [k = 0, 1, ...], in increasing order, up to [min(r.e, s-1)]. *)
Definition spec_chunks (r : region) (c s : Z) : list region :=
  map (fun k => Region (reg_b r + Z.of_nat k * c)
                       (Z.min (reg_b r + (Z.of_nat k + 1) * c - 1) (s - 1)))
      (seq 0 (chunk_count r c s)).

(** Calling [fn] on the regions of a list, in order, until one fails. *)
Fixpoint for_each (fn : walkFunc) (l : list region) : M (option error) :=
  match l with
  | [] => ret None
  | r :: l' =>
      let* err := fn r in
      match err with
      | Some _ => ret err
      | None => for_each fn l'
      end
  end.

(** [size] and [chunkSize] are immutable: no walk function changes
    them. *)
Definition keeps_geometry (fn : walkFunc) : Prop :=
  forall reg w a w',
    fn reg w = Done a w' ->
    b_size (blb w') = b_size (blb w) /\ b_chunkSize (blb w') = b_chunkSize (blb w).

(** A walk function that only records the regions it is called on. *)
Definition record_chunk : walkFunc := fun reg =>
  modify (log (EvFetch [reg]));;; ret None.

(** A walk function that rejects regions below offset zero. *)
Definition reject_negative : walkFunc := fun reg =>
  if reg_b reg <? 0 then ret (Some (ErrExternal "negative offset")) else ret None.

(** A blob as large as [int64] allows, in chunks of [2^62]. *)
Definition huge_world : world :=
  make_world (Blob sample_fetcher (2 ^ 63 - 1) (2 ^ 62) 0 empty_cache 0 0 0 [] false) [].

(** The chunks a request [offset], [L] bytes long, can meet on a blob of
    [size] bytes cut every [cs] bytes: aligned, inside the blob, clamped
    at its end, and overlapping or adjacent to the requested range. *)
Definition relevant (off L cs size : Z) (c : region) : Prop :=
  Z.rem (reg_b c) cs = 0
  /\ 0 <= reg_b c
  /\ reg_b c <= off + L - 1
  /\ reg_b c < size
  /\ reg_e c = Z.min (reg_b c + cs - 1) (size - 1)
  /\ off < reg_b c + cs.

(** ** What a correct read means *)

(** Byte [x] of the blob sits where the request wants it in the buffer. *)
Definition good (contents : Z -> byte) (off : Z) (w : world) (x : Z) : Prop :=
  byte_at (buf w) (x - off) = contents x.

(** The chunks of the grid of a blob: aligned, inside the blob, clamped
    at its end. *)
Definition grid_chunk (cs size : Z) (c : region) : Prop :=
  Z.rem (reg_b c) cs = 0
  /\ 0 <= reg_b c < size
  /\ reg_e c = Z.min (reg_b c + cs - 1) (size - 1).

(** A cache whose entries for the chunks of the grid hold those chunks,
    byte for byte. *)
Definition cache_ok (contents : Z -> byte) (cs size : Z) (fr : fetcher)
    (c : BlobCache) : Prop :=
  forall r data,
    grid_chunk cs size r ->
    entries c !! genID fr r = Some data ->
    len data = reg_e r - reg_b r + 1
    /\ forall j, 0 <= j < len data -> byte_at data j = contents (reg_b r + j).

(** What the blocks of a reader spell out, end to end. *)
Definition stream_of (r : io_reader) : list byte := concat (rd_pieces r).

(** A body that carries bytes of the blob from offset [x] on. *)
Definition serves_from (contents : Z -> byte) (x : Z) (bytes : list byte) : Prop :=
  forall j, 0 <= j < len bytes -> byte_at bytes j = contents (x + j).

(** A fetcher that serves the true bytes: whatever part it returns to
    a request of [int64] regions carries the bytes of the blob at the
    offsets the part announces. *)
Definition truthful (contents : Z -> byte) (fr : fetcher) : Prop :=
  forall k req mr pt,
    Forall (fun r => Int64.in_range (reg_b r) /\ Int64.in_range (reg_e r)) req ->
    fetch fr k req = inr mr ->
    In pt (mr_parts mr) ->
    Int64.in_range (reg_b (part_reg pt))
    /\ serves_from contents (reg_b (part_reg pt)) (stream_of (part_body pt)).

(** ** The invariant of the fetch phase of [ReadAt]

    [bud c] bounds how many more times chunk [c] may be delivered before
    the cursor of its writer could overflow; [act] names the chunk being
    streamed, if any, and how many bytes of it have been written. *)
Definition cursor_at (act : option (region * Z)) (c : region) : Z :=
  match act with
  | Some (c', t) => if decide (c' = c) then t else 0
  | None => 0
  end.

Definition writer_ok (off L cs size : Z) (bud : region -> Z) (act : option (region * Z))
    (c : region) (wr : writer) : Prop :=
  relevant off L cs size c
  /\ exists cur,
       wr = BytesWriter
              (BytesWriterOf (Slice (chunk_base off c) (chunk_expectedSize off L c))
                             (chunk_lowerUnread off c) cur)
       /\ 0 <= cur
       /\ cur - cursor_at act c + bud c * cs <= Int64.max_int
       /\ (chunk_lowerUnread off c + chunk_expectedSize off L c <= cur
           \/ cur = cursor_at act c).

Definition FInv (contents : Z -> byte) (off L cs size : Z) (fr : fetcher)
    (bud : region -> Z) (act : option (region * Z)) (w : world) : Prop :=
  len (buf w) = L
  /\ b_size (blb w) = size
  /\ b_chunkSize (blb w) = cs
  /\ b_fetcher (blb w) = fr
  /\ NoDup (map fst (allData w))
  /\ (forall c wr, map_get c (allData w) = Some wr -> writer_ok off L cs size bud act c wr)
  /\ (forall x, off <= x -> x < off + L -> x < size ->
        good contents off w x
        \/ exists c bw,
             map_get c (allData w) = Some (BytesWriter bw)
             /\ reg_b c <= x <= reg_e c
             /\ current bw <= x - reg_b c).

(** The invariant of a run of [fetchRegions]: every requested chunk has
    an entry in [fetched], and the writer of a chunk marked fetched has
    received it. *)
Definition LeadInv (contents : Z -> byte) (off L cs size : Z) (fr : fetcher)
    (bud : region -> Z) (w : world) : Prop :=
  FInv contents off L cs size fr bud None w
  /\ (forall c, is_Some (map_get c (allData w)) -> is_Some (map_get c (fetched w)))
  /\ (forall c bw,
        map_get c (fetched w) = Some true ->
        map_get c (allData w) = Some (BytesWriter bw) -> 0 < current bw).

(** The region [allRegion] that [ReadAt] walks for the request [p],
    [offset]. *)
Definition read_region (w : world) (p : list byte) (offset : Z) : region :=
  Region (floor offset (b_chunkSize (blb w)))
         (Int64.sub
            (ceil (Int64.sub (Int64.add offset (len p)) 1) (b_chunkSize (blb w))) 1).

(** The sub-regions from start offset [i] on, [n] of them. *)
Fixpoint chunks_from (c s i : Z) (n : nat) : list region :=
  match n with
  | O => []
  | S n' => Region i (Z.min (i + c - 1) (s - 1)) :: chunks_from c s (i + c) n'
  end.

(** Remaining iterations from loop index [i] with last admissible start [m]. *)
Definition remaining (c m i : Z) : nat :=
  if i <=? m then Z.to_nat ((m - i) / c + 1) else 0%nat.

(** Computations that leave one component of the world alone. *)
Definition keeps {A B : Type} (proj : world -> B) (m : M A) : Prop :=
  forall w a w', m w = Done a w' -> proj w' = proj w.

(** What a stream towards chunk [c] may change, seen from the world
    [w0] it started in. *)
Definition streaming (contents : Z -> byte) (off L cs size : Z) (fr : fetcher)
    (bud : region -> Z) (c : region) (w0 : world) (t : Z) (w : world) : Prop :=
  FInv contents off L cs size fr bud (Some (c, t)) w
  /\ fetched w = fetched w0
  /\ (blb w = blb w0 /\ flights w = flights w0)
  /\ map fst (allData w) = map fst (allData w0)
  /\ (forall c', c' <> c -> map_get c' (allData w) = map_get c' (allData w0))
  /\ (0 < t -> forall bw, map_get c (allData w) = Some (BytesWriter bw) -> 0 < current bw).

(** Every registered writer has received its chunk. *)
Definition Settled (contents : Z -> byte) (off L cs size : Z) (fr : fetcher)
    (w : world) : Prop :=
  (exists K, FInv contents off L cs size fr (fun _ => K) None w)
  /\ forall c bw, map_get c (allData w) = Some (BytesWriter bw) -> 0 < current bw.

(** The fields of the blob that only [Refresh] and [Close] assign. *)
Definition settings (w : world) : Z * Z * Z * Duration * fetcher * bool :=
  (b_size (blb w), b_chunkSize (blb w), b_prefetchChunkSize (blb w),
   b_checkInterval (blb w), b_fetcher (blb w), b_closed (blb w)).


(** The region [fetchReg] that [cacheAt] walks for [offset], [size]. *)
Definition cache_region (w : world) (offset size : Z) : region :=
  Region (floor offset (b_chunkSize (blb w)))
         (Int64.sub
            (ceil (Int64.sub (Int64.add offset size) 1) (b_chunkSize (blb w))) 1).

(** What the loop of [fetchRegions] over a response may have done
    between two worlds: it made no external call, assigned no setting,
    removed nothing from the cache, marked fetched only chunks it
    committed, and forgot no region it was asked for. *)
Definition committed (fr : fetcher) (w0 w : world) : Prop :=
  trace w = trace w0 /\ tick w = tick w0 /\ clock w = clock w0
  /\ flights w = flights w0
  /\ settings w = settings w0
  /\ b_lastCheck (blb w) = b_lastCheck (blb w0)
  /\ (forall k, is_Some (entries (b_cache (blb w0)) !! k) ->
                is_Some (entries (b_cache (blb w)) !! k))
  /\ (forall c, map_get c (fetched w) = Some true ->
                map_get c (fetched w0) = Some true
                \/ is_Some (entries (b_cache (blb w)) !! genID fr c))
  /\ (forall c, is_Some (map_get c (fetched w0)) -> is_Some (map_get c (fetched w)))
  /\ map fst (allData w) = map fst (allData w0).


(** Whether a [Check] issued in world [w] finds the throttle expired:
    the comparison [now.Sub(lastCheck) < checkInterval] is false. *)
Definition check_due (w : world) : bool :=
  negb (time_Sub (clock w (tick w)) (b_lastCheck (blb w)) <? b_checkInterval (blb w)).

(** ** Facts on 64-bit arithmetic *)

Section Int64Facts.

Import Int64.

Lemma wrap_id z : in_range z -> wrap z = z.
Proof.
  unfold in_range, wrap, min_int, max_int. intros H.
  rewrite Z.mod_small; lia.
Qed.

Lemma wrap_range z : in_range (wrap z).
Proof.
  unfold in_range, wrap, min_int, max_int.
  pose proof (Z.mod_pos_bound (z + 2 ^ 63) (2 ^ 64) ltac:(lia)). lia.
Qed.

(** Truncated division brackets the dividend from both sides. *)
Lemma quot_bracket n u :
  0 < u -> Z.quot n u * u - u < n /\ n < Z.quot n u * u + u.
Proof.
  intros Hu.
  pose proof (Z.quot_rem' n u) as Hqr.
  destruct (Z_lt_le_dec n 0) as [Hneg | Hpos].
  - pose proof (Z.rem_bound_pos_neg n u Hu ltac:(lia)). lia.
  - pose proof (Z.rem_bound_pos n u Hpos Hu). lia.
Qed.

Lemma quot_abs_le n u :
  0 < u -> (0 <= n -> 0 <= Z.quot n u <= n) /\ (n <= 0 -> n <= Z.quot n u <= 0).
Proof.
  intros Hu. pose proof (quot_bracket n u Hu) as [Hlo Hhi].
  split; intros Hn; split; nia.
Qed.

Lemma quot_small n u :
  in_range n -> 0 < u -> quot n u = Z.quot n u.
Proof.
  intros Hn Hu. unfold quot. apply wrap_id.
  pose proof (quot_abs_le n u Hu) as [Hp Hm].
  unfold in_range, min_int, max_int in *.
  destruct (Z_lt_le_dec n 0); [specialize (Hm ltac:(lia)) | specialize (Hp ltac:(lia))]; lia.
Qed.

End Int64Facts.

(** ** Region arithmetic: rounding *)

Section Rounding.

Import Int64.

(** Without overflow [ceil] is the mathematical next multiple. *)
Lemma ceil_exact n u :
  in_range n -> 0 < u -> (Z.quot n u + 1) * u <= max_int ->
  ceil n u = (Z.quot n u + 1) * u.
Proof.
  intros Hn Hu Hmax. unfold ceil.
  rewrite quot_small by assumption.
  pose proof (quot_bracket n u Hu) as [Hlo Hhi].
  assert (Hq : in_range (Z.quot n u + 1)).
  { pose proof (wrap_range (Z.quot n u)) as Hr.
    rewrite <- (quot_small n u Hn Hu) in Hr.
    rewrite (quot_small n u Hn Hu) in Hr.
    unfold in_range, min_int, max_int in *. nia. }
  unfold add. rewrite (wrap_id _ Hq).
  unfold mul. apply wrap_id.
  unfold in_range, min_int, max_int in *. nia.
Qed.

Lemma floor_of_multiple k u :
  0 < u -> in_range (k * u) -> floor (k * u) u = k * u.
Proof.
  intros Hu Hr. unfold floor.
  rewrite quot_small by assumption.
  rewrite Z.quot_mul by lia.
  unfold mul. now apply wrap_id.
Qed.

End Rounding.

(** C9 as the spec words it fails once the multiplication in [ceil]
    leaves the 64-bit range: at [n = 2^63 - 2] and [u = 3] the product
    [(n/3 + 1) * 3 = 2^63 + 1] wraps to [-2^63 + 1], which is neither a
    multiple of 3 that [floor] returns unchanged nor above [n]. *)
Lemma ceil_overflow_counterexample :
  floor (ceil (2 ^ 63 - 2) 3) 3 <> ceil (2 ^ 63 - 2) 3
  /\ ~ (2 ^ 63 - 2 + 1 <= ceil (2 ^ 63 - 2) 3).
Proof. split; vm_compute; congruence. Qed.

(** C9 (amended): for every 64-bit [n] and every unit [u > 0] such that
    the next multiple [(n/u + 1) * u] still fits in an [int64],
    [floor (ceil n u) u = ceil n u] and [ceil n u >= n + 1]: [ceil]
    advances to the next multiple and never returns [n] itself. *)
Theorem ceil_next_multiple (n u : Z) :
  Int64.in_range n -> 0 < u ->
  (Z.quot n u + 1) * u <= Int64.max_int ->
  floor (ceil n u) u = ceil n u /\ n + 1 <= ceil n u.
Proof.
  intros Hn Hu Hmax.
  rewrite (ceil_exact n u Hn Hu Hmax).
  pose proof (quot_bracket n u Hu) as [Hlo Hhi].
  split.
  - apply floor_of_multiple; [assumption |].
    unfold Int64.in_range, Int64.min_int, Int64.max_int in *. nia.
  - lia.
Qed.

Lemma ceil_next_multiple_witness :
  floor (ceil 7 3) 3 = ceil 7 3 /\ 7 + 1 <= ceil 7 3.
Proof.
  apply (ceil_next_multiple 7 3).
  - unfold Int64.in_range, Int64.min_int, Int64.max_int. lia.
  - lia.
  - vm_compute. congruence.
Defined.

(** ** Reasoning about the monad *)

#[local] Arguments orb : simpl never.
#[local] Arguments andb : simpl never.
#[local] Arguments negb : simpl never.
#[local] Arguments len : simpl never.
#[local] Arguments Int64.wrap : simpl never.
#[local] Arguments Z.mul : simpl never.
#[local] Arguments Z.add : simpl never.
#[local] Arguments Z.sub : simpl never.
#[local] Arguments Z.eqb : simpl never.
#[local] Arguments Z.ltb : simpl never.
#[local] Arguments Z.leb : simpl never.

Lemma bind_Done {A B : Type} (m : M A) (k : A -> M B) w a w' :
  m w = Done a w' -> bind m k w = k a w'.
Proof. unfold bind. now intros ->. Qed.

Lemma bind_inv {A B : Type} (m : M A) (k : A -> M B) w b w2 :
  bind m k w = Done b w2 -> exists a w1, m w = Done a w1 /\ k a w1 = Done b w2.
Proof.
  unfold bind. destruct (m w) as [a w1 | |]; try discriminate. eauto.
Qed.

(** ** Lifecycle *)

Lemma Close_sets_closed w r w' :
  Close w = Done r w' ->
  b_closed (blb w') = true /\ b_size (blb w') = b_size (blb w)
  /\ b_fetchedRegionSet (blb w') = b_fetchedRegionSet (blb w).
Proof.
  unfold Close, bind, gets, modify, ret.
  destruct (b_closed (blb w)) eqn:Hc; intros H; inversion H; subst; simpl; auto.
Qed.

(** C3 as worded fails for the two operations without an error result:
    on the sample blob, after [Close], [Size] and [FetchedSize] still
    answer. *)
Lemma closed_blob_still_reports_size :
  exists w', Close sample_world = Done None w'
    /\ invoke 0 OpSize w' = Done None w'
    /\ Size w' = Done 10 w'
    /\ invoke 0 OpFetchedSize w' = Done None w'.
Proof. eexists. repeat split; reflexivity. Qed.

(** C3 (amended): after [Close] has returned, every later [Check],
    [Refresh], [ReadAt] and [Cache] fails with the closed-blob error and
    leaves the blob as it is, so the same holds for all later calls;
    [Size] and [FetchedSize] have no error result and keep returning the
    size and the fetched byte count. *)
Theorem closed_blob_rejects (fuel : nat) (w w' w2 : world) (r : option error) :
  Close w = Done r w' ->
  blb w2 = blb w' ->
  Check w2 = Done (Some ErrClosed) w2
  /\ (forall answer, Refresh answer w2 = Done (Some ErrClosed) w2)
  /\ (forall p offset,
        ReadAt fuel p offset w2 = Done (0, Some ErrClosed) (with_buf p w2))
  /\ (forall offset size, Cache fuel offset size w2 = Done (Some ErrClosed) w2)
  /\ Size w2 = Done (b_size (blb w)) w2
  /\ FetchedSize w2 = Done (regionSet_totalSize (b_fetchedRegionSet (blb w))) w2.
Proof.
  intros HClose Hblb.
  destruct (Close_sets_closed _ _ _ HClose) as (Hc & Hsz & Hrs).
  rewrite <- Hblb in Hc, Hsz, Hrs.
  repeat split; intros;
    unfold Check, Refresh, ReadAt, Cache, Size, FetchedSize, bind, isClosed, gets,
      modify, ret; simpl; rewrite ?Hc, ?Hsz, ?Hrs; reflexivity.
Qed.

Lemma closed_blob_rejects_witness :
  exists w',
    Close sample_world = Done None w'
    /\ Check w' = Done (Some ErrClosed) w'
    /\ ReadAt 8 [x00; x00] 1 w' = Done (0, Some ErrClosed) (with_buf [x00; x00] w').
Proof.
  eexists. split; [reflexivity |].
  destruct (closed_blob_rejects 8 sample_world _ _ None eq_refl eq_refl)
    as (HCheck & _ & HRead & _).
  split; [exact HCheck | exact (HRead [x00; x00] 1)].
Defined.

(** ** Refresh *)

(** C7: on an open blob, when the resolver hands back a fetcher whose
    size differs from the blob's, [Refresh] fails with the size-mismatch
    error and nothing changes: the fetcher, [lastCheck] and the size
    that [Size] reports are those of before. *)
Theorem Refresh_size_mismatch (w : world) (f : fetcher) (newSize : Z) :
  b_closed (blb w) = false ->
  newSize <> b_size (blb w) ->
  exists w',
    Refresh (Resolved f newSize) w
      = Done (Some (ErrInvalidSize newSize (b_size (blb w)))) w'
    /\ w' = w
    /\ b_fetcher (blb w') = b_fetcher (blb w)
    /\ b_lastCheck (blb w') = b_lastCheck (blb w)
    /\ Size w' = Done (b_size (blb w)) w'.
Proof.
  intros Hopen Hne. exists w.
  unfold Refresh, bind, isClosed, gets, ret. simpl. rewrite Hopen.
  destruct (newSize =? b_size (blb w)) eqn:E; [apply Z.eqb_eq in E; contradiction |].
  simpl. repeat split; reflexivity.
Qed.

Lemma Refresh_size_mismatch_witness :
  exists w',
    Refresh (Resolved failing_fetcher 11) sample_world
      = Done (Some (ErrInvalidSize 11 10)) w'
    /\ w' = sample_world
    /\ b_fetcher (blb w') = sample_fetcher
    /\ b_lastCheck (blb w') = 0
    /\ Size w' = Done 10 w'.
Proof.
  apply (Refresh_size_mismatch sample_world failing_fetcher 11).
  - reflexivity.
  - simpl. lia.
Defined.

(** ** Check *)

Lemma time_Sub_mono t t' u : t <= t' -> time_Sub t u <= time_Sub t' u.
Proof.
  unfold time_Sub, Int64.min_int, Int64.max_int. intros H.
  repeat match goal with
         | |- context [?a <? ?b] => destruct (Z.ltb_spec a b)
         end; lia.
Qed.

Lemma Check_open w :
  b_closed (blb w) = false ->
  Check w =
    if check_due w then
      match check (b_fetcher (blb w)) (length (trace w)) with
      | None =>
          Done None
            (with_blb (set_lastCheck (clock w (tick w)))
               (log EvCheck (with_tick (S (tick w)) w)))
      | Some e => Done (Some e) (log EvCheck (with_tick (S (tick w)) w))
      end
    else Done None (with_tick (S (tick w)) w).
Proof.
  intros Hopen.
  unfold Check, check_due, probe, bind, isClosed, time_Now, gets, modify, ret.
  simpl. rewrite Hopen.
  destruct (time_Sub _ _ <? _); simpl; [reflexivity |].
  destruct (check _ _); reflexivity.
Qed.

Lemma Check_due_probes w :
  b_closed (blb w) = false -> check_due w = true ->
  exists w'',
    Check w = Done (check (b_fetcher (blb w)) (length (trace w))) w''
    /\ trace w'' = trace w ++ [EvCheck].
Proof.
  intros Hopen Hdue. rewrite (Check_open w Hopen), Hdue.
  destruct (check (b_fetcher (blb w)) (length (trace w)));
    eexists; split; reflexivity.
Qed.

(** C6: on an open blob [Check] calls [fetcher.check()] exactly when
    [now.Sub(lastCheck) >= checkInterval] and otherwise returns success
    without probing; [lastCheck] becomes [now] exactly when a probe was
    made and succeeded; after a failed probe [lastCheck] is unchanged, so
    the next [Check], however soon it comes, probes again. *)
Theorem Check_throttle (w : world) :
  b_closed (blb w) = false ->
  let now := clock w (tick w) in
  let answer := check (b_fetcher (blb w)) (length (trace w)) in
  exists w',
    Check w = Done (if check_due w then answer else None) w'
    /\ trace w' = trace w ++ (if check_due w then [EvCheck] else [])
    /\ b_lastCheck (blb w') =
         (if check_due w
          then match answer with None => now | Some _ => b_lastCheck (blb w) end
          else b_lastCheck (blb w))
    /\ (check_due w = true -> answer <> None -> now <= clock w' (tick w') ->
        exists w'',
          Check w' = Done (check (b_fetcher (blb w')) (length (trace w'))) w''
          /\ trace w'' = trace w' ++ [EvCheck]).
Proof.
  intros Hopen now answer.
  rewrite (Check_open w Hopen). fold answer.
  destruct (check_due w) eqn:Hdue.
  - destruct answer as [e |] eqn:Hans.
    + eexists. split; [reflexivity |]. split; [reflexivity |]. split; [reflexivity |].
      intros _ _ Hclock.
      apply Check_due_probes; [exact Hopen |].
      unfold check_due in *. simpl in *.
      apply negb_true_iff in Hdue. apply negb_true_iff.
      apply Z.ltb_ge in Hdue. apply Z.ltb_ge.
      pose proof (time_Sub_mono _ _ (b_lastCheck (blb w)) Hclock). fold now in Hdue. lia.
    + eexists. split; [reflexivity |]. split; [reflexivity |]. split; [reflexivity |].
      intros _ Hne. contradiction.
  - eexists. split; [reflexivity |]. simpl. rewrite app_nil_r. repeat split.
    intros Hd. discriminate.
Qed.

Lemma Check_throttle_witness :
  exists w',
    Check failing_world = Done (Some (ErrExternal "500 Internal Server Error")) w'
    /\ trace w' = [EvCheck]
    /\ b_lastCheck (blb w') = 0.
Proof.
  destruct (Check_throttle failing_world eq_refl) as (w' & H1 & H2 & H3 & _).
  exists w'. repeat split; assumption.
Defined.

(** ** ReadAt: the returned count *)

Ltac minv H :=
  repeat match type of H with
         | bind _ _ _ = Done _ _ =>
             let a := fresh "a" in
             let w := fresh "w" in
             let E := fresh "E" in
             apply bind_inv in H as (a & w & E & H)
         end.

Lemma adjustBufferSize_spec lenp offset size :
  Int64.in_range size -> 0 <= offset <= size -> 0 <= lenp ->
  adjustBufferSize lenp offset size = Z.min lenp (Z.max 0 (size - offset)).
Proof.
  intros Hs Ho Hl. unfold adjustBufferSize, Int64.sub.
  rewrite wrap_id by (unfold Int64.in_range, Int64.min_int, Int64.max_int in *; lia).
  destruct (Z.leb_spec (size - offset) lenp); destruct (Z.ltb_spec (size - offset) 0); lia.
Qed.

(** The three ways out of [ReadAt] before any chunk is touched, and the
    shape of the rest. *)
Lemma ReadAt_closed fuel p offset w :
  b_closed (blb w) = true ->
  ReadAt fuel p offset w = Done (0, Some ErrClosed) (with_buf p w).
Proof.
  intros Hc. unfold ReadAt, bind, isClosed, gets, modify, ret. simpl.
  now rewrite Hc.
Qed.

Lemma ReadAt_nothing fuel p offset w :
  b_closed (blb w) = false ->
  (len p =? 0) || (b_size (blb w) <? offset) = true ->
  ReadAt fuel p offset w = Done (0, None) (with_buf p w).
Proof.
  intros Hc Hg. unfold ReadAt, bind, isClosed, gets, modify, ret. simpl.
  rewrite Hc. simpl. now rewrite Hg.
Qed.

Lemma ReadAt_zero_chunk fuel p offset w :
  b_closed (blb w) = false ->
  (len p =? 0) || (b_size (blb w) <? offset) = false ->
  b_chunkSize (blb w) = 0 ->
  ReadAt fuel p offset w = Crash PanicDivideByZero.
Proof.
  intros Hc Hg Hz. unfold ReadAt, bind, isClosed, gets, modify, ret, crash. simpl.
  rewrite Hc. simpl. rewrite Hg. simpl. now rewrite Hz.
Qed.

Lemma ReadAt_open fuel p offset w :
  b_closed (blb w) = false ->
  (len p =? 0) || (b_size (blb w) <? offset) = false ->
  b_chunkSize (blb w) <> 0 ->
  ReadAt fuel p offset w =
    match prepareChunksForRead fuel (read_region w p offset) offset (b_fetcher (blb w))
            (with_allData [] (with_buf p w)) with
    | Done (Some e) w1 => Done (0, Some e) w1
    | Done None w1 =>
        match fetchRange fuel w1 with
        | Done (Some e) w2 => Done (0, Some e) w2
        | Done None w2 =>
            Done (adjustBufferSize (len p) offset (b_size (blb w)), None) w2
        | Crash q => Crash q
        | OutOfFuel => OutOfFuel
        end
    | Crash q => Crash q
    | OutOfFuel => OutOfFuel
    end.
Proof.
  intros Hc Hg Hz. unfold ReadAt, bind, isClosed, getFetcher, gets, modify, ret. simpl.
  rewrite Hc. simpl. rewrite Hg. simpl. apply Z.eqb_neq in Hz. rewrite Hz. simpl.
  unfold read_region. simpl.
  destruct (prepareChunksForRead _ _ _ _ _) as [[e |] w1 | |]; try reflexivity.
  destruct (fetchRange fuel w1) as [[e |] w2 | |]; reflexivity.
Qed.

(** C2: whenever [ReadAt(dst, off)] with [off >= 0] returns without
    error, the count it returns is [min(len(dst), max(0, size - off))]. *)
Theorem ReadAt_count (fuel : nat) (p : list byte) (offset n : Z) (w w' : world) :
  Int64.in_range (b_size (blb w)) ->
  0 <= offset ->
  ReadAt fuel p offset w = Done (n, None) w' ->
  n = Z.min (len p) (Z.max 0 (b_size (blb w) - offset)).
Proof.
  intros Hsz Hoff H.
  assert (Hlen : 0 <= len p) by (unfold len; lia).
  destruct (b_closed (blb w)) eqn:Hc.
  { rewrite ReadAt_closed in H by assumption. inversion H. }
  destruct ((len p =? 0) || (b_size (blb w) <? offset)) eqn:Hg.
  { rewrite ReadAt_nothing in H by assumption. inversion H; subst.
    apply orb_true_iff in Hg as [Hz | Hgt].
    - apply Z.eqb_eq in Hz. lia.
    - apply Z.ltb_lt in Hgt. lia. }
  destruct (Z.eq_dec (b_chunkSize (blb w)) 0) as [Hz | Hz].
  { rewrite ReadAt_zero_chunk in H by assumption. inversion H. }
  rewrite ReadAt_open in H by assumption.
  apply orb_false_iff in Hg as [_ Hle]. apply Z.ltb_ge in Hle.
  destruct (prepareChunksForRead _ _ _ _ _) as [[e |] w1 | |]; try discriminate.
  destruct (fetchRange fuel w1) as [[e |] w2 | |]; try discriminate.
  inversion H; subst.
  apply adjustBufferSize_spec; [assumption | lia | assumption].
Qed.

Lemma ReadAt_count_witness :
  exists w', ReadAt 8 [x00; x00; x00; x00] 8 sample_world = Done (2, None) w'
             /\ 2 = Z.min 4 (Z.max 0 (10 - 8)).
Proof.
  eexists. split; [vm_compute; reflexivity |].
  refine (ReadAt_count 8 [x00; x00; x00; x00] 8 2 sample_world _ _ _ _).
  - vm_compute. split; congruence.
  - lia.
  - vm_compute. reflexivity.
Defined.

(** ** walkChunks *)

Section Walk.

Import Int64.

Lemma chunks_from_map c s i n :
  chunks_from c s i n =
    map (fun k => Region (i + Z.of_nat k * c) (Z.min (i + (Z.of_nat k + 1) * c - 1) (s - 1)))
        (seq 0 n).
Proof.
  revert i. induction n as [| n IH]; intros i; [reflexivity |].
  simpl chunks_from. rewrite IH. simpl seq. rewrite <- seq_shift. simpl map.
  rewrite List.map_map. f_equal.
  - f_equal; lia.
  - apply List.map_ext. intros k. f_equal; lia.
Qed.

Lemma spec_chunks_from r c s :
  spec_chunks r c s = chunks_from c s (reg_b r) (chunk_count r c s).
Proof. unfold spec_chunks. now rewrite chunks_from_map. Qed.

Lemma remaining_step c m i :
  0 < c -> i <= m -> remaining c m i = S (remaining c m (i + c)).
Proof.
  intros Hc Hi. unfold remaining.
  destruct (Z.leb_spec i m); [| lia].
  destruct (Z.leb_spec (i + c) m).
  - replace (m - i) with ((m - (i + c)) + 1 * c) by lia.
    rewrite Z.div_add by lia.
    pose proof (Z.div_pos (m - (i + c)) c ltac:(lia) Hc). lia.
  - rewrite Z.div_small by lia. reflexivity.
Qed.

Lemma remaining_zero c m i : m < i -> remaining c m i = 0%nat.
Proof. intros H. unfold remaining. destruct (Z.leb_spec i m); [lia | reflexivity]. Qed.

Lemma walk_loop_for_each fn :
  keeps_geometry fn ->
  forall n fuel e i w,
    0 < b_chunkSize (blb w) ->
    in_range i -> in_range (b_size (blb w)) ->
    n = remaining (b_chunkSize (blb w)) (Z.min e (b_size (blb w) - 1)) i ->
    i + Z.of_nat n * b_chunkSize (blb w) <= max_int ->
    (n < fuel)%nat ->
    walk_loop fuel fn e i w =
      for_each fn (chunks_from (b_chunkSize (blb w)) (b_size (blb w)) i n) w.
Proof.
  intros Hfn. induction n as [| n IH]; intros fuel e i w Hc Hi Hs Hn Hmax Hfuel.
  - destruct fuel as [| fuel]; [lia |].
    simpl. unfold bind, gets, ret.
    assert (Hcond : (i <=? e) && (i <? b_size (blb w)) = false).
    { unfold remaining in Hn.
      destruct (Z.leb_spec i (Z.min e (b_size (blb w) - 1))) as [Hle | Hgt].
      - pose proof (Z.div_pos (Z.min e (b_size (blb w) - 1) - i) (b_chunkSize (blb w))
                      ltac:(lia) Hc). lia.
      - apply andb_false_iff.
        destruct (Z.leb_spec i e); [right; apply Z.ltb_ge; lia | now left]. }
    now rewrite Hcond.
  - destruct fuel as [| fuel]; [lia |].
    assert (Hle : i <= Z.min e (b_size (blb w) - 1)).
    { unfold remaining in Hn.
      destruct (Z.leb_spec i (Z.min e (b_size (blb w) - 1))); [assumption | discriminate]. }
    simpl. unfold bind at 1 2. unfold gets at 1 2.
    assert (Hcond : (i <=? e) && (i <? b_size (blb w)) = true).
    { apply andb_true_iff. split; [apply Z.leb_le | apply Z.ltb_lt]; lia. }
    rewrite Hcond.
    assert (Hadd : add i (b_chunkSize (blb w)) = i + b_chunkSize (blb w)).
    { apply wrap_id. unfold in_range, min_int, max_int in *. nia. }
    assert (Hsub : sub (i + b_chunkSize (blb w)) 1 = i + b_chunkSize (blb w) - 1).
    { apply wrap_id. unfold in_range, min_int, max_int in *. nia. }
    assert (Hsz1 : sub (b_size (blb w)) 1 = b_size (blb w) - 1).
    { apply wrap_id. unfold in_range, min_int, max_int in *. lia. }
    rewrite Hadd, Hsub, Hsz1. cbn [reg_e].
    assert (Hreg :
      (if b_size (blb w) <=? i + b_chunkSize (blb w) - 1
       then Region i (b_size (blb w) - 1)
       else Region i (i + b_chunkSize (blb w) - 1))
      = Region i (Z.min (i + b_chunkSize (blb w) - 1) (b_size (blb w) - 1))).
    { destruct (Z.leb_spec (b_size (blb w)) (i + b_chunkSize (blb w) - 1));
        f_equal; lia. }
    rewrite Hreg. unfold bind.
    destruct (fn _ w) as [[err |] w' | |] eqn:Hcall; try reflexivity.
    destruct (Hfn _ _ _ _ Hcall) as [Hsz' Hcs'].
    rewrite <- Hsz', <- Hcs'.
    apply IH.
    + lia.
    + unfold in_range, min_int, max_int in *. nia.
    + congruence.
    + rewrite Hsz', Hcs'.
      rewrite (remaining_step _ _ _ Hc Hle) in Hn. congruence.
    + rewrite Hcs'. lia.
    + lia.
Qed.

Lemma walkChunks_misaligned fuel r fn w :
  b_chunkSize (blb w) <> 0 ->
  Z.rem (reg_b r) (b_chunkSize (blb w)) <> 0 ->
  walkChunks fuel r fn w = Done (Some (ErrMisaligned (reg_b r) (reg_e r))) w.
Proof.
  intros Hc Hrem. unfold walkChunks, bind, gets, ret. simpl.
  apply Z.eqb_neq in Hc. rewrite Hc. simpl.
  unfold rem. apply Z.eqb_neq in Hrem. rewrite Hrem. reflexivity.
Qed.

Lemma walkChunks_aligned fuel r fn w :
  b_chunkSize (blb w) <> 0 ->
  Z.rem (reg_b r) (b_chunkSize (blb w)) = 0 ->
  walkChunks fuel r fn w = walk_loop fuel fn (reg_e r) (reg_b r) w.
Proof.
  intros Hc Hrem. unfold walkChunks, bind, gets, ret. simpl.
  apply Z.eqb_neq in Hc. rewrite Hc. simpl.
  unfold rem. rewrite Hrem. reflexivity.
Qed.

Lemma walkChunks_for_each fuel r fn w :
  keeps_geometry fn ->
  0 < b_chunkSize (blb w) ->
  in_range (reg_b r) -> in_range (b_size (blb w)) ->
  Z.rem (reg_b r) (b_chunkSize (blb w)) = 0 ->
  reg_b r + Z.of_nat (chunk_count r (b_chunkSize (blb w)) (b_size (blb w)))
            * b_chunkSize (blb w) <= max_int ->
  (chunk_count r (b_chunkSize (blb w)) (b_size (blb w)) < fuel)%nat ->
  walkChunks fuel r fn w =
    for_each fn (spec_chunks r (b_chunkSize (blb w)) (b_size (blb w))) w.
Proof.
  intros Hfn Hc Hb Hs Hrem Hmax Hfuel.
  rewrite walkChunks_aligned by (assumption || lia).
  rewrite spec_chunks_from.
  apply walk_loop_for_each; try assumption. reflexivity.
Qed.

End Walk.

Lemma record_chunk_keeps_geometry : keeps_geometry record_chunk.
Proof.
  intros reg w a w' H. unfold record_chunk, bind, modify, ret in H.
  inversion H; subst. simpl. auto.
Qed.

(** C8 as worded fails when the loop index overflows: on a blob of
    [2^63 - 1] bytes in chunks of [2^62], the walk of [{0, 2^63 - 1}]
    goes on after the two sub-regions the claim lists: the index wraps
    to [-2^63] and the walk function is called on a region that starts
    there. *)
Lemma walkChunks_overflow_counterexample :
  spec_chunks (Region 0 (2 ^ 63 - 1)) (2 ^ 62) (2 ^ 63 - 1)
    = [Region 0 (2 ^ 62 - 1); Region (2 ^ 62) (2 ^ 63 - 2)]
  /\ for_each reject_negative
       (spec_chunks (Region 0 (2 ^ 63 - 1)) (2 ^ 62) (2 ^ 63 - 1)) huge_world
     = Done None huge_world
  /\ walkChunks 4 (Region 0 (2 ^ 63 - 1)) reject_negative huge_world
     = Done (Some (ErrExternal "negative offset")) huge_world.
Proof. repeat split; vm_compute; reflexivity. Qed.

(** C8 (amended): for every region [r], chunk size [c > 0] and blob size
    [s], [walkChunks(r, fn)] itself fails, with the misalignment error,
    exactly when [r.b % c != 0]; otherwise, provided the start offset
    that follows the last sub-region still fits in an [int64], it calls
    [fn] on the sub-regions [{r.b + k*c, min(r.b + (k+1)*c - 1, s-1)}],
    [k = 0, 1, ...], in increasing order up to [min(r.e, s-1)], stopping
    early only if [fn] fails; every sub-region but the last ends at
    [r.b + (k+1)*c - 1]. *)
Theorem walkChunks_spec (fuel : nat) (r : region) (fn : walkFunc) (w : world) :
  let c := b_chunkSize (blb w) in
  let s := b_size (blb w) in
  keeps_geometry fn ->
  0 < c ->
  Int64.in_range (reg_b r) -> Int64.in_range s ->
  (Z.rem (reg_b r) c <> 0 ->
     walkChunks fuel r fn w = Done (Some (ErrMisaligned (reg_b r) (reg_e r))) w)
  /\ (Z.rem (reg_b r) c = 0 ->
      reg_b r + Z.of_nat (chunk_count r c s) * c <= Int64.max_int ->
      (chunk_count r c s < fuel)%nat ->
      walkChunks fuel r fn w = for_each fn (spec_chunks r c s) w)
  /\ (forall k, (S k < chunk_count r c s)%nat ->
      nth k (spec_chunks r c s) (Region 0 0)
        = Region (reg_b r + Z.of_nat k * c) (reg_b r + (Z.of_nat k + 1) * c - 1)).
Proof.
  intros c s Hfn Hc Hb Hs. split; [| split].
  - intros Hrem. apply walkChunks_misaligned; [subst c; lia | assumption].
  - intros Hrem Hmax Hfuel. now apply walkChunks_for_each.
  - intros k Hk. unfold spec_chunks.
    rewrite (List.nth_indep _ (Region 0 0)
               (Region (reg_b r + Z.of_nat 0 * c)
                       (Z.min (reg_b r + (Z.of_nat 0 + 1) * c - 1) (s - 1))))
      by (rewrite length_map, length_seq; lia).
    rewrite (List.map_nth
               (fun k => Region (reg_b r + Z.of_nat k * c)
                                (Z.min (reg_b r + (Z.of_nat k + 1) * c - 1) (s - 1)))).
    rewrite seq_nth by lia. simpl Nat.add. f_equal.
    unfold chunk_count in Hk.
    destruct (Z.leb_spec (reg_b r) (Z.min (reg_e r) (s - 1))) as [Hle | Hgt]; [| lia].
    set (m := Z.min (reg_e r) (s - 1)) in *.
    assert (Hdiv : Z.of_nat k + 2 <= (m - reg_b r) / c + 1).
    { pose proof (Z.div_pos (m - reg_b r) c ltac:(lia) Hc). lia. }
    assert (Hmul : c * ((m - reg_b r) / c) <= m - reg_b r)
      by (apply Z.mul_div_le; lia).
    nia.
Qed.

Lemma walkChunks_spec_witness :
  walkChunks 8 (Region 3 20) record_chunk sample_world
    = for_each record_chunk [Region 3 5; Region 6 8; Region 9 9] sample_world
  /\ walkChunks 8 (Region 4 20) record_chunk sample_world
    = Done (Some (ErrMisaligned 4 20)) sample_world.
Proof.
  destruct (walkChunks_spec 8 (Region 3 20) record_chunk sample_world
              record_chunk_keeps_geometry)
    as (_ & Hal & _).
  - simpl. lia.
  - vm_compute. split; congruence.
  - vm_compute. split; congruence.
  - destruct (walkChunks_spec 8 (Region 4 20) record_chunk sample_world
                record_chunk_keeps_geometry)
      as (Hmis & _ & _).
    + simpl. lia.
    + vm_compute. split; congruence.
    + vm_compute. split; congruence.
    + split.
      * apply Hal.
        -- reflexivity.
        -- vm_compute. congruence.
        -- vm_compute. lia.
      * apply Hmis. vm_compute. congruence.
Defined.


(** ** ReadAt at and past the end of the blob *)

Lemma floor_multiple n u :
  Int64.in_range n -> 0 < u -> Z.rem n u = 0 -> floor n u = n.
Proof.
  intros Hn Hu Hrem. unfold floor. rewrite quot_small by assumption.
  pose proof (Z.quot_rem' n u) as Hqr. rewrite Hrem in Hqr.
  unfold Int64.mul. rewrite wrap_id; [lia |].
  replace (Z.quot n u * u) with n by lia. assumption.
Qed.

Lemma walk_loop_past_size fuel fn e i w :
  b_size (blb w) <= i -> walk_loop (S fuel) fn e i w = Done None w.
Proof.
  intros Hi. simpl. unfold bind, gets, ret.
  destruct (Z.ltb_spec i (b_size (blb w))); [lia |].
  rewrite andb_false_r. reflexivity.
Qed.

Lemma fetchRange_nothing fuel w :
  allData w = [] -> fetchRange (S fuel) w = Done None w.
Proof. intros H. simpl. unfold bind, gets, ret. now rewrite H. Qed.

(** C5 as worded fails at [offset == size] on a blob whose size is not
    a multiple of the chunk size: the last chunk is visited, and with a
    cold cache and a registry that is down the call fails; on a blob as
    large as [int64] allows, the end of the request wraps around, the
    walk goes on below offset zero and the slice expression panics. *)
Lemma ReadAt_at_size_counterexample :
  (exists w',
     ReadAt 8 [x00] 10 failing_world
       = Done (0, Some (ErrExternal "500 Internal Server Error")) w'
     /\ trace w' = [EvDo; EvFetch [Region 9 9]])
  /\ b_size (blb huge_world) = 2 ^ 63 - 1
  /\ ReadAt 8 [x00] (2 ^ 63 - 1) huge_world = Crash PanicSliceBounds.
Proof.
  split; [eexists; split; vm_compute; reflexivity |].
  split; vm_compute; reflexivity.
Qed.



(** ** Byte slices *)

Lemma len_nonneg {A : Type} (l : list A) : 0 <= len l.
Proof. unfold len. lia. Qed.

Lemma len_app {A : Type} (l1 l2 : list A) : len (l1 ++ l2) = len l1 + len l2.
Proof. unfold len. rewrite length_app. lia. Qed.

Lemma len_firstn {A : Type} (n : Z) (l : list A) :
  0 <= n <= len l -> len (firstn (Z.to_nat n) l) = n.
Proof. unfold len. intros H. rewrite length_firstn. lia. Qed.

Lemma len_skipn {A : Type} (n : Z) (l : list A) :
  0 <= n <= len l -> len (skipn (Z.to_nat n) l) = len l - n.
Proof. unfold len. intros H. rewrite length_skipn. lia. Qed.

Lemma byte_at_firstn n l i :
  0 <= i < n -> byte_at (firstn (Z.to_nat n) l) i = byte_at l i.
Proof.
  intros H. unfold byte_at. destruct (Z.ltb_spec i 0); [lia |].
  rewrite nth_firstn. destruct (Nat.ltb_spec (Z.to_nat i) (Z.to_nat n)); [reflexivity | lia].
Qed.

Lemma byte_at_skipn n l i :
  0 <= n -> 0 <= i -> byte_at (skipn (Z.to_nat n) l) i = byte_at l (n + i).
Proof.
  intros Hn Hi. unfold byte_at.
  destruct (Z.ltb_spec i 0); [lia |]. destruct (Z.ltb_spec (n + i) 0); [lia |].
  rewrite nth_skipn. f_equal. lia.
Qed.

Lemma byte_at_app_l l1 l2 i :
  i < len l1 -> byte_at (l1 ++ l2) i = byte_at l1 i.
Proof.
  unfold byte_at, len. intros H. destruct (Z.ltb_spec i 0); [reflexivity |].
  apply app_nth1. lia.
Qed.

Lemma byte_at_app_r l1 l2 i :
  len l1 <= i -> byte_at (l1 ++ l2) i = byte_at l2 (i - len l1).
Proof.
  unfold byte_at, len. intros H.
  destruct (Z.ltb_spec i 0); [lia |].
  destruct (Z.ltb_spec (i - Z.of_nat (length l1)) 0); [lia |].
  rewrite app_nth2 by lia. f_equal. lia.
Qed.

Lemma len_subslice l lo hi :
  0 <= lo <= hi -> hi <= len l -> len (subslice l lo hi) = hi - lo.
Proof.
  intros H1 H2. unfold subslice. rewrite len_firstn; [reflexivity |].
  rewrite len_skipn by lia. lia.
Qed.

Lemma byte_at_subslice l lo hi j :
  0 <= lo -> 0 <= j < hi - lo -> byte_at (subslice l lo hi) j = byte_at l (lo + j).
Proof.
  intros Hlo Hj. unfold subslice.
  rewrite byte_at_firstn by lia. apply byte_at_skipn; lia.
Qed.

(** What [copy] leaves in the buffer. *)
Lemma len_copy_into buf0 pos room src :
  0 <= pos -> 0 <= room -> pos + Z.min room (len src) <= len buf0 ->
  len (copy_into buf0 pos room src) = len buf0.
Proof.
  intros Hpos Hroom Hfit. unfold copy_into.
  pose proof (len_nonneg src).
  rewrite !len_app.
  rewrite len_firstn by lia.
  rewrite len_firstn by lia.
  replace (Z.to_nat pos + Z.to_nat (Z.min room (len src)))%nat
    with (Z.to_nat (pos + Z.min room (len src))) by lia.
  rewrite len_skipn by lia. lia.
Qed.

Lemma byte_at_copy_into buf0 pos room src t :
  0 <= pos -> 0 <= room -> pos + Z.min room (len src) <= len buf0 ->
  byte_at (copy_into buf0 pos room src) t =
    if (pos <=? t) && (t <? pos + Z.min room (len src))
    then byte_at src (t - pos) else byte_at buf0 t.
Proof.
  intros Hpos Hroom Hfit. unfold copy_into.
  pose proof (len_nonneg src).
  replace (Z.to_nat pos + Z.to_nat (Z.min room (len src)))%nat
    with (Z.to_nat (pos + Z.min room (len src))) by lia.
  destruct (Z.leb_spec pos t) as [Hle | Hgt]; simpl andb.
  - rewrite byte_at_app_r by (rewrite len_firstn; lia).
    rewrite len_firstn by lia.
    destruct (Z.ltb_spec t (pos + Z.min room (len src))) as [Hin | Hout].
    + rewrite byte_at_app_l by (rewrite len_firstn; lia).
      apply byte_at_firstn. lia.
    + rewrite byte_at_app_r by (rewrite len_firstn; lia).
      rewrite len_firstn by lia.
      rewrite byte_at_skipn by lia. f_equal. lia.
  - destruct (Z.ltb_spec t 0).
    + unfold byte_at. destruct (Z.ltb_spec t 0); [reflexivity | lia].
    + rewrite byte_at_app_l by (rewrite len_firstn; lia).
      apply byte_at_firstn. lia.
Qed.

Lemma copy_into_nothing buf0 pos room src :
  0 <= pos <= len buf0 -> Z.min room (len src) <= 0 ->
  copy_into buf0 pos room src = buf0.
Proof.
  intros Hpos Hn. unfold copy_into.
  replace (Z.to_nat (Z.min room (len src))) with 0%nat by lia.
  simpl. rewrite Nat.add_0_r. apply firstn_skipn.
Qed.



(** ** The geometry of a request *)

Lemma add_id x y :
  Int64.min_int <= x + y <= Int64.max_int -> Int64.add x y = x + y.
Proof. intros H. apply wrap_id. exact H. Qed.

Lemma sub_id x y :
  Int64.min_int <= x - y <= Int64.max_int -> Int64.sub x y = x - y.
Proof. intros H. apply wrap_id. exact H. Qed.

Lemma positive_max n : positive n = Z.max 0 n.
Proof. unfold positive. destruct (Z.ltb_spec n 0); lia. Qed.

Lemma quot_floor_le n u : 0 <= n -> 0 < u -> Z.quot n u * u <= n.
Proof.
  intros Hn Hu. pose proof (Z.quot_rem' n u).
  pose proof (Z.rem_bound_pos n u Hn Hu). lia.
Qed.

Section ReadGeometry.

Variables off L cs size : Z.
Hypothesis Hcs : 0 < cs.
Hypothesis Hoff : 0 <= off <= size.
Hypothesis HL : 0 < L.
Hypothesis Hsize : size <= Int64.max_int.
Hypothesis Hceil : (Z.quot (off + L - 1) cs + 1) * cs <= Int64.max_int.

Lemma request_end_fits : off + L <= Int64.max_int.
Proof. pose proof (quot_bracket (off + L - 1) cs Hcs). lia. Qed.

Lemma floor_request :
  floor off cs = Z.quot off cs * cs
  /\ Z.quot off cs * cs <= off < Z.quot off cs * cs + cs
  /\ 0 <= Z.quot off cs.
Proof.
  pose proof (quot_bracket off cs Hcs) as [_ Hhi].
  pose proof (quot_floor_le off cs ltac:(lia) Hcs).
  pose proof (Z.quot_pos off cs ltac:(lia) Hcs).
  unfold Int64.max_int in *.
  split; [| lia].
  unfold floor. rewrite quot_small; [| unfold Int64.in_range, Int64.min_int, Int64.max_int; lia | lia].
  apply wrap_id. unfold Int64.in_range, Int64.min_int, Int64.max_int. nia.
Qed.

Lemma ceil_request :
  Int64.sub (ceil (Int64.sub (Int64.add off L) 1) cs) 1
    = (Z.quot (off + L - 1) cs + 1) * cs - 1.
Proof.
  pose proof request_end_fits as Hfit.
  pose proof (Z.quot_pos (off + L - 1) cs ltac:(lia) Hcs) as HQ.
  pose proof Hceil as Hceil'.
  set (Q := Z.quot (off + L - 1) cs) in *.
  assert (Hr : Int64.sub (Int64.add off L) 1 = off + L - 1).
  { clearbody Q. clear Hceil. unfold Int64.max_int in *.
    rewrite add_id by (unfold Int64.min_int, Int64.max_int; lia).
    apply sub_id. unfold Int64.min_int, Int64.max_int. lia. }
  rewrite Hr.
  rewrite ceil_exact; [| | exact Hcs | exact Hceil].
  - fold Q. apply sub_id. clearbody Q. clear Hceil.
    unfold Int64.min_int, Int64.max_int in *. nia.
  - clearbody Q. clear Hceil.
    unfold Int64.in_range, Int64.min_int, Int64.max_int in *. lia.
Qed.

Lemma spec_chunks_relevant c :
  In c (spec_chunks
          (Region (Z.quot off cs * cs) ((Z.quot (off + L - 1) cs + 1) * cs - 1)) cs size) ->
  relevant off L cs size c.
Proof.
  unfold spec_chunks, chunk_count. cbn [reg_b reg_e].
  set (fl := Z.quot off cs * cs).
  set (ce := (Z.quot (off + L - 1) cs + 1) * cs).
  set (m := Z.min (ce - 1) (size - 1)).
  intros Hin. apply in_map_iff in Hin as (k & <- & Hk). apply in_seq in Hk.
  destruct (Z.leb_spec fl m) as [Hle | Hgt]; [| simpl in Hk; lia].
  assert (Hkm : fl + Z.of_nat k * cs <= m).
  { assert (Hdiv : Z.of_nat k <= (m - fl) / cs).
    { pose proof (Z.div_pos (m - fl) cs ltac:(lia) Hcs). lia. }
    pose proof (Z.mul_div_le (m - fl) cs Hcs). nia. }
  pose proof floor_request as (_ & Hfl & Hq).
  pose proof (quot_floor_le (off + L - 1) cs ltac:(lia) Hcs) as HQ.
  pose proof (Z.quot_pos (off + L - 1) cs ltac:(lia) Hcs) as HQ0.
  fold fl in Hfl.
  unfold relevant. cbn [reg_b reg_e].
  repeat split.
  - subst fl. replace (Z.quot off cs * cs + Z.of_nat k * cs)
      with ((Z.quot off cs + Z.of_nat k) * cs) by lia.
    apply Z.rem_mul. lia.
  - subst fl. nia.
  - assert (Hq' : Z.quot off cs + Z.of_nat k <= Z.quot (off + L - 1) cs).
    { subst fl ce m. nia. }
    subst fl. nia.
  - lia.
  - f_equal. lia.
  - nia.
Qed.

(** The window of a relevant chunk, free of wrap-around. *)
Lemma relevant_window c :
  relevant off L cs size c ->
  chunk_base off c = Z.max 0 (reg_b c - off)
  /\ chunk_lowerUnread off c = Z.max 0 (off - reg_b c)
  /\ region_size c = reg_e c - reg_b c + 1
  /\ chunk_expectedSize off L c
       = Z.min (reg_e c + 1) (off + L) - Z.max (reg_b c) off
  /\ reg_b c <= reg_e c
  /\ 0 <= chunk_expectedSize off L c.
Proof.
  intros (Hrem & Hb0 & HbL & Hbs & He & Hbo).
  pose proof request_end_fits as Hfit.
  clear Hceil. unfold Int64.max_int in *.
  assert (Hbc : chunk_base off c = Z.max 0 (reg_b c - off)).
  { unfold chunk_base. rewrite sub_id by (unfold Int64.min_int, Int64.max_int; lia).
    apply positive_max. }
  assert (Hlo : chunk_lowerUnread off c = Z.max 0 (off - reg_b c)).
  { unfold chunk_lowerUnread. rewrite sub_id by (unfold Int64.min_int, Int64.max_int; lia).
    apply positive_max. }
  assert (Hrs : region_size c = reg_e c - reg_b c + 1).
  { unfold region_size. rewrite sub_id by (unfold Int64.min_int, Int64.max_int; lia).
    apply add_id. unfold Int64.min_int, Int64.max_int. lia. }
  assert (Hup : chunk_upperUnread off L c = Z.max 0 (reg_e c + 1 - (off + L))).
  { unfold chunk_upperUnread.
    rewrite !add_id by (unfold Int64.min_int, Int64.max_int; lia).
    rewrite sub_id by (unfold Int64.min_int, Int64.max_int; lia).
    apply positive_max. }
  assert (Hex : chunk_expectedSize off L c
                = Z.min (reg_e c + 1) (off + L) - Z.max (reg_b c) off).
  { unfold chunk_expectedSize. rewrite Hrs, Hup, Hlo.
    rewrite (sub_id (reg_e c - reg_b c + 1))
      by (unfold Int64.min_int, Int64.max_int; lia).
    rewrite sub_id by (unfold Int64.min_int, Int64.max_int; lia). lia. }
  repeat split; try assumption; lia.
Qed.

Lemma relevant_in_bounds c :
  relevant off L cs size c ->
  0 <= chunk_base off c
  /\ 0 <= chunk_expectedSize off L c
  /\ chunk_base off c + chunk_expectedSize off L c <= L.
Proof.
  intros Hrel.
  destruct (relevant_window c Hrel) as (Hb & _ & _ & Hex & Hbe & Hex0).
  destruct Hrel as (_ & Hb0 & HbL & Hbs & He & Hbo).
  rewrite Hb, Hex. lia.
Qed.

End ReadGeometry.


(** ** Reading a chunk from the cache *)

Lemma cache_ReadAt_spec data ex lo :
  0 <= lo -> 0 <= ex ->
  exists n err got,
    cache_ReadAt data ex lo = (n, err, got)
    /\ len got = n
    /\ (err = None \/ err = Some EOF)
    /\ 0 <= n <= ex
    /\ (n = ex <-> (ex = 0 \/ lo + ex <= len data))
    /\ (forall j, 0 <= j < n -> byte_at got j = byte_at data (lo + j)).
Proof.
  intros Hlo Hex. unfold cache_ReadAt.
  pose proof (len_nonneg data) as Hd.
  destruct (Z.ltb_spec lo 0); [lia |].
  destruct (Z.leb_spec (len data) lo) as [Hshort | Hin].
  - exists 0, (Some EOF), []. repeat split; auto; try lia.
  - set (hi := Z.min (len data) (lo + ex)).
    assert (Hlen : len (subslice data lo hi) = hi - lo)
      by (apply len_subslice; lia).
    eexists _, _, _. split; [reflexivity |].
    rewrite Hlen. repeat split; try lia.
    + destruct (Z.ltb_spec (hi - lo) ex); auto.
    + intros j Hj. apply byte_at_subslice; lia.
Qed.

Lemma readFromCache_miss c dst lo fr w :
  entries (b_cache (blb w)) !! genID fr c = None ->
  readFromCache c dst lo fr w = Done (Some (ErrMissingCache (genID fr c))) w.
Proof.
  intros Hmiss. unfold readFromCache, bind, gets, ret. simpl. now rewrite Hmiss.
Qed.

Lemma readFromCache_entry c dst lo fr w data :
  entries (b_cache (blb w)) !! genID fr c = Some data ->
  0 <= lo -> 0 <= sl_off dst -> 0 <= sl_len dst ->
  sl_off dst + sl_len dst <= len (buf w) ->
  exists buf' err,
    readFromCache c dst lo fr w = Done err (with_buf buf' w)
    /\ len buf' = len (buf w)
    /\ (forall t, ~ (sl_off dst <= t < sl_off dst + sl_len dst) ->
          byte_at buf' t = byte_at (buf w) t)
    /\ (err = None <-> (sl_len dst = 0 \/ lo + sl_len dst <= len data))
    /\ (err = None ->
        forall j, 0 <= j < sl_len dst ->
          byte_at buf' (sl_off dst + j) = byte_at data (lo + j)).
Proof.
  intros Hhit Hlo Hoff Hlen Hfit.
  destruct (cache_ReadAt_spec data (sl_len dst) lo Hlo Hlen)
    as (n & err & got & Hrun & Hgot & Herr & Hn & Hfull & Hbytes).
  unfold readFromCache, bind, gets, modify, ret. simpl. rewrite Hhit, Hrun.
  set (buf' := copy_into (buf w) (sl_off dst) (sl_len dst) got).
  assert (Hmin : Z.min (sl_len dst) (len got) = n) by lia.
  assert (Hlen' : len buf' = len (buf w)).
  { apply len_copy_into; lia. }
  assert (Hout : forall t, ~ (sl_off dst <= t < sl_off dst + sl_len dst) ->
                           byte_at buf' t = byte_at (buf w) t).
  { intros t Ht. unfold buf'. rewrite byte_at_copy_into by lia. rewrite Hmin.
    destruct (Z.leb_spec (sl_off dst) t); destruct (Z.ltb_spec t (sl_off dst + n));
      simpl; try reflexivity. lia. }
  assert (Hin : n = sl_len dst -> forall j, 0 <= j < sl_len dst ->
                  byte_at buf' (sl_off dst + j) = byte_at data (lo + j)).
  { intros Heq j Hj. unfold buf'. rewrite byte_at_copy_into by lia. rewrite Hmin.
    destruct (Z.leb_spec (sl_off dst) (sl_off dst + j)); [| lia].
    destruct (Z.ltb_spec (sl_off dst + j) (sl_off dst + n)); [| lia]. simpl.
    replace (sl_off dst + j - sl_off dst) with j by lia. apply Hbytes. lia. }
  destruct (Z.eqb_spec n (sl_len dst)) as [Heq | Hne].
  - exists buf', None. simpl.
    assert (Hres : (match err with
                    | Some EOF | None => ret None
                    | Some _ => ret err
                    end) (with_buf buf' w) = Done None (with_buf buf' w)).
    { destruct Herr as [-> | ->]; reflexivity. }
    split; [| repeat split; auto].
    + destruct Herr as [-> | ->]; reflexivity.
    + intros _. apply Hfull. assumption.
  - exists buf', (Some (ErrIncompleteRead n (sl_len dst))). simpl.
    split; [| repeat split; auto; try discriminate].
    + destruct Herr as [-> | ->]; reflexivity.
    + intros Hok. apply Hfull in Hok. contradiction.
Qed.

Lemma with_buf_same w : with_buf (buf w) w = w.
Proof. destruct w; reflexivity. Qed.

Lemma with_allData_same A w : A = allData w -> with_allData A w = w.
Proof. intros ->. destruct w; reflexivity. Qed.

Lemma slice_of_buf_ok lo hi w :
  0 <= lo -> lo <= hi -> hi <= len (buf w) ->
  slice_of_buf lo hi w = Done (Slice lo (hi - lo)) w.
Proof.
  intros H1 H2 H3. unfold slice_of_buf, bind, gets, ret. simpl.
  destruct (Z.leb_spec 0 lo); [| lia].
  destruct (Z.leb_spec lo hi); [| lia].
  destruct (Z.leb_spec hi (len (buf w))); [| lia].
  reflexivity.
Qed.

(** What [prepareChunksForRead] does with one chunk whose window lies in
    the buffer: a hit fills the window from the cache entry, a miss
    registers a fresh writer on it; nothing outside the window moves. *)
Lemma prepareChunk_run off fr c w L base lo ex :
  L = len (buf w) ->
  base = chunk_base off c ->
  lo = chunk_lowerUnread off c ->
  ex = chunk_expectedSize off L c ->
  0 <= base -> 0 <= ex -> base + ex <= L -> L <= Int64.max_int -> 0 <= lo ->
  exists buf' A',
    prepareChunk off fr c w = Done None (with_allData A' (with_buf buf' w))
    /\ len buf' = L
    /\ (forall t, ~ (base <= t < base + ex) -> byte_at buf' t = byte_at (buf w) t)
    /\ ((A' = allData w
         /\ exists data,
              entries (b_cache (blb w)) !! genID fr c = Some data
              /\ (ex = 0 \/ lo + ex <= len data)
              /\ forall j, 0 <= j < ex -> byte_at buf' (base + j) = byte_at data (lo + j))
        \/ A' = map_set c (newBytesWriter (Slice base ex) lo) (allData w)).
Proof.
  intros HLdef Hbdef Hldef Hedef Hbase Hex Hfit HL Hlo.
  assert (Hadd : Int64.add base ex = base + ex).
  { apply add_id. unfold Int64.min_int, Int64.max_int in *. lia. }
  unfold prepareChunk. unfold bind at 1. unfold gets at 1. cbv beta zeta.
  rewrite <- HLdef, <- Hbdef, <- Hldef, <- Hedef. clear Hbdef Hldef Hedef.
  rewrite Hadd.
  unfold bind at 1. rewrite slice_of_buf_ok by lia.
  replace (base + ex - base) with ex by lia.
  unfold bind at 1.
  destruct (entries (b_cache (blb w)) !! genID fr c) as [data |] eqn:Hget.
  - destruct (readFromCache_entry c (Slice base ex) lo fr w data Hget Hlo)
      as (buf' & err & Hrun & Hlen' & Hout & Hiff & Hin);
      cbn [sl_off sl_len]; try lia.
    cbn [sl_off sl_len] in *.
    rewrite Hrun. destruct err as [e |].
    + unfold bind at 1.
      rewrite (slice_of_buf_ok base (base + ex) (with_buf buf' w) Hbase ltac:(lia)
                 ltac:(cbn [buf with_buf]; lia)).
      replace (base + ex - base) with ex by lia.
      exists buf', (map_set c (newBytesWriter (Slice base ex) lo) (allData w)).
      split; [reflexivity |]. split; [lia |]. split; [exact Hout |].
      right. reflexivity.
    + exists buf', (allData w). split.
      { unfold ret. rewrite with_allData_same by reflexivity. reflexivity. }
      split; [lia |]. split; [exact Hout |].
      left. split; [reflexivity |]. exists data. split; [reflexivity |].
      split; [apply Hiff; reflexivity | apply Hin; reflexivity].
  - rewrite readFromCache_miss by assumption.
    unfold bind at 1. rewrite slice_of_buf_ok by lia.
    replace (base + ex - base) with ex by lia.
    exists (buf w), (map_set c (newBytesWriter (Slice base ex) lo) (allData w)).
    split.
    { unfold bind, modify, ret. rewrite with_buf_same. reflexivity. }
    split; [lia |]. split; [reflexivity |]. right. reflexivity.
Qed.

Lemma keeps_bind {A B C : Type} (proj : world -> C) (m : M A) (k : A -> M B) :
  keeps proj m -> (forall a, keeps proj (k a)) -> keeps proj (bind m k).
Proof.
  intros Hm Hk w b w2 H. apply bind_inv in H as (a & w1 & H1 & H2).
  rewrite (Hk _ _ _ _ H2). exact (Hm _ _ _ H1).
Qed.

Lemma keeps_ret {A C : Type} (proj : world -> C) (a : A) : keeps proj (ret a).
Proof. intros w a' w' H. inversion H; reflexivity. Qed.

Lemma keeps_gets {A C : Type} (proj : world -> C) (f : world -> A) : keeps proj (gets f).
Proof. intros w a' w' H. inversion H; reflexivity. Qed.

Lemma keeps_crash {A C : Type} (proj : world -> C) (q : panic) : keeps proj (@crash A q).
Proof. intros w a' w' H. inversion H. Qed.

Lemma keeps_out_of_fuel {A C : Type} (proj : world -> C) : keeps proj (@out_of_fuel A).
Proof. intros w a' w' H. inversion H. Qed.

Lemma keeps_modify {C : Type} (proj : world -> C) (f : world -> world) :
  (forall w, proj (f w) = proj w) -> keeps proj (modify f).
Proof. intros Hf w a' w' H. inversion H; subst. apply Hf. Qed.

Ltac keeps_step :=
  match goal with
  | |- keeps _ (bind _ _) => apply keeps_bind; [| intros ?]
  | |- keeps _ (ret _) => apply keeps_ret
  | |- keeps _ (gets _) => apply keeps_gets
  | |- keeps _ (crash _) => apply keeps_crash
  | |- keeps _ out_of_fuel => apply keeps_out_of_fuel
  | |- keeps _ (modify _) => apply keeps_modify; intros ?; reflexivity
  | |- keeps _ (if ?b then _ else _) => destruct b
  | |- keeps _ (match ?o with Some _ => _ | None => _ end) => destruct o
  | |- keeps _ (match ?o with Discard => _ | BytesWriter _ => _ end) => destruct o
  | |- keeps _ (match ?e with EOF => _ | _ => _ end) => destruct e
  end.

Lemma slice_of_buf_keeps_blb lo hi : keeps blb (slice_of_buf lo hi).
Proof. unfold slice_of_buf. repeat keeps_step. Qed.

Lemma readFromCache_keeps_blb c dst lo fr : keeps blb (readFromCache c dst lo fr).
Proof.
  unfold readFromCache. repeat keeps_step.
  destruct (cache_ReadAt _ _ _) as [[n err] got]. repeat keeps_step.
Qed.

Lemma prepareChunk_keeps_blb off fr c : keeps blb (prepareChunk off fr c).
Proof.
  unfold prepareChunk.
  repeat (keeps_step || apply slice_of_buf_keeps_blb || apply readFromCache_keeps_blb).
Qed.

(** The fetch path does not touch the record of single-flight outcomes. *)
Lemma write_to_keeps_flights c q : keeps flights (write_to c q).
Proof. unfold write_to, bytesWriter_Write. repeat keeps_step. Qed.

Lemma copy_blocks_keeps_flights write rerr :
  (forall q, keeps flights (write q)) ->
  forall blocks n, keeps flights (copy_blocks write n blocks rerr).
Proof.
  intros Hw. induction blocks as [| q rest IH]; intros n; simpl.
  - repeat keeps_step.
  - repeat (keeps_step || apply Hw || apply IH).
Qed.

Lemma cacheChunkData_keeps_flights c fr : keeps flights (cacheChunkData c fr).
Proof.
  unfold cacheChunkData, io_CopyN. cbv zeta.
  keeps_step; [keeps_step |]. keeps_step; [keeps_step |].
  keeps_step; [keeps_step |]. keeps_step; [keeps_step |].
  match goal with
  | |- context [map_get c ?f] => destruct (map_get c f)
  end;
    repeat (keeps_step
            || (apply copy_blocks_keeps_flights; intros ?)
            || apply write_to_keeps_flights).
Qed.

Lemma walk_loop_keeps_flights fn :
  (forall c, keeps flights (fn c)) ->
  forall fuel e i, keeps flights (walk_loop fuel fn e i).
Proof.
  intros Hfn. induction fuel as [| fuel IH]; intros e i; simpl.
  - apply keeps_out_of_fuel.
  - repeat (keeps_step || apply Hfn || apply IH).
Qed.

Lemma walkChunks_keeps_flights fn fuel r :
  (forall c, keeps flights (fn c)) -> keeps flights (walkChunks fuel r fn).
Proof.
  intros Hfn. unfold walkChunks.
  repeat (keeps_step || apply walk_loop_keeps_flights || apply Hfn).
Qed.

Lemma next_parts_keeps_flights fuel fr final :
  forall parts, keeps flights (next_parts fuel fr parts final).
Proof.
  induction parts as [| pt rest IH]; simpl.
  - repeat keeps_step.
  - repeat (keeps_step || apply IH
            || (apply walkChunks_keeps_flights; intros ?)
            || apply cacheChunkData_keeps_flights).
Qed.

Lemma prepareChunk_keeps_geometry off fr : keeps_geometry (prepareChunk off fr).
Proof.
  intros reg w a w' H. apply prepareChunk_keeps_blb in H. now rewrite H.
Qed.


(** ** The destination-offset writer *)

Lemma map_get_set_eq {V : Type} (k : region) (v : V) m :
  map_get k (map_set k v m) = Some v.
Proof.
  induction m as [| [k' v'] m IH]; simpl.
  - destruct (decide (k = k)); [reflexivity | contradiction].
  - destruct (decide (k = k')) as [-> | Hne]; simpl.
    + destruct (decide (k' = k')); [reflexivity | contradiction].
    + destruct (decide (k = k')); [contradiction | exact IH].
Qed.

Lemma map_get_set_ne {V : Type} (k k' : region) (v : V) m :
  k <> k' -> map_get k' (map_set k v m) = map_get k' m.
Proof.
  intros Hne. induction m as [| [k0 v0] m IH]; simpl.
  - destruct (decide (k' = k)); [congruence | reflexivity].
  - destruct (decide (k = k0)) as [-> | Hne0]; simpl.
    + destruct (decide (k' = k0)); [congruence | reflexivity].
    + destruct (decide (k' = k0)); [reflexivity | exact IH].
Qed.

(** One [Write] of block [q] with the cursor at [cur]: the bytes of [q]
    whose stream positions [cur + k] fall in [lo, lo + ex) land at the
    matching indices of the window, nothing else moves, and the cursor
    advances by [len q]. *)
Lemma bytesWriter_Write_run sb ex lo cur q w :
  0 <= sb -> 0 <= ex -> sb + ex <= len (buf w) ->
  0 <= lo -> 0 <= cur ->
  lo + ex <= Int64.max_int -> cur + len q <= Int64.max_int ->
  exists buf',
    bytesWriter_Write (BytesWriterOf (Slice sb ex) lo cur) q w
      = Done (BytesWriterOf (Slice sb ex) lo (cur + len q)) (with_buf buf' w)
    /\ len buf' = len (buf w)
    /\ forall t,
         byte_at buf' t =
           if (sb + Z.max cur lo - lo <=? t) && (t <? sb + Z.min (cur + len q) (lo + ex) - lo)
           then byte_at q (t - sb + lo - cur)
           else byte_at (buf w) t.
Proof.
  intros Hsb Hex Hfit Hlo Hcur Hmax1 Hmax2.
  pose proof (len_nonneg q) as Hq.
  unfold Int64.max_int in *.
  unfold bytesWriter_Write. cbn [dest destOff current sl_off sl_len].
  rewrite (add_id cur) by (unfold Int64.min_int, Int64.max_int; lia).
  rewrite (add_id lo) by (unfold Int64.min_int, Int64.max_int; lia).
  rewrite !sub_id by (unfold Int64.min_int, Int64.max_int; lia).
  rewrite !positive_max.
  assert (Hsame : forall t,
            (sb + Z.max cur lo - lo <=? t) && (t <? sb + Z.min (cur + len q) (lo + ex) - lo)
            = false ->
            byte_at (buf w) t =
              if (sb + Z.max cur lo - lo <=? t)
                 && (t <? sb + Z.min (cur + len q) (lo + ex) - lo)
              then byte_at q (t - sb + lo - cur) else byte_at (buf w) t).
  { intros t ->. reflexivity. }
  destruct (Z.ltb_spec ex (Z.max 0 (cur - lo))) as [Hpast | Hin].
  { exists (buf w). rewrite with_buf_same. split; [reflexivity |]. split; [reflexivity |].
    intros t. apply Hsame. apply andb_false_iff.
    destruct (Z.leb_spec (sb + Z.max cur lo - lo) t); [right; apply Z.ltb_ge; lia | now left]. }
  destruct (Z.leb_spec (len q) (Z.max 0 (lo - cur))) as [Hbefore | Hover].
  { exists (buf w). rewrite with_buf_same. split; [reflexivity |]. split; [reflexivity |].
    intros t. apply Hsame. apply andb_false_iff.
    destruct (Z.leb_spec (sb + Z.max cur lo - lo) t); [right; apply Z.ltb_ge; lia | now left]. }
  set (pBegin := Z.max 0 (lo - cur)) in *.
  set (pEnd := if len q <? Z.max 0 (lo + ex - cur) then len q else Z.max 0 (lo + ex - cur)).
  assert (HpEnd : pEnd = Z.min (len q) (Z.max 0 (lo + ex - cur))).
  { unfold pEnd. destruct (Z.ltb_spec (len q) (Z.max 0 (lo + ex - cur))); lia. }
  destruct (Z.ltb_spec pEnd pBegin) as [Hbad | Hgood]; [lia |].
  set (src := subslice q pBegin pEnd).
  assert (Hsrc : len src = pEnd - pBegin) by (apply len_subslice; lia).
  set (pos := sb + Z.max 0 (cur - lo)).
  set (room := ex - Z.max 0 (cur - lo)).
  exists (copy_into (buf w) pos room src).
  split; [reflexivity |].
  split; [apply len_copy_into; lia |].
  intros t. rewrite byte_at_copy_into by lia. rewrite Hsrc.
  replace (sb + Z.max cur lo - lo) with pos by lia.
  replace (sb + Z.min (cur + len q) (lo + ex) - lo)
    with (pos + Z.min room (pEnd - pBegin)) by lia.
  destruct ((pos <=? t) && (t <? pos + Z.min room (pEnd - pBegin))) eqn:Hc;
    [| reflexivity].
  apply andb_true_iff in Hc as [H1 H2]. apply Z.leb_le in H1. apply Z.ltb_lt in H2.
  unfold src. rewrite byte_at_subslice by lia. f_equal. lia.
Qed.

Lemma write_to_bytes c sb ex lo cur q w :
  map_get c (allData w) = Some (BytesWriter (BytesWriterOf (Slice sb ex) lo cur)) ->
  0 <= sb -> 0 <= ex -> sb + ex <= len (buf w) ->
  0 <= lo -> 0 <= cur ->
  lo + ex <= Int64.max_int -> cur + len q <= Int64.max_int ->
  exists buf',
    write_to c q w
      = Done None
          (with_allData
             (map_set c (BytesWriter (BytesWriterOf (Slice sb ex) lo (cur + len q)))
                      (allData w))
             (with_buf buf' w))
    /\ len buf' = len (buf w)
    /\ forall t,
         byte_at buf' t =
           if (sb + Z.max cur lo - lo <=? t) && (t <? sb + Z.min (cur + len q) (lo + ex) - lo)
           then byte_at q (t - sb + lo - cur)
           else byte_at (buf w) t.
Proof.
  intros Hget Hsb Hex Hfit Hlo Hcur Hmax1 Hmax2.
  destruct (bytesWriter_Write_run sb ex lo cur q w Hsb Hex Hfit Hlo Hcur Hmax1 Hmax2)
    as (buf' & Hrun & Hlen & Hbytes).
  exists buf'. split; [| split; assumption].
  unfold write_to, bind, gets. rewrite Hget. unfold bind. rewrite Hrun.
  reflexivity.
Qed.


(** ** The read path: invariants *)

Lemma multiples_apart a b u :
  0 < u -> Z.rem a u = 0 -> Z.rem b u = 0 -> a < b -> a + u <= b.
Proof.
  intros Hu Ha Hb Hlt.
  pose proof (Z.quot_rem' a u) as Hqa. pose proof (Z.quot_rem' b u) as Hqb.
  rewrite Ha in Hqa. rewrite Hb in Hqb.
  assert (Hq : Z.quot a u < Z.quot b u) by nia.
  nia.
Qed.

(** More budget never changes what a walk that returned has done. *)
Lemma walk_loop_mono fn :
  forall fuel fuel' e i w a w',
    (fuel <= fuel')%nat ->
    walk_loop fuel fn e i w = Done a w' ->
    walk_loop fuel' fn e i w = Done a w'.
Proof.
  induction fuel as [| fuel IH]; intros fuel' e i w a w' Hle Hrun; [discriminate |].
  destruct fuel' as [| fuel']; [lia |].
  simpl in *. unfold bind at 1 2 in Hrun. unfold gets at 1 2 in Hrun.
  unfold bind at 1 2. unfold gets at 1 2.
  destruct ((i <=? e) && (i <? b_size (blb w))); [| exact Hrun].
  unfold bind in *.
  match goal with
  | |- context [fn ?r w] => destruct (fn r w) as [[err |] w1 | |]
  end; try exact Hrun.
  apply IH; [lia | exact Hrun].
Qed.

Lemma walkChunks_done fuel r fn w a w' :
  keeps_geometry fn ->
  0 < b_chunkSize (blb w) ->
  Int64.in_range (reg_b r) -> Int64.in_range (b_size (blb w)) ->
  Z.rem (reg_b r) (b_chunkSize (blb w)) = 0 ->
  reg_b r + Z.of_nat (chunk_count r (b_chunkSize (blb w)) (b_size (blb w)))
            * b_chunkSize (blb w) <= Int64.max_int ->
  walkChunks fuel r fn w = Done a w' ->
  for_each fn (spec_chunks r (b_chunkSize (blb w)) (b_size (blb w))) w = Done a w'.
Proof.
  intros Hfn Hc Hb Hs Hrem Hmax Hrun.
  rewrite walkChunks_aligned in Hrun by (assumption || lia).
  rewrite <- (walkChunks_for_each
                (fuel + S (chunk_count r (b_chunkSize (blb w)) (b_size (blb w))))
                r fn w) by (assumption || lia).
  rewrite walkChunks_aligned by (assumption || lia).
  eapply walk_loop_mono; [| exact Hrun]. lia.
Qed.


Section ReadPath.

Variable contents : Z -> byte.
Variables off L cs size : Z.
Variable fr : fetcher.
Hypothesis Hcs : 0 < cs.
Hypothesis Hoff : 0 <= off <= size.
Hypothesis HL : 0 < L.
Hypothesis Hgrid : size + cs <= Int64.max_int.
Hypothesis Hceil : (Z.quot (off + L - 1) cs + 1) * cs <= Int64.max_int.

Local Abbreviation rel := (relevant off L cs size).
Local Abbreviation sb := (chunk_base off).
Local Abbreviation lo := (chunk_lowerUnread off).
Local Abbreviation ex := (chunk_expectedSize off L).
Local Abbreviation Inv := (FInv contents off L cs size fr).
Local Abbreviation strm := (streaming contents off L cs size fr).
Local Abbreviation settled := (Settled contents off L cs size fr).

Ltac zl := try clear Hceil; lia.

Lemma size_fits : size <= Int64.max_int.
Proof. lia. Qed.

Lemma relevant_geometry c :
  rel c ->
  0 <= sb c /\ 0 <= ex c /\ sb c + ex c <= L /\ 0 <= lo c
  /\ sb c - lo c = reg_b c - off
  /\ lo c + ex c <= reg_e c - reg_b c + 1
  /\ 1 <= reg_e c - reg_b c + 1 <= cs
  /\ region_size c = reg_e c - reg_b c + 1
  /\ (forall x, reg_b c <= x <= reg_e c -> off <= x < off + L ->
        lo c <= x - reg_b c < lo c + ex c)
  /\ (forall s, lo c <= s < lo c + ex c ->
        off <= reg_b c + s < off + L /\ reg_b c + s <= reg_e c).
Proof.
  intros Hrel.
  destruct (relevant_window off L cs size Hcs Hoff HL size_fits Hceil c Hrel)
    as (Hb & Hl & Hrs & He & Hbe & He0).
  destruct Hrel as (Hrem & Hb0 & HbL & Hbs & Hee & Hbo).
  clear Hceil. rewrite Hb, Hl, He, Hrs.
  repeat split; try lia.
Qed.

Lemma relevant_grid c : rel c -> grid_chunk cs size c.
Proof. intros (Hrem & Hb0 & HbL & Hbs & Hee & Hbo). repeat split; assumption. Qed.

Lemma grid_chunk_unique c c' :
  grid_chunk cs size c -> grid_chunk cs size c' ->
  reg_b c <= reg_b c' < reg_b c + cs -> c = c'.
Proof.
  intros (Hr & Hb & He) (Hr' & Hb' & He') Hin.
  assert (Hbb : reg_b c = reg_b c').
  { destruct (Z.eq_dec (reg_b c) (reg_b c')) as [| Hne]; [assumption |].
    pose proof (multiples_apart (reg_b c) (reg_b c') cs Hcs Hr Hr' ltac:(lia)). lia. }
  destruct c as [b e], c' as [b' e']. simpl in *. subst b'. f_equal. lia.
Qed.

Lemma relevant_unique c c' x :
  rel c -> rel c' ->
  reg_b c <= x <= reg_e c -> reg_b c' <= x <= reg_e c' -> c = c'.
Proof.
  intros Hc Hc' Hx Hx'.
  pose proof (relevant_grid c Hc) as Hg. pose proof (relevant_grid c' Hc') as Hg'.
  assert (He : reg_e c <= reg_b c + cs - 1) by (destruct Hg as (_ & _ & ->); lia).
  assert (He' : reg_e c' <= reg_b c' + cs - 1) by (destruct Hg' as (_ & _ & ->); lia).
  destruct (Z.le_ge_cases (reg_b c) (reg_b c')).
  - apply grid_chunk_unique; [assumption .. |]. lia.
  - symmetry. apply grid_chunk_unique; [assumption .. |]. lia.
Qed.

(** The invariant does not look at what lies outside the buffer, the
    writers and the geometry. *)
Lemma Inv_frame bud act w w' :
  buf w' = buf w -> allData w' = allData w ->
  b_size (blb w') = b_size (blb w) ->
  b_chunkSize (blb w') = b_chunkSize (blb w) ->
  b_fetcher (blb w') = b_fetcher (blb w) ->
  Inv bud act w -> Inv bud act w'.
Proof.
  intros Hb Ha Hs Hc Hf H.
  unfold FInv, good in *. rewrite Hb, Ha, Hs, Hc, Hf. exact H.
Qed.

Lemma Inv_writers bud bud' act act' w :
  (forall c wr, map_get c (allData w) = Some wr ->
     writer_ok off L cs size bud act c wr -> writer_ok off L cs size bud' act' c wr) ->
  Inv bud act w -> Inv bud' act' w.
Proof.
  intros Hw (H1 & H2 & H3 & H4 & H5 & H6 & H7).
  unfold FInv.
  refine (conj H1 (conj H2 (conj H3 (conj H4 (conj H5 (conj _ H7)))))).
  intros c wr Hget. apply Hw; [assumption |]. apply H6. assumption.
Qed.

Lemma Inv_weaken bud bud' act w :
  (forall c, rel c -> bud' c <= bud c) ->
  Inv bud act w -> Inv bud' act w.
Proof.
  intros Hle. apply Inv_writers.
  intros c wr _ (Hrel & cur & Hwr & Hcur & Hbud & Hst).
  split; [exact Hrel |]. exists cur.
  refine (conj Hwr (conj Hcur (conj _ Hst))).
  specialize (Hle c Hrel). nia.
Qed.

(** Opening a stream on chunk [c], and closing it once the whole chunk
    went through. *)
Lemma Inv_open bud c w : Inv bud None w -> Inv bud (Some (c, 0)) w.
Proof.
  apply Inv_writers.
  intros c0 wr _ (Hrel & cur & Hwr & Hcur & Hbud & Hst).
  split; [exact Hrel |]. exists cur. simpl in *.
  destruct (decide (c = c0)); refine (conj Hwr (conj Hcur (conj _ Hst))); lia.
Qed.

Lemma Inv_close bud c w :
  Inv bud (Some (c, reg_e c - reg_b c + 1)) w ->
  Inv (fun c' => if decide (c' = c) then bud c - 1 else bud c') None w.
Proof.
  apply Inv_writers.
  intros c0 wr _ (Hrel & cur & Hwr & Hcur & Hbud & Hst).
  split; [exact Hrel |]. exists cur. simpl in *.
  destruct (relevant_geometry c0 Hrel) as (_ & _ & _ & _ & _ & Hle & Hsz & _).
  destruct (decide (c = c0)) as [-> | Hne].
  - destruct (decide (c0 = c0)); [| contradiction].
    refine (conj Hwr (conj Hcur (conj _ _))); [nia | lia].
  - destruct (decide (c0 = c)); [congruence |].
    refine (conj Hwr (conj Hcur (conj _ _))); lia.
Qed.

Lemma map_set_keys_present {V : Type} (k : region) (v : V) m :
  is_Some (map_get k m) -> map fst (map_set k v m) = map fst m.
Proof.
  induction m as [| [k' v'] m IH]; simpl; intros [x Hx]; [discriminate |].
  destruct (decide (k = k')) as [-> | Hne]; simpl; [reflexivity |].
  f_equal. apply IH. eauto.
Qed.

Lemma map_set_keys_absent {V : Type} (k : region) (v : V) m :
  map_get k m = None -> map fst (map_set k v m) = map fst m ++ [k].
Proof.
  induction m as [| [k' v'] m IH]; simpl; intros Hx; [reflexivity |].
  destruct (decide (k = k')) as [-> | Hne]; simpl; [discriminate |].
  f_equal. apply IH. assumption.
Qed.

Lemma map_get_keys {V : Type} (k : region) (m : list (region * V)) :
  is_Some (map_get k m) <-> In k (map fst m).
Proof.
  induction m as [| [k' v'] m IH]; simpl.
  - split; [intros [x Hx]; discriminate | contradiction].
  - destruct (decide (k = k')) as [-> | Hne].
    + split; [auto | eauto].
    + rewrite IH. split; [auto | intros [Heq | Hin]; [congruence | assumption]].
Qed.

(** One block written to the writer of the chunk being streamed. *)
Lemma stream_write bud c t q w err w' :
  Inv bud (Some (c, t)) w ->
  1 <= bud c -> 0 <= t -> 0 < len q ->
  t + len q <= reg_e c - reg_b c + 1 ->
  serves_from contents (reg_b c + t) q ->
  write_to c q w = Done err w' ->
  err = None
  /\ Inv bud (Some (c, t + len q)) w'
  /\ exists A B,
       w' = with_allData A (with_buf B w)
       /\ map fst A = map fst (allData w)
       /\ (forall c', c' <> c -> map_get c' A = map_get c' (allData w))
       /\ (forall bw, map_get c A = Some (BytesWriter bw) -> 0 < current bw).
Proof.
  intros HInv Hbud Ht Hq Hfit Hserve Hrun.
  destruct HInv as (H1 & H2 & H3 & H4 & H5 & H6 & H7).
  destruct (map_get c (allData w)) as [wr |] eqn:Hget.
  2:{ unfold write_to, bind, gets, crash in Hrun. rewrite Hget in Hrun. discriminate. }
  destruct (H6 c wr Hget) as (Hrel & cur & Hwr & Hcur & Hb & Hst).
  destruct (relevant_geometry c Hrel)
    as (Hsb & Hex & Hwin & Hlo & Hdiff & Hle & Hsz & _ & Hcov & _).
  simpl in Hb, Hst. destruct (decide (c = c)) as [_ | Hne]; [| contradiction].
  subst wr.
  assert (Hmax1 : lo c + ex c <= Int64.max_int) by (clear Hceil; lia).
  assert (Hmax2 : cur + len q <= Int64.max_int) by (clear Hceil; nia).
  destruct (write_to_bytes c (sb c) (ex c) (lo c) cur q w Hget Hsb Hex
              ltac:(clear Hceil; lia) Hlo Hcur Hmax1 Hmax2)
    as (buf' & Hrun' & Hlen' & Hbytes).
  rewrite Hrun' in Hrun. inversion Hrun; subst err w'. clear Hrun.
  set (bw' := BytesWriterOf (Slice (sb c) (ex c)) (lo c) (cur + len q)).
  set (A := map_set c (BytesWriter bw') (allData w)).
  assert (Hkeys : map fst A = map fst (allData w)).
  { apply map_set_keys_present. rewrite Hget. eauto. }
  (* every byte that moves is a byte of the blob *)
  assert (Hmoved : forall x,
    byte_at buf' (x - off) =
      if (sb c + Z.max cur (lo c) - lo c <=? x - off)
         && (x - off <? sb c + Z.min (cur + len q) (lo c + ex c) - lo c)
      then contents x else byte_at (buf w) (x - off)).
  { intros x. rewrite Hbytes.
    destruct ((sb c + Z.max cur (lo c) - lo c <=? x - off)
              && (x - off <? sb c + Z.min (cur + len q) (lo c + ex c) - lo c)) eqn:Hc;
      [| reflexivity].
    apply andb_true_iff in Hc as [Hc1 Hc2]. apply Z.leb_le in Hc1. apply Z.ltb_lt in Hc2.
    destruct Hst as [Hdone | Hal]; [clear Hceil; lia |].
    rewrite Hserve by (clear Hceil; lia). f_equal. clear Hceil. lia. }
  split; [reflexivity |]. split.
  - unfold FInv. cbn [buf allData blb with_allData with_buf].
    refine (conj _ (conj H2 (conj H3 (conj H4 (conj _ (conj _ _)))))).
    + clear Hceil. lia.
    + fold A. rewrite Hkeys. exact H5.
    + intros c' wr' Hget'. fold A in Hget'. unfold A in Hget'.
      destruct (decide (c = c')) as [<- | Hne].
      * rewrite map_get_set_eq in Hget'. inversion Hget'; subst wr'.
        split; [exact Hrel |]. exists (cur + len q). simpl.
        destruct (decide (c = c)); [| contradiction].
        refine (conj eq_refl (conj _ (conj _ _))); clear Hceil; lia.
      * rewrite map_get_set_ne in Hget' by assumption.
        destruct (H6 c' wr' Hget') as (Hrel' & cur' & Hwr' & Hcur' & Hb' & Hst').
        split; [exact Hrel' |]. exists cur'. simpl in *.
        destruct (decide (c = c')); [contradiction |].
        refine (conj Hwr' (conj Hcur' (conj Hb' Hst'))).
    + intros x Hx1 Hx2 Hx3. unfold good. cbn [buf with_allData with_buf].
      rewrite Hmoved.
      destruct ((sb c + Z.max cur (lo c) - lo c <=? x - off)
                && (x - off <? sb c + Z.min (cur + len q) (lo c + ex c) - lo c)) eqn:Hc;
        [left; reflexivity |].
      destruct (H7 x Hx1 Hx2 Hx3) as [Hgood | (c' & bw0 & Hget' & Hin' & Hpend)];
        [left; exact Hgood |].
      right. destruct (decide (c = c')) as [<- | Hne].
      * rewrite Hget in Hget'. inversion Hget'; subst bw0. simpl in Hpend.
        exists c, bw'. fold A. unfold A. rewrite map_get_set_eq.
        split; [reflexivity |]. split; [exact Hin' |]. simpl.
        specialize (Hcov x Hin' ltac:(clear Hceil; lia)).
        apply andb_false_iff in Hc.
        destruct Hst as [Hdone | Hal]; [clear Hceil; lia |].
        destruct Hc as [Hc | Hc]; [apply Z.leb_gt in Hc | apply Z.ltb_ge in Hc];
          clear Hceil; lia.
      * exists c', bw0. fold A. unfold A. rewrite map_get_set_ne by assumption.
        split; [exact Hget' |]. split; assumption.
  - exists A, buf'. split; [reflexivity |]. split; [exact Hkeys |]. split.
    + intros c' Hne. unfold A. apply map_get_set_ne. congruence.
    + intros bw Hbw. unfold A in Hbw. rewrite map_get_set_eq in Hbw.
      inversion Hbw; subst bw. simpl. clear Hceil. lia.
Qed.

Lemma serves_from_app x l1 l2 :
  serves_from contents x (l1 ++ l2) ->
  serves_from contents x l1 /\ serves_from contents (x + len l1) l2.
Proof.
  intros H. clear Hceil. pose proof (len_nonneg l1). pose proof (len_nonneg l2). split.
  - intros j Hj. rewrite <- (byte_at_app_l l1 l2) by lia. apply H. rewrite len_app. lia.
  - intros j Hj. specialize (H (len l1 + j)). rewrite len_app in H.
    rewrite byte_at_app_r in H by lia.
    replace (len l1 + j - len l1) with j in H by lia.
    rewrite H by lia. f_equal. lia.
Qed.

Lemma firstn_skipn_len (q : list byte) n :
  0 <= n <= len q ->
  len (firstn (Z.to_nat n) q) = n /\ firstn (Z.to_nat n) q ++ skipn (Z.to_nat n) q = q.
Proof.
  intros H. split; [apply len_firstn; exact H | apply firstn_skipn].
Qed.

Lemma len_zero_nil (q : list byte) : len q = 0 -> q = [].
Proof. destruct q; [reflexivity | unfold len; simpl; lia]. Qed.

(** [io.CopyN] over a truthful stream, for any writer that keeps an
    invariant [S] indexed by the number of bytes written so far. *)
Lemma copy_blocks_stream (S : Z -> world -> Prop) (write : list byte -> M (option error))
    (x0 N : Z) rerr :
  (forall t r w, S t w -> S t (with_reader r w)) ->
  (forall q t w err w',
     S t w -> 0 <= t -> 0 < len q -> t + len q <= N ->
     serves_from contents (x0 + t) q ->
     write q w = Done err w' ->
     err = None /\ S (t + len q) w' /\ reader w' = reader w) ->
  forall blocks n t w err w',
    S t w -> 0 <= t -> t + n <= N ->
    serves_from contents (x0 + t) (concat blocks) ->
    copy_blocks write n blocks rerr w = Done err w' ->
    (err = None ->
       S (t + Z.max 0 n) w'
       /\ exists blocks',
            reader w' = Reader blocks' rerr
            /\ serves_from contents (x0 + t + Z.max 0 n) (concat blocks'))
    /\ (err <> None -> len (concat blocks) < n).
Proof.
  intros Hrd Hwrite. clear Hceil.
  induction blocks as [| q rest IH]; intros n t w err w' HS Ht HN Hserve Hrun.
  - simpl in Hrun. destruct (Z.leb_spec n 0) as [Hn | Hn].
    + unfold bind, modify, ret in Hrun. inversion Hrun; subst. split; [| congruence].
      intros _. replace (t + Z.max 0 n) with t by lia. split; [apply Hrd; exact HS |].
      exists []. split; [reflexivity |]. intros j Hj. simpl in Hj. unfold len in Hj.
      simpl in Hj. lia.
    + unfold bind, modify, ret in Hrun. inversion Hrun; subst. split; [discriminate |].
      intros _. simpl. unfold len. simpl. lia.
  - simpl in Hrun. simpl concat in *.
    apply serves_from_app in Hserve as [Hq Hrest].
    pose proof (len_nonneg q) as Hlq.
    destruct (Z.leb_spec n 0) as [Hn | Hn].
    + unfold bind, modify, ret in Hrun. inversion Hrun; subst. split; [| congruence].
      intros _. replace (t + Z.max 0 n) with t by lia. split; [apply Hrd; exact HS |].
      exists (q :: rest). split; [reflexivity |]. simpl concat.
      replace (x0 + t) with (x0 + t + 0) in Hq by lia.
      intros j Hj. rewrite len_app in Hj.
      destruct (Z.lt_ge_cases j (len q)).
      * rewrite byte_at_app_l by lia. rewrite Hq by lia. f_equal. lia.
      * rewrite byte_at_app_r by lia. rewrite Hrest by lia. f_equal. lia.
    + destruct (Z.eqb_spec (len q) 0) as [Hz | Hnz].
      * apply len_zero_nil in Hz. subst q. simpl app.
        replace (x0 + t + len (@nil byte)) with (x0 + t) in Hrest
          by (unfold len; simpl; lia).
        exact (IH n t w err w' HS Ht HN Hrest Hrun).
      * destruct (Z.ltb_spec n (len q)) as [Hcut | Hwhole].
        -- destruct (firstn_skipn_len q n ltac:(lia)) as [Hfl Hfs].
           unfold bind at 1 in Hrun. unfold modify at 1 in Hrun.
           set (w1 := with_reader (Reader (skipn (Z.to_nat n) q :: rest) rerr) w) in *.
           rewrite <- Hfs in Hq. apply serves_from_app in Hq as [Hq1 Hq2].
           rewrite Hfl in Hq2.
           destruct (Hwrite (firstn (Z.to_nat n) q) t w1 err w' (Hrd _ _ _ HS) Ht
                       ltac:(lia) ltac:(lia) Hq1 Hrun)
             as (-> & HS' & Hreader).
           rewrite Hfl in HS'.
           split; [| congruence]. intros _.
           replace (t + Z.max 0 n) with (t + n) by lia. split; [exact HS' |].
           exists (skipn (Z.to_nat n) q :: rest). split; [rewrite Hreader; reflexivity |].
           simpl concat. intros j Hj. rewrite len_app in Hj.
           assert (Hls : len (skipn (Z.to_nat n) q) = len q - n) by (apply len_skipn; lia).
           destruct (Z.lt_ge_cases j (len (skipn (Z.to_nat n) q))).
           ++ rewrite byte_at_app_l by lia. rewrite Hq2 by lia. f_equal. lia.
           ++ rewrite byte_at_app_r by lia. rewrite Hrest by lia. f_equal. lia.
        -- apply bind_inv in Hrun as (e1 & w1 & Hw1 & Hrun).
           destruct (Hwrite q t w e1 w1 HS Ht ltac:(lia) ltac:(lia) Hq Hw1)
             as (-> & HS1 & Hreader1).
           replace (x0 + t + len q) with (x0 + (t + len q)) in Hrest by lia.
           destruct (IH (n - len q) (t + len q) w1 err w' HS1 ltac:(lia) ltac:(lia)
                        Hrest Hrun) as [Hok Hbad].
           split.
           ++ intros He. destruct (Hok He) as (HS' & blocks' & Hr' & Hs').
              replace (t + Z.max 0 n) with (t + len q + Z.max 0 (n - len q)) by lia.
              split; [exact HS' |]. exists blocks'. split; [exact Hr' |].
              replace (x0 + t + Z.max 0 n)
                with (x0 + (t + len q) + Z.max 0 (n - len q)) by lia.
              exact Hs'.
           ++ intros He. specialize (Hbad He). rewrite len_app. lia.
Qed.

Lemma Inv_act_absent bud c t t' w :
  map_get c (allData w) = None ->
  Inv bud (Some (c, t)) w -> Inv bud (Some (c, t')) w.
Proof.
  intros Habs. apply Inv_writers.
  intros c0 wr Hget (Hrel & cur & Hwr & Hcur & Hbud & Hst).
  split; [exact Hrel |]. exists cur. simpl in *.
  destruct (decide (c = c0)) as [-> | Hne]; [congruence |].
  refine (conj Hwr (conj Hcur (conj Hbud Hst))).
Qed.

Lemma streaming_reader bud c w0 t r w :
  strm bud c w0 t w -> strm bud c w0 t (with_reader r w).
Proof.
  intros (H1 & H2 & H3 & H4 & H5 & H6).
  refine (conj _ (conj H2 (conj H3 (conj H4 (conj H5 H6))))).
  eapply Inv_frame; [.. | exact H1]; reflexivity.
Qed.

Lemma streaming_cw bud c w0 t v w :
  strm bud c w0 t w -> strm bud c w0 t (with_cw v w).
Proof.
  intros (H1 & H2 & H3 & H4 & H5 & H6).
  refine (conj _ (conj H2 (conj H3 (conj H4 (conj H5 H6))))).
  eapply Inv_frame; [.. | exact H1]; reflexivity.
Qed.

(** A block sent to the writer registered for [c]. *)
Lemma streaming_write bud c w0 q t w err w' :
  1 <= bud c ->
  strm bud c w0 t w -> 0 <= t -> 0 < len q ->
  t + len q <= reg_e c - reg_b c + 1 ->
  serves_from contents (reg_b c + t) q ->
  write_to c q w = Done err w' ->
  err = None /\ strm bud c w0 (t + len q) w' /\ reader w' = reader w.
Proof.
  intros Hbud (H1 & H2 & H3 & H4 & H5 & H6) Ht Hq Hfit Hserve Hrun.
  destruct (stream_write bud c t q w err w' H1 Hbud Ht Hq Hfit Hserve Hrun)
    as (-> & HInv & A & B & -> & Hkeys & Hothers & Hpos).
  split; [reflexivity |]. split; [| reflexivity].
  refine (conj HInv (conj H2 (conj H3 (conj _ (conj _ _))))).
  - cbn [allData with_allData]. congruence.
  - intros c' Hne. cbn [allData with_allData]. rewrite Hothers by assumption.
    apply H5. assumption.
  - intros _ bw Hbw. cbn [allData with_allData] in Hbw. apply Hpos. exact Hbw.
Qed.

(** A block that only goes to the cache writer: chunk [c] was not asked
    for. *)
Lemma streaming_skip bud c w0 t t' w :
  map_get c (allData w0) = None ->
  strm bud c w0 t w -> strm bud c w0 t' w.
Proof.
  intros Habs (H1 & H2 & H3 & H4 & H5 & H6).
  assert (Habs' : map_get c (allData w) = None).
  { destruct (map_get c (allData w)) eqn:E; [| reflexivity].
    assert (Hin : In c (map fst (allData w))) by (apply map_get_keys; rewrite E; eauto).
    rewrite H4 in Hin. apply map_get_keys in Hin as [x Hx]. congruence. }
  refine (conj _ (conj H2 (conj H3 (conj H4 (conj H5 _))))).
  - eapply Inv_act_absent; eassumption.
  - intros _ bw Hbw. congruence.
Qed.

(** One chunk of a response cached and, if it was asked for, delivered
    to its writer. *)
Lemma cacheChunkData_inv bud c w w' :
  LeadInv contents off L cs size fr bud w ->
  1 <= reg_e c - reg_b c + 1 <= cs ->
  (is_Some (map_get c (allData w)) -> 1 <= bud c) ->
  serves_from contents (reg_b c) (stream_of (reader w)) ->
  cacheChunkData c fr w = Done None w' ->
  LeadInv contents off L cs size fr
    (fun c' => if decide (c' = c) then bud c - 1 else bud c') w'
  /\ serves_from contents (reg_b c + (reg_e c - reg_b c + 1)) (stream_of (reader w')).
Proof.
  intros (HInv & Hkeys & Hdone) Hsz Hbud Hserve Hrun.
  assert (Hrs : region_size c = reg_e c - reg_b c + 1).
  { unfold region_size.
    rewrite sub_id by (unfold Int64.min_int, Int64.max_int in *; zl).
    apply add_id. unfold Int64.min_int, Int64.max_int in *. zl. }
  unfold cacheChunkData in Hrun.
  apply bind_inv in Hrun as (c0 & w1 & E1 & Hrun). inversion E1; subst c0 w1. clear E1.
  destruct (addErr (b_cache (blb w)) (genID fr c)); [inversion Hrun |].
  apply bind_inv in Hrun as ([] & w1 & E1 & Hrun). inversion E1; subst w1. clear E1.
  apply bind_inv in Hrun as (f & w1 & E1 & Hrun). inversion E1; subst f w1. clear E1.
  cbn [fetched with_cw] in Hrun.
  apply bind_inv in Hrun as (err & w2 & Hcopy & Hrun).
  destruct err as [e |]; [apply bind_inv in Hrun as (? & ? & _ & Hrun); inversion Hrun |].
  rewrite Hrs in Hcopy.
  unfold io_CopyN in Hcopy.
  apply bind_inv in Hcopy as (r & w1 & E1 & Hcopy). inversion E1; subst r w1. clear E1.
  cbn [reader with_cw] in Hcopy.
  set (w0 := with_cw [] w) in *.
  assert (Hstart : strm bud c w0 0 w0).
  { refine (conj _ (conj eq_refl (conj (conj eq_refl eq_refl) (conj eq_refl (conj _ _))))).
    - apply Inv_open. eapply Inv_frame; [.. | exact HInv]; reflexivity.
    - intros; reflexivity.
    - intros Hlt. zl. }
  assert (Hstream :
    strm bud c w0 (reg_e c - reg_b c + 1) w2
    /\ exists blocks',
         reader w2 = Reader blocks' (rd_err (reader w))
         /\ serves_from contents (reg_b c + (reg_e c - reg_b c + 1)) (concat blocks')).
  { destruct (map_get c (fetched w)) as [v |] eqn:Hf.
    - (* the chunk is in [fetched]: the copy is teed to its writer *)
      assert (Hbud' : 1 <= bud c \/ map_get c (allData w) = None).
      { destruct (map_get c (allData w)) eqn:E; [left; apply Hbud; eauto | right; reflexivity]. }
      destruct (copy_blocks_stream (strm bud c w0)
                  (fun q => (modify (fun w => with_cw (cw w ++ q) w);;; ret (@None error));;;
                            write_to c q)
                  (reg_b c) (reg_e c - reg_b c + 1) (rd_err (reader w))
                  (streaming_reader bud c w0)) with
        (blocks := rd_pieces (reader w)) (n := reg_e c - reg_b c + 1) (t := 0)
        (w := w0) (err := @None error) (w' := w2) as [Hok _];
        try assumption; try zl.
      + intros q t w3 err w4 HS Ht Hq Hfit Hq' Hw.
        apply bind_inv in Hw as (x & w5 & E & Hw).
        unfold bind, modify, ret in E. inversion E; subst x w5. clear E.
        destruct Hbud' as [Hb1 | Habs].
        * destruct (streaming_write bud c w0 q t _ err w4 Hb1
                      (streaming_cw _ _ _ _ _ _ HS) Ht Hq Hfit Hq' Hw)
            as (-> & HS' & Hrd).
          split; [reflexivity |]. split; [exact HS' |]. rewrite Hrd. reflexivity.
        * exfalso. destruct HS as (_ & _ & _ & Hk & _).
          unfold write_to, bind, gets, crash in Hw. cbn [allData with_cw] in Hw.
          destruct (map_get c (allData w3)) eqn:E; [| discriminate].
          assert (Hin : In c (map fst (allData w3))) by (apply map_get_keys; rewrite E; eauto).
          rewrite Hk in Hin. apply map_get_keys in Hin as [y Hy].
          unfold w0 in Hy. cbn [allData with_cw] in Hy. congruence.
      + replace (reg_b c + 0) with (reg_b c) by zl. exact Hserve.
      + destruct (Hok eq_refl) as (HS & blocks' & Hr & Hs).
        replace (0 + Z.max 0 (reg_e c - reg_b c + 1)) with (reg_e c - reg_b c + 1) in HS by zl.
        split; [exact HS |]. exists blocks'. split; [exact Hr |].
        replace (reg_b c + 0 + Z.max 0 (reg_e c - reg_b c + 1))
          with (reg_b c + (reg_e c - reg_b c + 1)) in Hs by zl.
        exact Hs.
    - (* the chunk is not in [fetched]: only the cache writer is fed *)
      assert (Habs : map_get c (allData w0) = None).
      { unfold w0. cbn [allData with_cw].
        destruct (map_get c (allData w)) eqn:E; [| reflexivity].
        destruct (Hkeys c) as [y Hy]; [rewrite E; eauto | congruence]. }
      destruct (copy_blocks_stream (strm bud c w0)
                  (fun q => modify (fun w => with_cw (cw w ++ q) w);;; ret (@None error))
                  (reg_b c) (reg_e c - reg_b c + 1) (rd_err (reader w))
                  (streaming_reader bud c w0)) with
        (blocks := rd_pieces (reader w)) (n := reg_e c - reg_b c + 1) (t := 0)
        (w := w0) (err := @None error) (w' := w2) as [Hok _];
        try assumption; try zl.
      + intros q t w3 err w4 HS Ht Hq Hfit Hq' Hw.
        unfold bind, modify, ret in Hw. inversion Hw; subst err w4.
        split; [reflexivity |]. split; [| reflexivity].
        apply streaming_cw. eapply streaming_skip; eassumption.
      + replace (reg_b c + 0) with (reg_b c) by zl. exact Hserve.
      + destruct (Hok eq_refl) as (HS & blocks' & Hr & Hs).
        replace (0 + Z.max 0 (reg_e c - reg_b c + 1)) with (reg_e c - reg_b c + 1) in HS by zl.
        split; [exact HS |]. exists blocks'. split; [exact Hr |].
        replace (reg_b c + 0 + Z.max 0 (reg_e c - reg_b c + 1))
          with (reg_b c + (reg_e c - reg_b c + 1)) in Hs by zl.
        exact Hs. }
  destruct Hstream as ((HS1 & HS2 & HS3 & HS4 & HS5 & HS6) & blocks' & Hr & Hs).
  clear Hstart Hcopy. unfold w0 in *. clear w0.
  cbn [allData fetched blb with_cw] in HS2, HS3, HS4, HS5.
  destruct (commitErr (b_cache (blb w)) (genID fr c));
    [apply bind_inv in Hrun as (? & ? & _ & Hrun); inversion Hrun |].
  unfold bind, modify, ret in Hrun. inversion Hrun; subst w'. clear Hrun.
  split.
  - refine (conj _ (conj _ _)).
    + eapply Inv_frame; [.. | apply Inv_close; exact HS1]; try reflexivity.
    + intros c' Hc'. cbn [allData fetched with_fetched with_blb with_cw] in *.
      destruct (decide (c = c')) as [<- | Hne].
      * rewrite map_get_set_eq. eauto.
      * rewrite map_get_set_ne by assumption. rewrite HS2. cbn [fetched with_cw].
        apply Hkeys. rewrite <- (HS5 c') by congruence. exact Hc'.
    + intros c' bw Hf Hw. cbn [allData fetched with_fetched with_blb with_cw] in *.
      destruct (decide (c = c')) as [<- | Hne].
      * apply HS6; [zl | exact Hw].
      * rewrite map_get_set_ne in Hf by assumption. rewrite HS2 in Hf.
        cbn [fetched with_cw] in Hf.
        rewrite HS5 in Hw by congruence. cbn [allData with_cw] in Hw.
        exact (Hdone c' bw Hf Hw).
  - cbn [reader with_fetched with_blb with_cw]. rewrite Hr. exact Hs.
Qed.

Lemma LeadInv_weaken bud bud' w :
  (forall c, rel c -> bud' c <= bud c) ->
  LeadInv contents off L cs size fr bud w -> LeadInv contents off L cs size fr bud' w.
Proof.
  intros Hle (H1 & H2 & H3). refine (conj _ (conj H2 H3)).
  eapply Inv_weaken; eassumption.
Qed.

Lemma LeadInv_frame bud w w' :
  buf w' = buf w -> allData w' = allData w -> fetched w' = fetched w ->
  b_size (blb w') = b_size (blb w) ->
  b_chunkSize (blb w') = b_chunkSize (blb w) ->
  b_fetcher (blb w') = b_fetcher (blb w) ->
  LeadInv contents off L cs size fr bud w -> LeadInv contents off L cs size fr bud w'.
Proof.
  intros Hb Ha Hf Hs Hc Hfr (H1 & H2 & H3). unfold LeadInv.
  rewrite Ha, Hf. refine (conj _ (conj H2 H3)).
  eapply Inv_frame; eassumption.
Qed.

(** The loop of [walkChunks] over one part of a response. *)
Lemma walk_part_inv K :
  1 <= K ->
  forall fuel e i w w',
    Int64.min_int <= i ->
    LeadInv contents off L cs size fr (fun c => if reg_b c <? i then K - 1 else K) w ->
    (i < size -> serves_from contents i (stream_of (reader w))) ->
    walk_loop fuel (fun chunk => cacheChunkData chunk fr) e i w = Done None w' ->
    LeadInv contents off L cs size fr (fun _ => K - 1) w'.
Proof.
  intros HK. induction fuel as [| fuel IH]; intros e i w w' Hi HInv Hserve Hrun;
    [discriminate |].
  pose proof HInv as ((_ & Hsize & Hchunk & _) & _).
  simpl in Hrun. unfold bind at 1 2 in Hrun. unfold gets at 1 2 in Hrun.
  rewrite Hsize, Hchunk in Hrun.
  destruct ((i <=? e) && (i <? size)) eqn:Hcond.
  - apply andb_true_iff in Hcond as [Hie His].
    apply Z.leb_le in Hie. apply Z.ltb_lt in His.
    assert (Hadd : Int64.add i cs = i + cs)
      by (apply add_id; unfold Int64.min_int, Int64.max_int in *; zl).
    assert (Hsub : Int64.sub (i + cs) 1 = i + cs - 1)
      by (apply sub_id; unfold Int64.min_int, Int64.max_int in *; zl).
    assert (Hsz1 : Int64.sub size 1 = size - 1)
      by (apply sub_id; unfold Int64.min_int, Int64.max_int in *; zl).
    rewrite Hadd, Hsub, Hsz1 in Hrun. cbn [reg_e] in Hrun.
    assert (Hreg :
      (if size <=? i + cs - 1 then Region i (size - 1) else Region i (i + cs - 1))
      = Region i (Z.min (i + cs - 1) (size - 1))).
    { destruct (Z.leb_spec size (i + cs - 1)); f_equal; zl. }
    rewrite Hreg in Hrun. clear Hreg.
    set (c := Region i (Z.min (i + cs - 1) (size - 1))) in *.
    apply bind_inv in Hrun as (err & w1 & Hchunk1 & Hrun).
    destruct err as [e1 |]; [inversion Hrun |].
    destruct (cacheChunkData_inv _ c w w1 HInv) as [HInv1 Hserve1].
    + unfold c. cbn [reg_b reg_e]. zl.
    + intros _. cbn [reg_b c]. unfold c. cbn [reg_b].
      destruct (Z.ltb_spec i i); zl.
    + unfold c. cbn [reg_b]. apply Hserve. exact His.
    + exact Hchunk1.
    + apply (IH e (i + cs) w1 w').
      * zl.
      * eapply LeadInv_weaken; [| exact HInv1].
        intros c' _. cbn beta.
        destruct (decide (c' = c)) as [-> | Hne].
        -- unfold c. cbn [reg_b].
           destruct (Z.ltb_spec i (i + cs)); destruct (Z.ltb_spec i i); zl.
        -- destruct (Z.ltb_spec (reg_b c') (i + cs)); destruct (Z.ltb_spec (reg_b c') i); zl.
      * intros Hlt. unfold c in Hserve1. cbn [reg_b reg_e] in Hserve1.
        replace (i + (Z.min (i + cs - 1) (size - 1) - i + 1)) with (i + cs) in Hserve1 by zl.
        exact Hserve1.
      * exact Hrun.
  - inversion Hrun; subst w'. eapply LeadInv_weaken; [| exact HInv].
    intros c' _. cbn beta. destruct (Z.ltb_spec (reg_b c') i); zl.
Qed.

(** The loop of [fetchRegions] over the parts of a truthful response. *)
Lemma next_parts_inv fuel final :
  forall parts K w w',
    (forall pt, In pt parts ->
       Int64.in_range (reg_b (part_reg pt))
       /\ serves_from contents (reg_b (part_reg pt)) (stream_of (part_body pt))) ->
    Z.of_nat (length parts) <= K ->
    LeadInv contents off L cs size fr (fun _ => K) w ->
    next_parts fuel fr parts final w = Done None w' ->
    exists K', 0 <= K' /\ LeadInv contents off L cs size fr (fun _ => K') w'.
Proof.
  induction parts as [| pt rest IH]; intros K w w' Hparts HK HInv Hrun.
  - simpl in Hrun. destruct final; inversion Hrun; subst. simpl in HK. eauto.
  - simpl in Hrun. simpl length in HK.
    apply bind_inv in Hrun as ([] & w1 & E & Hrun). inversion E; subst w1. clear E.
    apply bind_inv in Hrun as (err & w1 & Hwalk & Hrun).
    destruct err as [e1 |]; [inversion Hrun |].
    destruct (Hparts pt (or_introl eq_refl)) as [Hrange Hserve].
    pose proof HInv as ((_ & Hsize & Hchunk & _) & _).
    unfold walkChunks in Hwalk.
    apply bind_inv in Hwalk as (cs' & w2 & E & Hwalk). inversion E; subst cs' w2. clear E.
    cbn [blb with_reader] in Hwalk. rewrite Hchunk in Hwalk.
    destruct (Z.eqb_spec cs 0); [zl |].
    destruct (negb (Int64.rem (reg_b (part_reg pt)) cs =? 0)); [inversion Hwalk |].
    assert (HInv1 : LeadInv contents off L cs size fr (fun _ => K - 1) w1).
    { assert (Hmin : Int64.min_int <= reg_b (part_reg pt)) by (destruct Hrange; assumption).
      assert (HK1 : 1 <= K) by zl.
      apply (walk_part_inv K HK1 fuel _ _ _ w1 Hmin) in Hwalk; [exact Hwalk | |].
      - eapply LeadInv_weaken;
          [| eapply LeadInv_frame; [.. | exact HInv]; reflexivity].
        intros c' _. cbn beta. destruct (Z.ltb_spec (reg_b c') (reg_b (part_reg pt))); zl.
      - intros _. exact Hserve. }
    apply (IH (K - 1) w1 w'); [| zl | exact HInv1 | exact Hrun].
    intros pt' Hin. apply Hparts. right. exact Hin.
Qed.

Lemma Settled_good w x :
  settled w -> off <= x -> x < off + L -> x < size -> good contents off w x.
Proof.
  intros [[K (H1 & H2 & H3 & H4 & H5 & H6 & H7)] Hdel] Hx1 Hx2 Hx3.
  destruct (H7 x Hx1 Hx2 Hx3) as [Hgood | (c & bw & Hget & Hin & Hpend)];
    [exact Hgood |].
  exfalso.
  destruct (H6 c _ Hget) as (Hrel & cur & Hwr & Hcur & Hb & Hst).
  inversion Hwr; subst bw. simpl in Hpend, Hst.
  specialize (Hdel c _ Hget). simpl in Hdel.
  destruct (relevant_geometry c Hrel) as (_ & _ & _ & _ & _ & _ & _ & _ & Hcov & _).
  specialize (Hcov x Hin ltac:(zl)). zl.
Qed.

Lemma fold_false_keys req :
  forall f c,
    (In c req \/ is_Some (map_get c f) ->
     is_Some (map_get c (fold_left (fun acc reg => map_set reg false acc) req f)))
    /\ (map_get c (fold_left (fun acc reg => map_set reg false acc) req f) = Some true ->
        map_get c f = Some true).
Proof.
  induction req as [| r req IH]; intros f c; simpl.
  - split; [intros [[] | H]; exact H | auto].
  - destruct (IH (map_set r false f) c) as [IH1 IH2]. split.
    + intros [[-> | Hin] | Hf]; apply IH1.
      * right. rewrite map_get_set_eq. eauto.
      * left. exact Hin.
      * right. destruct (decide (r = c)) as [-> | Hne];
          [rewrite map_get_set_eq; eauto | rewrite map_get_set_ne by assumption; exact Hf].
    + intros Ht. specialize (IH2 Ht).
      destruct (decide (r = c)) as [-> | Hne];
        [rewrite map_get_set_eq in IH2; discriminate
        | rewrite map_get_set_ne in IH2 by assumption; exact IH2].
Qed.

Lemma filter_unfetched_nil (f : list (region * bool)) :
  List.filter (fun cb => negb (snd cb)) f = [] ->
  forall c v, map_get c f = Some v -> v = true.
Proof.
  induction f as [| [k b] f IH]; simpl; intros Hnil c v Hget; [discriminate |].
  destruct b; simpl in Hnil; [| discriminate].
  destruct (decide (c = k)); [congruence | eauto].
Qed.

(** A run of [fetchRegions] against a truthful fetcher that returns
    without error has delivered every requested chunk. *)
Lemma fetchRegions_inv K fuel w w' :
  Inv (fun _ => K) None w ->
  fetched w = [] ->
  truthful contents fr ->
  (forall k mr, fetch fr k (map fst (allData w)) = inr mr ->
     Z.of_nat (length (mr_parts mr)) <= K) ->
  fetchRegions fuel w = Done None w' ->
  settled w'
  /\ (forall c, is_Some (map_get c (allData w')) -> is_Some (map_get c (fetched w')))
  /\ flights w' = flights w.
Proof.
  intros HInv Hf0 Htruth Hparts Hrun.
  pose proof HInv as (H1 & H2 & H3 & H4 & H5 & H6 & H7).
  unfold fetchRegions in Hrun.
  apply bind_inv in Hrun as (m & w1 & E & Hrun). inversion E; subst m w1. clear E.
  destruct (allData w) as [| kv m] eqn:Hm.
  { inversion Hrun; subst w'. split; [| split; [| reflexivity]].
    - split; [eauto |]. intros c bw Hget. rewrite Hm in Hget. discriminate.
    - intros c [x Hx]. rewrite Hm in Hx. discriminate. }
  rewrite <- Hm in Hrun.
  apply bind_inv in Hrun as (fr' & w1 & E & Hrun). inversion E; subst fr' w1. clear E.
  rewrite H4 in Hrun.
  apply bind_inv in Hrun as ([] & w1 & E & Hrun). inversion E; subst w1. clear E.
  apply bind_inv in Hrun as (res & w1 & E & Hrun).
  unfold do_fetch, bind, gets, modify, ret in E. inversion E; subst res w1. clear E.
  destruct (fetch fr _ _) as [err | mr] eqn:Hfetch; [inversion Hrun |].
  apply bind_inv in Hrun as (now & w1 & E & Hrun).
  unfold time_Now in E. inversion E; subst now w1. clear E.
  apply bind_inv in Hrun as ([] & w1 & E & Hrun). inversion E; subst w1. clear E.
  apply bind_inv in Hrun as (err & w3 & Hnext & Hrun).
  destruct err as [e1 |]; [inversion Hrun |].
  apply bind_inv in Hrun as (f & w4 & E & Hrun). inversion E; subst f w4. clear E.
  destruct (List.filter _ (fetched w3)) eqn:Hfilter; [| inversion Hrun].
  inversion Hrun; subst w'. clear Hrun.
  match type of Hnext with
  | next_parts _ _ _ _ ?w0 = _ => set (wstart := w0) in *
  end.
  assert (Hstart : LeadInv contents off L cs size fr (fun _ => K) wstart).
  { refine (conj _ (conj _ _)).
    - eapply Inv_frame; [.. | exact HInv]; reflexivity.
    - intros c Hc. unfold wstart. cbn [fetched allData with_blb with_tick log with_fetched] in *.
      apply fold_false_keys. left. apply map_get_keys in Hc. exact Hc.
    - intros c bw Hft _. exfalso. unfold wstart in Hft.
      cbn [fetched with_blb with_tick log with_fetched] in Hft.
      apply fold_false_keys in Hft. rewrite Hf0 in Hft. discriminate. }
  assert (Hflights : flights w3 = flights w).
  { apply next_parts_keeps_flights in Hnext. exact Hnext. }
  destruct (next_parts_inv fuel (mr_err mr) (mr_parts mr) K wstart w3) as (K' & HK' & HLead);
    try assumption.
  { intros pt Hin. refine (Htruth _ _ _ pt _ Hfetch Hin).
    apply List.Forall_forall. intros r Hr.
    apply map_get_keys in Hr as [wr Hget]. rewrite Hm in Hget.
    destruct (H6 r wr Hget) as ((_ & Hb0 & _ & Hbs & Hee & _) & _).
    pose proof size_fits.
    unfold Int64.in_range, Int64.min_int, Int64.max_int in *. zl. }
  { rewrite <- Hm in Hparts. apply (Hparts _ _ Hfetch). }
  destruct HLead as (HInv3 & Hkeys3 & Hdone3).
  split; [| split; [exact Hkeys3 | exact Hflights]].
  split; [eauto |].
  intros c bw Hget.
  destruct (Hkeys3 c ltac:(rewrite Hget; eauto)) as [v Hv].
  pose proof (filter_unfetched_nil _ Hfilter c v Hv) as ->.
  exact (Hdone3 c bw Hv Hget).
Qed.

(** Reading a committed chunk back into its writer, as a waiter of a
    shared fetch does. *)
Lemma copyFetchedChunk_inv bud c w err w' :
  Inv bud None w ->
  is_Some (map_get c (allData w)) ->
  1 <= bud c ->
  cache_ok contents cs size fr (b_cache (blb w)) ->
  copyFetchedChunk c w = Done err w' ->
  (err <> None -> w' = w)
  /\ (err = None ->
      Inv (fun c' => if decide (c' = c) then bud c - 1 else bud c') None w'
      /\ fetched w' = fetched w
      /\ (blb w' = blb w /\ flights w' = flights w)
      /\ map fst (allData w') = map fst (allData w)
      /\ (forall c', c' <> c -> map_get c' (allData w') = map_get c' (allData w))
      /\ (forall bw, map_get c (allData w') = Some (BytesWriter bw) -> 0 < current bw)).
Proof.
  intros HInv [wr Hget] Hbud Hcache Hrun.
  pose proof HInv as (H1 & H2 & H3 & H4 & H5 & H6 & H7).
  destruct (H6 c wr Hget) as (Hrel & _).
  destruct (relevant_geometry c Hrel) as (_ & _ & _ & _ & _ & _ & Hsz & Hrs & _).
  unfold copyFetchedChunk in Hrun.
  apply bind_inv in Hrun as (fr' & w1 & E & Hrun). inversion E; subst fr' w1. clear E.
  rewrite H4 in Hrun.
  apply bind_inv in Hrun as (c0 & w1 & E & Hrun). inversion E; subst c0 w1. clear E.
  destruct (entries (b_cache (blb w)) !! genID fr c) as [data |] eqn:Hentry.
  2:{ inversion Hrun; subst. split; [reflexivity | discriminate]. }
  destruct (Hcache c data (relevant_grid c Hrel) Hentry) as [Hlen Hbytes].
  apply bind_inv in Hrun as ([] & w1 & E & Hrun). inversion E; subst w1. clear E.
  unfold io_CopyN in Hrun.
  apply bind_inv in Hrun as (r & w1 & E & Hrun). inversion E; subst r w1. clear E.
  cbn [reader with_reader rd_pieces rd_err] in Hrun. rewrite Hrs in Hrun.
  assert (Hall : firstn (Z.to_nat (reg_e c - reg_b c + 1)) data = data).
  { apply firstn_all2. unfold len in Hlen. zl. }
  rewrite Hall in Hrun.
  match type of Hrun with
  | copy_blocks _ _ _ _ ?w1 = _ => set (w0 := w1) in *
  end.
  assert (Hstart : strm bud c w0 0 w0).
  { refine (conj _ (conj eq_refl (conj (conj eq_refl eq_refl) (conj eq_refl (conj _ _))))).
    - apply Inv_open. eapply Inv_frame; [.. | exact HInv]; reflexivity.
    - intros; reflexivity.
    - intros Hlt. zl. }
  assert (Hconcat : concat [data] = data) by (simpl; apply app_nil_r).
  destruct (copy_blocks_stream (strm bud c w0) (write_to c)
              (reg_b c) (reg_e c - reg_b c + 1) None
              (streaming_reader bud c w0)) with
    (blocks := [data]) (n := reg_e c - reg_b c + 1) (t := 0)
    (w := w0) (err := err) (w' := w') as [Hok Hbad];
    try assumption; try zl.
  - intros q t w3 err3 w4 HS Ht Hq Hfit Hq' Hw.
    eapply streaming_write; eassumption.
  - rewrite Hconcat. replace (reg_b c + 0) with (reg_b c) by zl. exact Hbytes.
  - split.
    + intros Hne. specialize (Hbad Hne). rewrite Hconcat in Hbad. zl.
    + intros He. destruct (Hok He) as ((HS1 & HS2 & HS3 & HS4 & HS5 & HS6) & _).
      replace (0 + Z.max 0 (reg_e c - reg_b c + 1)) with (reg_e c - reg_b c + 1)
        in HS1, HS6 by zl.
      refine (conj _ (conj HS2 (conj HS3 (conj HS4 (conj HS5 _))))).
      * apply Inv_close. exact HS1.
      * apply HS6. zl.
Qed.

Lemma copyFetchedChunks_inv bud c fuel w err w' :
  Inv bud None w ->
  is_Some (map_get c (allData w)) ->
  1 <= bud c ->
  cache_ok contents cs size fr (b_cache (blb w)) ->
  copyFetchedChunks fuel c w = Done err w' ->
  (err <> None -> w' = w)
  /\ (err = None ->
      Inv (fun c' => if decide (c' = c) then bud c - 1 else bud c') None w'
      /\ fetched w' = fetched w
      /\ (blb w' = blb w /\ flights w' = flights w)
      /\ map fst (allData w') = map fst (allData w)
      /\ (forall c', c' <> c -> map_get c' (allData w') = map_get c' (allData w))
      /\ (forall bw, map_get c (allData w') = Some (BytesWriter bw) -> 0 < current bw)).
Proof.
  intros HInv Hkey Hbud Hcache Hrun.
  pose proof HInv as (H1 & H2 & H3 & H4 & H5 & H6 & H7).
  destruct Hkey as [wr Hget]. destruct (H6 c wr Hget) as (Hrel & _).
  pose proof Hrel as (Hrem & Hb0 & HbL & Hbs & Hee & Hbo).
  unfold copyFetchedChunks, walkChunks in Hrun.
  apply bind_inv in Hrun as (cs' & w1 & E & Hrun). inversion E; subst cs' w1. clear E.
  rewrite H3 in Hrun.
  destruct (Z.eqb_spec cs 0); [zl |].
  unfold Int64.rem in Hrun. rewrite Hrem in Hrun. simpl negb in Hrun. cbv iota in Hrun.
  destruct fuel as [| fuel]; [discriminate |].
  simpl in Hrun. unfold bind at 1 2 in Hrun. unfold gets at 1 2 in Hrun.
  rewrite H2, H3 in Hrun.
  assert (Hcond : (reg_b c <=? reg_e c) && (reg_b c <? size) = true).
  { apply andb_true_iff. split; [apply Z.leb_le | apply Z.ltb_lt]; zl. }
  rewrite Hcond in Hrun.
  assert (Hadd : Int64.add (reg_b c) cs = reg_b c + cs)
    by (apply add_id; unfold Int64.min_int, Int64.max_int in *; zl).
  assert (Hsub : Int64.sub (reg_b c + cs) 1 = reg_b c + cs - 1)
    by (apply sub_id; unfold Int64.min_int, Int64.max_int in *; zl).
  assert (Hsz1 : Int64.sub size 1 = size - 1)
    by (apply sub_id; unfold Int64.min_int, Int64.max_int in *; zl).
  rewrite Hadd, Hsub, Hsz1 in Hrun. cbn [reg_e] in Hrun.
  assert (Hreg :
    (if size <=? reg_b c + cs - 1 then Region (reg_b c) (size - 1)
     else Region (reg_b c) (reg_b c + cs - 1)) = c).
  { destruct c as [b e]. cbn [reg_b reg_e] in *.
    destruct (Z.leb_spec size (b + cs - 1)); f_equal; zl. }
  rewrite Hreg in Hrun. clear Hreg.
  apply bind_inv in Hrun as (err1 & w1 & Hcopy & Hrun).
  destruct (copyFetchedChunk_inv bud c w err1 w1 HInv ltac:(eauto) Hbud Hcache Hcopy)
    as [Hbad Hok].
  destruct err1 as [e1 |].
  - inversion Hrun; subst err w'. split; [intros _; apply Hbad; discriminate | discriminate].
  - destruct (Hok eq_refl) as (HI & Hf & (Hblb & Hfl) & Hk & Ho & Hd).
    destruct fuel as [| fuel]; [discriminate |].
    simpl in Hrun. unfold bind at 1 2 in Hrun. unfold gets at 1 2 in Hrun.
    rewrite Hblb, H2, H3 in Hrun.
    assert (Hcond2 : (reg_b c + cs <=? reg_e c) && (reg_b c + cs <? size) = false).
    { apply andb_false_iff. left. apply Z.leb_gt. zl. }
    rewrite Hcond2 in Hrun. inversion Hrun; subst err w'.
    split; [congruence |]. intros _. exact (Hok eq_refl).
Qed.

(** The loop of [handleSharedFetch] for a waiter, whose [fetched] map is
    empty: every chunk is copied from the cache, until one is missing. *)
Lemma shared_loop_inv K fuel regs :
  forall bud w err w',
    1 <= K ->
    Inv bud None w ->
    fetched w = [] ->
    NoDup regs ->
    (forall c, In c regs -> is_Some (map_get c (allData w))) ->
    (forall c, K - 1 <= bud c) ->
    (forall c, In c regs -> K <= bud c) ->
    (forall c bw, map_get c (allData w) = Some (BytesWriter bw) ->
       In c regs \/ 0 < current bw) ->
    cache_ok contents cs size fr (b_cache (blb w)) ->
    shared_loop fuel regs w = Done err w' ->
    Inv (fun _ => K - 1) None w'
    /\ fetched w' = []
    /\ blb w' = blb w
    /\ flights w' = flights w
    /\ map fst (allData w') = map fst (allData w)
    /\ (err = None ->
        forall c bw, map_get c (allData w') = Some (BytesWriter bw) -> 0 < current bw).
Proof.
  induction regs as [| reg rest IH];
    intros bud w err w' HK HInv Hf Hnd Hkeys Hlow Hhigh Hdel Hcache Hrun.
  - simpl in Hrun. inversion Hrun; subst err w'.
    refine (conj _ (conj Hf (conj eq_refl (conj eq_refl (conj eq_refl _))))).
    + eapply Inv_weaken; [| exact HInv]. intros c _. apply Hlow.
    + intros _ c bw Hget. destruct (Hdel c bw Hget) as [[] | Hpos]. exact Hpos.
  - simpl in Hrun.
    apply bind_inv in Hrun as (f & w1 & E & Hrun). inversion E; subst f w1. clear E.
    rewrite Hf in Hrun. simpl in Hrun.
    apply bind_inv in Hrun as (err1 & w1 & Hcopy & Hrun).
    inversion Hnd as [| ? ? Hnotin Hnd']; subst.
    assert (Hbud : 1 <= bud reg) by (specialize (Hhigh reg (or_introl eq_refl)); zl).
    destruct (copyFetchedChunks_inv bud reg fuel w err1 w1 HInv
                (Hkeys reg (or_introl eq_refl)) Hbud Hcache Hcopy) as [Hbad Hok].
    destruct err1 as [e1 |].
    + inversion Hrun; subst err w'.
      rewrite (Hbad ltac:(discriminate)).
      refine (conj _ (conj Hf (conj eq_refl (conj eq_refl (conj eq_refl _)))));
        [| discriminate].
      eapply Inv_weaken; [| exact HInv]. intros c _. apply Hlow.
    + destruct (Hok eq_refl) as (HI & Hf1 & (Hblb & Hfl) & Hk & Ho & Hd).
      destruct (IH _ w1 err w' HK HI) as (R1 & R2 & R3 & R4 & R5 & R6); try assumption.
      * congruence.
      * intros c Hin. apply map_get_keys. rewrite Hk. apply map_get_keys.
        apply Hkeys. right. exact Hin.
      * intros c. destruct (decide (c = reg)); [| apply Hlow].
        specialize (Hhigh reg (or_introl eq_refl)). zl.
      * intros c Hin. destruct (decide (c = reg)) as [-> | Hne].
        { exfalso. apply Hnotin. apply list_elem_of_In. exact Hin. }
        apply Hhigh. right. exact Hin.
      * intros c bw Hget. destruct (decide (c = reg)) as [-> | Hne].
        -- right. eapply Hd. exact Hget.
        -- rewrite (Ho c Hne) in Hget. destruct (Hdel c bw Hget) as [[Heq | Hin] | Hpos];
             [congruence | left; exact Hin | right; exact Hpos].
      * rewrite Hblb. exact Hcache.
      * refine (conj R1 (conj R2 (conj _ (conj _ (conj _ R6))))); congruence.
Qed.

(** The loop of [handleSharedFetch] for the goroutine that ran the fetch
    itself: everything it asked for is marked, nothing is copied. *)
Lemma shared_loop_all_fetched fuel regs w :
  (forall c, In c regs -> is_Some (map_get c (fetched w))) ->
  shared_loop fuel regs w = Done None w.
Proof.
  induction regs as [| reg rest IH]; intros Hall; [reflexivity |].
  simpl. unfold bind at 1. unfold gets at 1.
  destruct (Hall reg (or_introl eq_refl)) as [v Hv]. rewrite Hv.
  apply IH. intros c Hin. apply Hall. right. exact Hin.
Qed.

(** [fetchRange]: however many shared rounds fail before the data is
    obtained, a successful return leaves every wanted byte in place. *)
Lemma fetchRange_inv P fuel :
  forall K w w',
    0 <= P ->
    Inv (fun _ => K) None w ->
    Z.of_nat (length (flights w)) + P <= K ->
    truthful contents fr ->
    (forall k mr, fetch fr k (map fst (allData w)) = inr mr ->
       Z.of_nat (length (mr_parts mr)) <= P) ->
    (forall c, In (Join None c) (flights w) -> cache_ok contents cs size fr c) ->
    fetchRange fuel w = Done None w' ->
    settled w'.
Proof.
  induction fuel as [| fuel IH];
    intros K w w' HP HInv HK Htruth Hparts Hjoin Hrun; [discriminate |].
  simpl in Hrun.
  apply bind_inv in Hrun as (m & w1 & E & Hrun). inversion E; subst m w1. clear E.
  destruct (allData w) as [| kv m] eqn:Hm.
  { inversion Hrun; subst w'. split; [exists K; exact HInv |].
    intros c bw Hget. rewrite Hm in Hget. discriminate. }
  rewrite <- Hm in Hparts.
  apply bind_inv in Hrun as ([] & w1 & E & Hrun). inversion E; subst w1. clear E.
  apply bind_inv in Hrun as ([err shared] & w1 & Hdo & Hrun).
  unfold singleflight_Do in Hdo.
  apply bind_inv in Hdo as ([] & w2 & E & Hdo). inversion E; subst w2. clear E.
  apply bind_inv in Hdo as (fl & w2 & E & Hdo). inversion E; subst fl w2. clear E.
  cbn [flights log with_fetched] in Hdo.
  set (w0 := log EvDo (with_fetched [] w)) in *.
  assert (HInv0 : Inv (fun _ => K) None w0)
    by (eapply Inv_frame; [.. | exact HInv]; reflexivity).
  destruct (flights w) as [| fl rest] eqn:Hfl.
  - (* alone *)
    apply bind_inv in Hdo as (err0 & w2 & Hfetch & Hdo).
    inversion Hdo; subst err0 shared w2. clear Hdo.
    assert (err = None /\ w' = w1) as [-> ->].
    { destruct err; inversion Hrun; auto. }
    eapply fetchRegions_inv with (K := K) in Hfetch; try assumption.
    + apply Hfetch.
    + reflexivity.
    + intros k mr Hq. specialize (Hparts k mr Hq). simpl in HK. zl.
  - destruct fl as [sh | jerr jc].
    + (* leading a shared flight *)
      apply bind_inv in Hdo as ([] & w2 & E & Hdo). inversion E; subst w2. clear E.
      apply bind_inv in Hdo as (err0 & w2 & Hfetch & Hdo).
      inversion Hdo; subst err0 shared w2. clear Hdo.
      assert (Herr : err = None).
      { destruct err as [e |]; [| reflexivity]. inversion Hrun. }
      subst err.
      eapply fetchRegions_inv with (K := K) in Hfetch; try assumption.
      * destruct Hfetch as (Hset & Hall & _).
        destruct sh.
        -- apply bind_inv in Hrun as (herr & w2 & Hshare & Hrun).
           unfold handleSharedFetch in Hshare.
           apply bind_inv in Hshare as (m1 & w3 & E & Hshare).
           inversion E; subst m1 w3. clear E.
           rewrite shared_loop_all_fetched in Hshare.
           ++ inversion Hshare; subst herr w2. inversion Hrun; subst w'. exact Hset.
           ++ intros c Hin. apply Hall. apply map_get_keys. exact Hin.
        -- inversion Hrun; subst w'. exact Hset.
      * reflexivity.
      * intros k mr Hq. specialize (Hparts k mr Hq).
        simpl length in HK. zl.
    + (* waiting for the flight of another goroutine *)
      apply bind_inv in Hdo as ([] & w2 & E & Hdo). inversion E; subst w2. clear E.
      apply bind_inv in Hdo as ([] & w2 & E & Hdo). inversion E; subst w2. clear E.
      inversion Hdo; subst err shared w1. clear Hdo.
      destruct jerr as [e |]; [inversion Hrun |].
      apply bind_inv in Hrun as (herr & w2 & Hshare & Hrun).
      unfold handleSharedFetch in Hshare.
      apply bind_inv in Hshare as (m1 & w3 & E & Hshare).
      inversion E; subst m1 w3. clear E.
      match type of Hshare with
      | shared_loop _ _ ?x = _ => set (w3 := x) in *
      end.
      assert (HInv3 : Inv (fun _ => K) None w3)
        by (eapply Inv_frame; [.. | exact HInv0]; reflexivity).
      assert (HK1 : 1 <= K) by (simpl length in HK; zl).
      pose proof HInv3 as (_ & _ & _ & _ & Hnd & Hwr & _).
      assert (Hkeys : forall c, In c (map fst (allData w)) ->
                is_Some (map_get c (allData w3))).
      { intros c Hin. apply map_get_keys. exact Hin. }
      assert (Hdel : forall c bw, map_get c (allData w3) = Some (BytesWriter bw) ->
                In c (map fst (allData w)) \/ 0 < current bw).
      { intros c bw Hget. left. apply (map_get_keys c (allData w)). eauto. }
      destruct (shared_loop_inv K (S fuel) (map fst (allData w)) (fun _ => K) w3 herr w2
                  HK1 HInv3 eq_refl Hnd Hkeys
                  ltac:(intros; cbv beta; zl) ltac:(intros; cbv beta; zl) Hdel
                  (Hjoin jc (or_introl eq_refl)) Hshare)
        as (R1 & R2 & R3 & R4 & R5 & R6).
      destruct herr as [e |].
      * apply (IH (K - 1) w2 w'); try assumption.
        -- rewrite R4. unfold w3. cbn [flights with_blb with_flights].
           simpl length in HK. zl.
        -- rewrite R5. exact Hparts.
        -- intros c Hin. apply Hjoin. right.
           rewrite R4 in Hin. exact Hin.
      * inversion Hrun; subst w'. split; [exists (K - 1); exact R1 |].
        apply R6. reflexivity.
Qed.

Lemma map_set_NoDup {V : Type} (k : region) (v : V) m :
  NoDup (map fst m) -> NoDup (map fst (map_set k v m)).
Proof.
  intros Hnd. destruct (map_get k m) as [v0 |] eqn:Hget.
  - rewrite map_set_keys_present by eauto. exact Hnd.
  - rewrite map_set_keys_absent by assumption.
    apply NoDup_app. split; [exact Hnd |]. split; [| apply NoDup_singleton].
    intros x Hx Hk. apply list_elem_of_singleton in Hk. subst x.
    apply list_elem_of_In, map_get_keys in Hx. destruct Hx as [v1 Hv1]. congruence.
Qed.

(** The preparation phase: every chunk of the walk is either served
    from the cache, its bytes landing where the request wants them, or
    registered with a fresh writer on its window of the buffer. *)
Lemma prepare_inv K (cache0 : BlobCache) :
  0 <= K -> K * cs <= Int64.max_int ->
  cache_ok contents cs size fr cache0 ->
  forall l w err w',
    (forall c, In c l -> rel c) ->
    b_cache (blb w) = cache0 ->
    len (buf w) = L ->
    b_size (blb w) = size ->
    b_chunkSize (blb w) = cs ->
    b_fetcher (blb w) = fr ->
    NoDup (map fst (allData w)) ->
    (forall c wr, map_get c (allData w) = Some wr ->
       writer_ok off L cs size (fun _ => K) None c wr) ->
    (forall x, off <= x -> x < off + L -> x < size ->
       good contents off w x
       \/ (exists c bw,
             map_get c (allData w) = Some (BytesWriter bw)
             /\ reg_b c <= x <= reg_e c
             /\ current bw <= x - reg_b c)
       \/ exists c, In c l /\ reg_b c <= x <= reg_e c) ->
    for_each (prepareChunk off fr) l w = Done err w' ->
    err = None
    /\ Inv (fun _ => K) None w'
    /\ blb w' = blb w
    /\ flights w' = flights w
    /\ (forall c, In c (map fst (allData w')) -> In c (map fst (allData w)) \/ In c l).
Proof.
  intros HK HKcs Hcache.
  induction l as [| c l IH];
    intros w err w' Hrel Hc0 Hlen Hsz Hcsz Hfr Hnd Hwr Hcov Hrun.
  - simpl in Hrun. inversion Hrun; subst err w'.
    refine (conj eq_refl (conj _ (conj eq_refl (conj eq_refl _)))); [| tauto].
    refine (conj Hlen (conj Hsz (conj Hcsz (conj Hfr (conj Hnd (conj Hwr _)))))).
    intros x Hx1 Hx2 Hx3.
    destruct (Hcov x Hx1 Hx2 Hx3) as [Hg | [Hp | (c & [] & _)]]; [left | right]; assumption.
  - assert (Hrc : rel c) by (apply Hrel; left; reflexivity).
    destruct (relevant_geometry c Hrc)
      as (G1 & G2 & G3 & G4 & G5 & G6 & G7 & G8 & G9 & G10).
    pose proof size_fits as Hsf.
    destruct (prepareChunk_run off fr c w L (sb c) (lo c) (ex c))
      as (buf' & A' & Hprep & Hlen' & Hout & Hcase);
      try reflexivity; try assumption; try (symmetry; assumption).
    { pose proof request_end_fits off L cs Hcs Hceil. zl. }
    simpl in Hrun. unfold bind at 1 in Hrun. rewrite Hprep in Hrun.
    set (w1 := with_allData A' (with_buf buf' w)) in *.
    assert (Hkeep : forall x, ~ (reg_b c <= x <= reg_e c) -> off <= x -> x < off + L ->
              byte_at buf' (x - off) = byte_at (buf w) (x - off)).
    { intros x Hnot Hx1 Hx2. apply Hout. intros Hin. apply Hnot.
      destruct (G10 (x - reg_b c)) as [_ Hle]; zl. }
    destruct (IH w1 err w') as (R1 & R2 & R3 & R4 & R5);
      try assumption; try reflexivity.
    + intros c' Hin. apply Hrel. right. exact Hin.
    + unfold w1. cbn [allData with_allData with_buf].
      destruct Hcase as [[-> _] | ->]; [exact Hnd | apply map_set_NoDup; exact Hnd].
    + unfold w1. cbn [allData with_allData with_buf]. intros c' wr Hget.
      destruct Hcase as [[-> _] | ->]; [apply Hwr; exact Hget |].
      destruct (decide (c = c')) as [<- | Hne].
      * rewrite map_get_set_eq in Hget. inversion Hget; subst wr.
        split; [exact Hrc |]. exists 0. unfold newBytesWriter. simpl cursor_at.
        refine (conj eq_refl (conj _ (conj _ _))); [zl | zl | right; reflexivity].
      * rewrite map_get_set_ne in Hget by assumption. apply Hwr. exact Hget.
    + intros x Hx1 Hx2 Hx3.
      assert (Hdec : (reg_b c <= x <= reg_e c) \/ ~ (reg_b c <= x <= reg_e c)) by zl.
      destruct Hdec as [Hin | Hnot].
      * destruct (G9 x Hin ltac:(zl)) as [Hj1 Hj2].
        destruct Hcase as [[HA (data & Hentry & _ & Hbytes)] | HA].
        -- left. unfold good, w1. cbn [buf with_allData with_buf].
           rewrite Hc0 in Hentry.
           destruct (Hcache c data (relevant_grid c Hrc) Hentry) as [Hdl Hdb].
           replace (x - off) with (sb c + (x - reg_b c - lo c)) by zl.
           rewrite Hbytes by zl.
           replace (lo c + (x - reg_b c - lo c)) with (x - reg_b c) by zl.
           rewrite Hdb by zl. f_equal. zl.
        -- right. left. exists c, (BytesWriterOf (Slice (sb c) (ex c)) (lo c) 0).
           unfold w1. cbn [allData with_allData with_buf]. rewrite HA.
           rewrite map_get_set_eq. unfold newBytesWriter. simpl current.
           refine (conj eq_refl (conj Hin _)). zl.
      * destruct (Hcov x Hx1 Hx2 Hx3) as [Hg | [(c' & bw & Hget & Hin' & Hcur) | (c' & Hin' & Hx')]].
        -- left. unfold good, w1 in *. cbn [buf with_allData with_buf].
           rewrite Hkeep by assumption. exact Hg.
        -- right. left. exists c', bw.
           unfold w1. cbn [allData with_allData with_buf].
           refine (conj _ (conj Hin' Hcur)).
           destruct Hcase as [[-> _] | ->]; [exact Hget |].
           rewrite map_get_set_ne; [exact Hget |]. intros ->. contradiction.
        -- right. right. exists c'. split; [| exact Hx'].
           destruct Hin' as [<- | Hin']; [contradiction | exact Hin'].
    + refine (conj R1 (conj R2 (conj R3 (conj R4 _)))).
      intros c' Hin. destruct (R5 c' Hin) as [Hold | Hl]; [| right; right; exact Hl].
      unfold w1 in Hold. cbn [allData with_allData with_buf] in Hold.
      destruct Hcase as [[HA _] | HA]; rewrite HA in Hold; [left; exact Hold |].
      apply map_get_keys in Hold as [v Hv].
      destruct (decide (c = c')) as [<- | Hne]; [right; left; reflexivity |].
      rewrite map_get_set_ne in Hv by assumption.
      left. apply map_get_keys. eauto.
Qed.

(** The walk of [prepareChunksForRead] meets every wanted byte. *)
Lemma spec_chunks_cover x :
  off <= x -> x < off + L -> x < size ->
  exists c,
    In c (spec_chunks
            (Region (Z.quot off cs * cs) ((Z.quot (off + L - 1) cs + 1) * cs - 1)) cs size)
    /\ reg_b c <= x <= reg_e c.
Proof.
  intros Hx1 Hx2 Hx3.
  destruct (floor_request off cs size Hcs Hoff size_fits) as (_ & Hb & Hq).
  pose proof (quot_bracket (off + L - 1) cs Hcs) as He.
  clear Hceil.
  set (b := Z.quot off cs * cs) in *.
  set (e := (Z.quot (off + L - 1) cs + 1) * cs - 1) in *.
  set (k := (x - b) / cs).
  assert (Hk0 : 0 <= k) by (apply Z.div_pos; lia).
  assert (Hk1 : cs * k <= x - b) by (apply Z.mul_div_le; lia).
  assert (Hk2 : x - b < cs * Z.succ k) by (apply Z.mul_succ_div_gt; lia).
  exists (Region (b + k * cs) (Z.min (b + (k + 1) * cs - 1) (size - 1))).
  split; [| cbn [reg_b reg_e]; lia].
  unfold spec_chunks. apply in_map_iff. exists (Z.to_nat k). cbn [reg_b].
  split; [rewrite Z2Nat.id by lia; reflexivity |].
  apply in_seq. split; [lia |]. simpl. unfold chunk_count. cbn [reg_b reg_e].
  destruct (Z.leb_spec b (Z.min e (size - 1))) as [Hle | Hgt]; [| unfold e in *; lia].
  assert (Hmono : k <= (Z.min e (size - 1) - b) / cs).
  { apply Z.div_le_mono; [lia |]. unfold e. lia. }
  lia.
Qed.

Lemma read_walk_fits :
  Z.quot off cs * cs
  + Z.of_nat (chunk_count
                (Region (Z.quot off cs * cs) ((Z.quot (off + L - 1) cs + 1) * cs - 1))
                cs size) * cs <= Int64.max_int.
Proof.
  destruct (floor_request off cs size Hcs Hoff size_fits) as (_ & Hb & Hq).
  clear Hceil.
  set (b := Z.quot off cs * cs) in *.
  set (e := (Z.quot (off + L - 1) cs + 1) * cs - 1) in *.
  unfold chunk_count. cbn [reg_b reg_e].
  destruct (Z.leb_spec b (Z.min e (size - 1))) as [Hle | Hgt]; [| simpl; lia].
  assert (Hd0 : 0 <= (Z.min e (size - 1) - b) / cs) by (apply Z.div_pos; lia).
  assert (Hd1 : cs * ((Z.min e (size - 1) - b) / cs) <= Z.min e (size - 1) - b)
    by (apply Z.mul_div_le; lia).
  rewrite Z2Nat.id by lia. lia.
Qed.

(** [ReadAt] end to end, for a request that meets the blob. *)
Lemma ReadAt_delivers P fuel p w n w' :
  len p = L ->
  b_closed (blb w) = false ->
  b_size (blb w) = size ->
  b_chunkSize (blb w) = cs ->
  b_fetcher (blb w) = fr ->
  cache_ok contents cs size fr (b_cache (blb w)) ->
  (forall c, In (Join None c) (flights w) -> cache_ok contents cs size fr c) ->
  truthful contents fr ->
  0 <= P ->
  (forall k req mr,
     (length req
      <= chunk_count
           (Region (Z.quot off cs * cs) ((Z.quot (off + L - 1) cs + 1) * cs - 1))
           cs size)%nat ->
     fetch fr k req = inr mr -> Z.of_nat (length (mr_parts mr)) <= P) ->
  (Z.of_nat (length (flights w)) + P) * cs <= Int64.max_int ->
  ReadAt fuel p off w = Done (n, None) w' ->
  n = Z.min L (size - off)
  /\ len (buf w') = L
  /\ forall x, off <= x -> x < off + L -> x < size -> good contents off w' x.
Proof.
  intros Hlen Hopen Hsz Hcsz Hfr Hcache Hjoin Htruth HP Hparts HK Hrun.
  pose proof size_fits as Hsf.
  destruct (floor_request off cs size Hcs Hoff Hsf) as (Hfloor & Hb & Hq).
  pose proof (ceil_request off L cs size Hcs Hoff HL Hceil) as Hce.
  rewrite ReadAt_open in Hrun; try assumption.
  2:{ rewrite Hlen, Hsz. apply orb_false_iff.
      split; [apply Z.eqb_neq | apply Z.ltb_ge]; zl. }
  2:{ rewrite Hcsz. zl. }
  unfold prepareChunksForRead, read_region in Hrun.
  rewrite Hcsz, Hlen, Hfloor, Hce, Hfr, Hsz in Hrun.
  set (r := Region (Z.quot off cs * cs) ((Z.quot (off + L - 1) cs + 1) * cs - 1)) in *.
  set (w0 := with_allData [] (with_buf p w)) in *.
  destruct (walkChunks fuel r (prepareChunk off fr) w0) as [[e |] w1 | |] eqn:Hprep;
    try discriminate.
  assert (Hblb0 : blb w0 = blb w) by reflexivity.
  apply walkChunks_done in Hprep.
  - rewrite Hblb0, Hcsz, Hsz in Hprep.
    destruct (prepare_inv (Z.of_nat (length (flights w)) + P) (b_cache (blb w))
                ltac:(zl) HK Hcache (spec_chunks r cs size) w0 None w1)
      as (_ & HInv & Hblb1 & Hfl1 & Hkeys1); try assumption; try reflexivity.
    + intros c Hin. apply (spec_chunks_relevant off L cs size Hcs Hoff HL Hsf Hceil).
      exact Hin.
    + apply NoDup_nil_2.
    + intros c wr Hget. discriminate.
    + intros x Hx1 Hx2 Hx3. right. right. apply spec_chunks_cover; assumption.
    + destruct (fetchRange fuel w1) as [[e |] w2 | |] eqn:Hfetch; try discriminate.
      inversion Hrun; subst n w'. clear Hrun.
      assert (Hset : settled w2).
      { apply (fetchRange_inv P fuel (Z.of_nat (length (flights w)) + P) w1 w2);
          try assumption.
        - rewrite Hfl1. unfold w0. cbn [flights with_allData with_buf]. zl.
        - intros k mr. apply Hparts.
          destruct HInv as (_ & _ & _ & _ & Hnd & _).
          replace (chunk_count r cs size) with (length (spec_chunks r cs size))
            by (unfold spec_chunks; rewrite length_map, length_seq; reflexivity).
          apply submseteq_length, NoDup_submseteq; [exact Hnd |].
          intros c Hc. apply list_elem_of_In. apply list_elem_of_In in Hc.
          destruct (Hkeys1 c Hc) as [[] | Hl]. exact Hl.
        - intros c Hin. apply Hjoin. rewrite Hfl1 in Hin. exact Hin. }
      split; [| split].
      * rewrite adjustBufferSize_spec; [zl | | zl | zl].
        unfold Int64.in_range, Int64.min_int, Int64.max_int in *. zl.
      * destruct Hset as [[K (H1 & _)] _]. exact H1.
      * intros x Hx1 Hx2 Hx3. apply Settled_good; assumption.
  - apply prepareChunk_keeps_geometry.
  - rewrite Hblb0, Hcsz. exact Hcs.
  - unfold r. cbn [reg_b]. unfold Int64.in_range, Int64.min_int, Int64.max_int in *. zl.
  - rewrite Hblb0, Hsz. unfold Int64.in_range, Int64.min_int, Int64.max_int in *. zl.
  - rewrite Hblb0, Hcsz. unfold r. cbn [reg_b]. apply Z.rem_mul. zl.
  - rewrite Hblb0, Hcsz, Hsz. apply read_walk_fits.
Qed.

End ReadPath.

(** ** ReadAt: the bytes delivered *)

Lemma serve_truthful contents ck gid :
  truthful contents
    (Fetcher (fun _ req => inr (MultipartReader (map (serve contents) req) None)) ck gid).
Proof.
  intros k req mr pt Hreq Hfetch Hin. simpl in Hfetch. inversion Hfetch; subst mr.
  simpl in Hin. apply in_map_iff in Hin as (r & <- & Hr).
  split.
  - rewrite List.Forall_forall in Hreq. apply (Hreq r Hr).
  - intros j Hj. unfold serve, stream_of in *.
    cbn [part_body part_reg rd_pieces concat] in *. rewrite app_nil_r in *.
    unfold len in Hj. rewrite length_map, length_seq in Hj.
    unfold byte_at. destruct (Z.ltb_spec j 0) as [Hneg | _]; [lia |].
    rewrite (nth_indep _ x00 (contents (reg_b r + Z.of_nat 0)))
      by (rewrite length_map, length_seq; lia).
    rewrite (map_nth (fun k => contents (reg_b r + Z.of_nat k))).
    rewrite seq_nth by lia. f_equal. lia.
Qed.

Lemma empty_cache_ok contents cs size fr : cache_ok contents cs size fr empty_cache.
Proof. intros r data _ H. simpl in H. rewrite lookup_empty in H. discriminate. Qed.

(** C1: the writers registered for the missing chunks keep their cursor
    from one round of [fetchRange] to the next.  On the sample blob
    ["0123456789"] in chunks of 3, with an empty cache and a fetcher
    that serves the true bytes, a [ReadAt] of 3 bytes at offset 0 that
    joins the flight of another goroutine and then finds in the cache an
    entry for the chunk [0, 2] that stops after its first byte ["0"]
    copies that byte, fails the copy on [io.EOF], fetches the chunk in
    the next round and writes it one byte late: it returns 3 and no
    error with ["001"] in the buffer, where the blob has ["012"]. *)
Theorem ReadAt_short_entry_shifts :
  truthful sample_contents sample_fetcher
  /\ entries short_cache = <[genID sample_fetcher (Region 0 2) := [sample_contents 0]]> ∅
  /\ exists w',
       ReadAt 8 [x00; x00; x00] 0 short_entry_world = Done (3, None) w'
       /\ buf w' = [x30; x30; x31]
       /\ map (fun k => sample_contents (0 + k)) [0; 1; 2] = [x30; x31; x32]
       /\ trace w' = [EvDo; EvDo; EvFetch [Region 0 2]].
Proof.
  split; [apply serve_truthful |]. split; [reflexivity |].
  eexists. split; [vm_compute; reflexivity |].
  split; [reflexivity |]. split; reflexivity.
Qed.

(** The guarantee of [ReadAt_bytes] stops where the end of the request,
    rounded up to the next chunk boundary, leaves [int64]: three bytes
    before the end of a blob of [2^63 - 1] bytes, all of them [0x01],
    served by a fetcher that serves the true bytes, [ReadAt] reports two
    bytes read and leaves the zeroed buffer as it was. *)
Lemma ReadAt_bytes_overflow_counterexample :
  truthful ones ones_fetcher
  /\ exists w',
       ReadAt 8 [x00; x00] (2 ^ 63 - 3) ones_world = Done (2, None) w'
       /\ byte_at (buf w') 0 <> ones (2 ^ 63 - 3 + 0).
Proof.
  split; [apply serve_truthful |].
  eexists. split; [vm_compute; reflexivity |].
  vm_compute. discriminate.
Qed.

(** X14: on a blob whose fetcher serves the true bytes and whose cache,
    now and after every flight of another goroutine that this call
    joins, holds for a chunk either nothing or the whole chunk with its
    true bytes, a [ReadAt(p, offset)] with [offset >= 0] that succeeds
    with count [n] leaves [p] at its length with its first [n] bytes
    equal to the bytes of the blob over [offset, offset + n), whichever
    chunks were cached and wherever the request cuts its first and last
    chunk, provided the arithmetic stays within [int64]: the size plus
    one chunk, the end of the request rounded up to the next chunk
    boundary, and one chunk for each single-flight round and each part
    of a response (at most [P] parts to a request of no more regions
    than the request spans chunks). *)
Theorem ReadAt_bytes (contents : Z -> byte) (P : Z) (fuel : nat) (p : list byte)
    (offset n : Z) (w w' : world) :
  0 <= offset ->
  0 < b_chunkSize (blb w) ->
  b_size (blb w) + b_chunkSize (blb w) <= Int64.max_int ->
  (Z.quot (offset + len p - 1) (b_chunkSize (blb w)) + 1) * b_chunkSize (blb w)
    <= Int64.max_int ->
  truthful contents (b_fetcher (blb w)) ->
  cache_ok contents (b_chunkSize (blb w)) (b_size (blb w)) (b_fetcher (blb w))
    (b_cache (blb w)) ->
  (forall c, In (Join None c) (flights w) ->
     cache_ok contents (b_chunkSize (blb w)) (b_size (blb w)) (b_fetcher (blb w)) c) ->
  0 <= P ->
  (forall k req mr,
     (length req
      <= chunk_count (read_region w p offset) (b_chunkSize (blb w)) (b_size (blb w)))%nat ->
     fetch (b_fetcher (blb w)) k req = inr mr ->
     Z.of_nat (length (mr_parts mr)) <= P) ->
  (Z.of_nat (length (flights w)) + P) * b_chunkSize (blb w) <= Int64.max_int ->
  ReadAt fuel p offset w = Done (n, None) w' ->
  len (buf w') = len p
  /\ forall k, 0 <= k < n -> byte_at (buf w') k = contents (offset + k).
Proof.
  intros Hoff Hcs Hgrid Hceil Htruth Hcache Hjoin HP Hparts HK Hrun.
  destruct (b_closed (blb w)) eqn:Hclosed.
  { rewrite ReadAt_closed in Hrun by assumption. discriminate. }
  destruct ((len p =? 0) || (b_size (blb w) <? offset)) eqn:Hguard.
  { rewrite ReadAt_nothing in Hrun by assumption. inversion Hrun; subst n w'.
    split; [reflexivity | intros k Hk; lia]. }
  apply orb_false_iff in Hguard as [Hne Hin].
  apply Z.eqb_neq in Hne. apply Z.ltb_ge in Hin.
  pose proof (len_nonneg p) as Hp0.
  assert (HL : 0 < len p) by lia.
  assert (Hoff' : 0 <= offset <= b_size (blb w)) by lia.
  assert (Hsf : b_size (blb w) <= Int64.max_int) by lia.
  unfold read_region in Hparts.
  destruct (floor_request offset (b_chunkSize (blb w)) (b_size (blb w)) Hcs Hoff' Hsf)
    as (Hfloor & _).
  rewrite Hfloor in Hparts.
  rewrite (ceil_request offset (len p) (b_chunkSize (blb w)) (b_size (blb w))
             Hcs Hoff' HL Hceil) in Hparts.
  destruct (ReadAt_delivers contents offset (len p) (b_chunkSize (blb w))
              (b_size (blb w)) (b_fetcher (blb w)) Hcs Hoff' HL Hgrid Hceil
              P fuel p w n w' eq_refl Hclosed eq_refl eq_refl eq_refl
              Hcache Hjoin Htruth HP Hparts HK Hrun) as (Hn & Hlen & Hgood).
  split; [exact Hlen |].
  intros k Hk. specialize (Hgood (offset + k)). unfold good in Hgood.
  replace (offset + k - offset) with k in Hgood by lia.
  apply Hgood; lia.
Qed.

Lemma ReadAt_bytes_witness :
  exists w',
    ReadAt 8 [x00; x00; x00; x00] 1 contended_world = Done (4, None) w'
    /\ len (buf w') = 4
    /\ forall k, 0 <= k < 4 -> byte_at (buf w') k = sample_contents (1 + k).
Proof.
  eexists. split; [vm_compute; reflexivity |].
  refine (ReadAt_bytes sample_contents 2 8 [x00; x00; x00; x00] 1 4 contended_world _
            _ _ _ _ _ _ _ _ _ _ _).
  - lia.
  - simpl. lia.
  - vm_compute. congruence.
  - vm_compute. congruence.
  - apply serve_truthful.
  - apply empty_cache_ok.
  - intros c [Heq | [Heq | []]]; inversion Heq. apply empty_cache_ok.
  - lia.
  - intros k req mr Hlen Hfetch. simpl in Hfetch. inversion Hfetch; subst mr.
    cbn [mr_parts]. rewrite length_map.
    replace (chunk_count _ _ _) with 2%nat in Hlen by (vm_compute; reflexivity).
    lia.
  - vm_compute. congruence.
  - vm_compute. reflexivity.
Defined.

(** ** prepareChunksForRead: the windows stay inside the buffer *)

Section PrepareBounds.

Variables off L cs size : Z.
Hypothesis Hcs : 0 < cs.
Hypothesis Hoff : 0 <= off <= size.
Hypothesis HL : 0 < L.
Hypothesis Hsize : size <= Int64.max_int.
Hypothesis Hceil : (Z.quot (off + L - 1) cs + 1) * cs <= Int64.max_int.

(** The loop index never leaves [int64]: it stops at the chunk boundary
    that follows the request. *)
Lemma request_walk_fits :
  Z.quot off cs * cs
  + Z.of_nat (chunk_count
                (Region (Z.quot off cs * cs) ((Z.quot (off + L - 1) cs + 1) * cs - 1))
                cs size) * cs <= Int64.max_int.
Proof.
  destruct (floor_request off cs size Hcs Hoff Hsize) as (_ & Hb & Hq).
  unfold chunk_count. cbn [reg_b reg_e].
  set (q0 := Z.quot off cs) in *. set (q1 := Z.quot (off + L - 1) cs) in *.
  destruct (Z.leb_spec (q0 * cs) (Z.min ((q1 + 1) * cs - 1) (size - 1))) as [Hle | Hgt].
  2:{ simpl. lia. }
  assert (Hd0 : 0 <= (Z.min ((q1 + 1) * cs - 1) (size - 1) - q0 * cs) / cs)
    by (apply Z.div_pos; lia).
  assert (Hd1 : (Z.min ((q1 + 1) * cs - 1) (size - 1) - q0 * cs) / cs < q1 + 1 - q0).
  { apply Z.div_lt_upper_bound; [exact Hcs |]. nia. }
  rewrite Z2Nat.id by lia. nia.
Qed.

(** Every chunk of the walk is looked up or registered without leaving
    the buffer: the preparation returns normally. *)
Lemma prepare_all_done fr :
  forall l w,
    (forall c, In c l -> relevant off L cs size c) ->
    len (buf w) = L ->
    exists w1,
      for_each (prepareChunk off fr) l w = Done None w1
      /\ len (buf w1) = L
      /\ blb w1 = blb w.
Proof.
  induction l as [| c l IH]; intros w Hrel Hlen.
  - exists w. repeat split; assumption.
  - assert (Hrc : relevant off L cs size c) by (apply Hrel; left; reflexivity).
    destruct (relevant_in_bounds off L cs size Hcs Hoff HL Hsize Hceil c Hrc)
      as (B1 & B2 & B3).
    destruct (relevant_window off L cs size Hcs Hoff HL Hsize Hceil c Hrc)
      as (_ & W2 & _).
    pose proof (request_end_fits off L cs Hcs Hceil) as Hend.
    destruct (prepareChunk_run off fr c w L (chunk_base off c) (chunk_lowerUnread off c)
                (chunk_expectedSize off L c))
      as (buf' & A' & Hprep & Hlen' & _);
      try reflexivity; try assumption; try (symmetry; assumption); try lia.
    destruct (IH (with_allData A' (with_buf buf' w))) as (w1 & Hrest & Hl1 & Hb1).
    + intros c' Hin. apply Hrel. right. exact Hin.
    + exact Hlen'.
    + exists w1. simpl. unfold bind at 1. rewrite Hprep.
      refine (conj Hrest (conj Hl1 _)). rewrite Hb1. reflexivity.
Qed.

End PrepareBounds.

(** C10: the read path can panic with every window in bounds.
    [cacheChunkData] marks every chunk it commits in [fetched], also one
    that was never registered in [allData]; when the response carries
    such a chunk a second time, the test on [fetched] succeeds and the
    bytes are teed into [allData[chunk]], a nil [io.Writer].  On the
    sample blob, a [ReadAt] of one byte at offset 0 whose fetch is
    answered with the chunk [3, 5] twice prepares its single chunk
    [0, 2] normally and panics in the fetch phase. *)
Theorem ReadAt_repeated_part_panics :
  0 <= 0 <= b_size (blb doubling_world)
  /\ (exists w1,
        prepareChunksForRead 8 (read_region doubling_world [x00] 0) 0 doubling_fetcher
          (with_allData [] (with_buf [x00] doubling_world)) = Done None w1
        /\ map fst (allData w1) = [Region 0 2])
  /\ ReadAt 8 [x00] 0 doubling_world = Crash PanicNilWriter.
Proof.
  split; [vm_compute; split; congruence |].
  split; [eexists; split; vm_compute; reflexivity |].
  vm_compute. reflexivity.
Qed.

(** The bounds of [prepare_in_bounds] stop where the end of the request,
    rounded up to the next chunk boundary, leaves [int64]: the loop
    index of [walkChunks] wraps around to a chunk far below the request,
    whose window is not in the buffer. *)
Lemma prepare_overflow_counterexample :
  0 <= 2 ^ 63 - 3 <= b_size (blb huge_world)
  /\ ReadAt 8 [x00; x00] (2 ^ 63 - 3) huge_world = Crash PanicSliceBounds.
Proof. split; [vm_compute; split; congruence | vm_compute; reflexivity]. Qed.

(** X15: for a [ReadAt] with [0 <= offset <= size] and a non-empty
    buffer whose end, rounded up to the next chunk boundary, fits in
    [int64], [prepareChunksForRead] visits the chunks of the request
    region in order, each of them has [0 <= base], [0 <= expectedSize]
    and [base + expectedSize <= len p], and the preparation returns
    normally; a negative [offset] passes the guard [offset > size] and
    panics on the slice expression. *)
Theorem prepare_in_bounds (fuel : nat) (p : list byte) (offset : Z) (w : world) :
  0 <= offset <= b_size (blb w) ->
  p <> [] ->
  0 < b_chunkSize (blb w) ->
  b_size (blb w) <= Int64.max_int ->
  (Z.quot (offset + len p - 1) (b_chunkSize (blb w)) + 1) * b_chunkSize (blb w)
    <= Int64.max_int ->
  (forall c,
     In c (spec_chunks (read_region w p offset) (b_chunkSize (blb w)) (b_size (blb w))) ->
     0 <= chunk_base offset c
     /\ 0 <= chunk_expectedSize offset (len p) c
     /\ chunk_base offset c + chunk_expectedSize offset (len p) c <= len p)
  /\ ((chunk_count (read_region w p offset) (b_chunkSize (blb w)) (b_size (blb w))
       < fuel)%nat ->
      prepareChunksForRead fuel (read_region w p offset) offset (b_fetcher (blb w))
        (with_allData [] (with_buf p w))
      = for_each (prepareChunk offset (b_fetcher (blb w)))
          (spec_chunks (read_region w p offset) (b_chunkSize (blb w)) (b_size (blb w)))
          (with_allData [] (with_buf p w))
      /\ exists w1,
           prepareChunksForRead fuel (read_region w p offset) offset (b_fetcher (blb w))
             (with_allData [] (with_buf p w)) = Done None w1)
  /\ ReadAt 8 [x00] (-2) sample_world = Crash PanicSliceBounds.
Proof.
  intros Hoff Hp Hcs Hsize Hceil.
  assert (HL : 0 < len p).
  { pose proof (len_nonneg p). destruct p; [contradiction |].
    unfold len. simpl length. lia. }
  destruct (floor_request offset (b_chunkSize (blb w)) (b_size (blb w)) Hcs Hoff Hsize)
    as (Hfloor & Hb & Hq).
  pose proof (ceil_request offset (len p) (b_chunkSize (blb w)) (b_size (blb w))
                Hcs Hoff HL Hceil) as Hce.
  unfold read_region. rewrite Hfloor, Hce.
  set (r := Region (Z.quot offset (b_chunkSize (blb w)) * b_chunkSize (blb w))
                   ((Z.quot (offset + len p - 1) (b_chunkSize (blb w)) + 1)
                    * b_chunkSize (blb w) - 1)).
  assert (Hrel : forall c,
            In c (spec_chunks r (b_chunkSize (blb w)) (b_size (blb w))) ->
            relevant offset (len p) (b_chunkSize (blb w)) (b_size (blb w)) c).
  { intros c Hin.
    exact (spec_chunks_relevant offset (len p) (b_chunkSize (blb w)) (b_size (blb w))
             Hcs Hoff HL Hsize Hceil c Hin). }
  split; [| split].
  - intros c Hin.
    exact (relevant_in_bounds offset (len p) (b_chunkSize (blb w)) (b_size (blb w))
             Hcs Hoff HL Hsize Hceil c (Hrel c Hin)).
  - intros Hfuel.
    set (w0 := with_allData [] (with_buf p w)).
    assert (Hwalk :
      prepareChunksForRead fuel r offset (b_fetcher (blb w)) w0
      = for_each (prepareChunk offset (b_fetcher (blb w)))
          (spec_chunks r (b_chunkSize (blb w)) (b_size (blb w))) w0).
    { unfold prepareChunksForRead.
      apply (walkChunks_for_each fuel r _ w0).
      - apply prepareChunk_keeps_geometry.
      - exact Hcs.
      - unfold r. cbn [reg_b].
        unfold Int64.in_range, Int64.min_int, Int64.max_int in *. lia.
      - change (blb w0) with (blb w).
        unfold Int64.in_range, Int64.min_int, Int64.max_int in *. lia.
      - unfold r. cbn [reg_b]. apply Z.rem_mul. change (blb w0) with (blb w). lia.
      - change (blb w0) with (blb w). unfold r. cbn [reg_b].
        apply request_walk_fits; assumption.
      - exact Hfuel. }
    split; [exact Hwalk |].
    destruct (prepare_all_done offset (len p) (b_chunkSize (blb w)) (b_size (blb w))
                Hcs Hoff HL Hsize Hceil (b_fetcher (blb w))
                (spec_chunks r (b_chunkSize (blb w)) (b_size (blb w))) w0 Hrel eq_refl)
      as (w1 & Hdone & _).
    exists w1. rewrite Hwalk. exact Hdone.
  - vm_compute. reflexivity.
Qed.

Lemma prepare_in_bounds_witness :
  (forall c,
     In c (spec_chunks (read_region sample_world [x00; x00; x00; x00] 1) 3 10) ->
     0 <= chunk_base 1 c
     /\ 0 <= chunk_expectedSize 1 4 c
     /\ chunk_base 1 c + chunk_expectedSize 1 4 c <= 4)
  /\ exists w1,
       prepareChunksForRead 8 (read_region sample_world [x00; x00; x00; x00] 1) 1
         sample_fetcher (with_allData [] (with_buf [x00; x00; x00; x00] sample_world))
       = Done None w1.
Proof.
  destruct (prepare_in_bounds 8 [x00; x00; x00; x00] 1 sample_world)
    as (Hbounds & Hrun & _).
  - simpl. lia.
  - discriminate.
  - simpl. lia.
  - vm_compute. congruence.
  - vm_compute. congruence.
  - split; [exact Hbounds |].
    destruct Hrun as [_ Hdone]; [vm_compute; lia | exact Hdone].
Defined.

(** ** fetchRange: retries after a shared flight *)

(** A waiter whose cache lacks the first chunk it wants gets an error
    from [handleSharedFetch], and nothing has changed. *)
Lemma copyFetchedChunks_miss fuel w reg0 :
  entries (b_cache (blb w)) = ∅ ->
  b_chunkSize (blb w) <> 0 ->
  reg_b reg0 <= reg_e reg0 ->
  reg_b reg0 < b_size (blb w) ->
  exists e, copyFetchedChunks (S fuel) reg0 w = Done (Some e) w.
Proof.
  intros Hc Hcs Hbe Hbs.
  unfold copyFetchedChunks, walkChunks, bind, gets.
  destruct (Z.eqb_spec (b_chunkSize (blb w)) 0) as [| _]; [contradiction |].
  destruct (negb (Int64.rem (reg_b reg0) (b_chunkSize (blb w)) =? 0)).
  { eexists. reflexivity. }
  cbn [walk_loop]. unfold bind, gets.
  assert (Hcond : (reg_b reg0 <=? reg_e reg0) && (reg_b reg0 <? b_size (blb w)) = true).
  { apply andb_true_iff. split; [apply Z.leb_le | apply Z.ltb_lt]; assumption. }
  rewrite Hcond. cbv zeta.
  unfold copyFetchedChunk, getFetcher, bind, gets.
  rewrite Hc, lookup_empty. eexists. reflexivity.
Qed.

Lemma handleSharedFetch_miss fuel w reg0 wr0 m :
  allData w = (reg0, wr0) :: m ->
  fetched w = [] ->
  entries (b_cache (blb w)) = ∅ ->
  b_chunkSize (blb w) <> 0 ->
  reg_b reg0 <= reg_e reg0 ->
  reg_b reg0 < b_size (blb w) ->
  exists e, handleSharedFetch (S fuel) w = Done (Some e) w.
Proof.
  intros Hm Hf Hc Hcs Hbe Hbs.
  destruct (copyFetchedChunks_miss fuel w reg0 Hc Hcs Hbe Hbs) as [e He].
  exists e.
  unfold handleSharedFetch, bind, gets. rewrite Hm.
  cbn [map fst shared_loop]. unfold bind, gets. rewrite Hf.
  cbn [map_get]. rewrite He. reflexivity.
Qed.

Lemma missed_round_rounds w : rounds (missed_round w) = S (rounds w).
Proof.
  unfold rounds, missed_round. cbn [trace with_blb with_flights log with_fetched].
  rewrite List.filter_app, length_app. simpl. lia.
Qed.

(** C4 fails as stated: with two flights of other goroutines ahead whose
    results are not in the cache, one call of [fetchRange] goes through
    three rounds, the second and the third of them retries. *)
Lemma fetchRange_retries_twice :
  exists w', fetchRange 8 waiting_world = Done None w' /\ rounds w' = 3%nat.
Proof. eexists. split; vm_compute; reflexivity. Qed.

(** C4, amended: in [fetchRange], each time the caller receives a shared
    single-flight result and its re-read of the regions from the cache
    fails, the whole [fetchRange] is run again; [n] such results in a row
    make [n] retries, for every [n]: the depth of the recursion has no
    bound of its own. *)
Theorem fetchRange_retry_per_miss (n fuel : nat) :
  forall (w : world) (reg0 : region) (wr0 : writer) (m : list (region * writer))
         (rest : list flight),
    allData w = (reg0, wr0) :: m ->
    b_chunkSize (blb w) <> 0 ->
    reg_b reg0 <= reg_e reg0 ->
    reg_b reg0 < b_size (blb w) ->
    flights w = repeat (Join None empty_cache) n ++ rest ->
    fetchRange (n + S fuel) w = fetchRange (S fuel) (Nat.iter n missed_round w)
    /\ rounds (Nat.iter n missed_round w) = (n + rounds w)%nat
    /\ flights (Nat.iter n missed_round w) = rest.
Proof.
  induction n as [| n IH]; intros w reg0 wr0 m rest Hm Hcs Hbe Hbs Hfl.
  - simpl. auto.
  - rewrite Nat.iter_succ_r.
    destruct (IH (missed_round w) reg0 wr0 m rest) as (Hrun & Hrounds & Hrest);
      try assumption.
    { unfold missed_round. cbn [flights with_blb with_flights]. rewrite Hfl. reflexivity. }
    rewrite <- Hrun, Hrounds, missed_round_rounds, Hrest.
    refine (conj _ (conj _ eq_refl)); [| lia].
    change (S n + S fuel)%nat with (S (n + S fuel)).
    cbn [fetchRange]. unfold singleflight_Do. unfold bind, gets, modify, ret. rewrite Hm.
    cbn [flights log with_fetched]. rewrite Hfl. cbn [repeat app].
    replace (with_blb (set_cache empty_cache)
               (with_flights (repeat (Join None empty_cache) n ++ rest)
                  (log EvDo (with_fetched [] w))))
      with (missed_round w)
      by (unfold missed_round; rewrite Hfl; reflexivity).
    destruct (handleSharedFetch_miss (n + S fuel) (missed_round w) reg0 wr0 m)
      as [e He]; try assumption; try reflexivity.
    rewrite He. reflexivity.
Qed.

Lemma fetchRange_retry_per_miss_witness :
  fetchRange (2 + 6) waiting_world
    = fetchRange 6 (Nat.iter 2 missed_round waiting_world)
  /\ rounds (Nat.iter 2 missed_round waiting_world) = (2 + rounds waiting_world)%nat
  /\ flights (Nat.iter 2 missed_round waiting_world) = [].
Proof.
  apply (fetchRange_retry_per_miss 2 5 waiting_world (Region 0 2)
           (newBytesWriter (Slice 0 2) 1) [] []).
  - reflexivity.
  - simpl. discriminate.
  - simpl. lia.
  - simpl. lia.
  - reflexivity.
Defined.

(** * Further properties of blob.go *)

(** ** Lifecycle *)

(** X1: [Close] on an open blob closes the cache handle once and returns
    what [cache.Close] returns; a second [Close] returns [nil] and does
    not touch the cache again. *)
Theorem Close_once (w : world) :
  b_closed (blb w) = false ->
  exists w1,
    Close w = Done (closeErr (b_cache (blb w))) w1
    /\ trace w1 = trace w ++ [EvCacheClose]
    /\ Close w1 = Done None w1
    /\ forall w2 r, Close w1 = Done r w2 -> trace w2 = trace w ++ [EvCacheClose].
Proof.
  intros Hopen. unfold Close at 1. unfold bind, gets, modify, ret. rewrite Hopen.
  eexists. split; [reflexivity |]. split; [reflexivity |].
  assert (Hagain : forall w1, b_closed (blb w1) = true -> Close w1 = Done None w1).
  { intros w1 H1. unfold Close, bind, gets, ret. rewrite H1. reflexivity. }
  split.
  - apply Hagain. reflexivity.
  - intros w2 r Hrun. rewrite Hagain in Hrun by reflexivity.
    inversion Hrun; subst. reflexivity.
Qed.

Lemma Close_once_witness :
  exists w1,
    Close sample_world = Done None w1
    /\ trace w1 = [EvCacheClose]
    /\ Close w1 = Done None w1
    /\ forall w2 r, Close w1 = Done r w2 -> trace w2 = [EvCacheClose].
Proof. apply (Close_once sample_world). reflexivity. Defined.

(** X2: a [Refresh] whose resolver hands back a fetcher of the same size
    installs it, stamps [lastCheck] with the current time and changes
    nothing else, so that a [Check] arriving before [checkInterval] has
    elapsed returns [nil] without probing the new fetcher; an error of
    the resolver is returned as it is and leaves the blob alone. *)
Theorem Refresh_renews (w : world) (f : fetcher) :
  b_closed (blb w) = false ->
  exists w',
    Refresh (Resolved f (b_size (blb w))) w = Done None w'
    /\ b_fetcher (blb w') = f
    /\ b_lastCheck (blb w') = clock w (tick w)
    /\ b_size (blb w') = b_size (blb w)
    /\ b_cache (blb w') = b_cache (blb w)
    /\ trace w' = trace w
    /\ (time_Sub (clock w (S (tick w))) (clock w (tick w)) < b_checkInterval (blb w) ->
        exists w'', Check w' = Done None w'' /\ trace w'' = trace w)
    /\ (forall e, Refresh (ResolveFailed e) w = Done (Some e) w).
Proof.
  intros Hopen.
  unfold Refresh, isClosed, time_Now, bind, gets, modify, ret. rewrite Hopen.
  rewrite Z.eqb_refl. cbn [negb].
  eexists. split; [reflexivity |].
  repeat (split; [reflexivity |]).
  split; [| reflexivity].
  intros Hsoon. rewrite Check_open by exact Hopen.
  unfold check_due. cbn [clock tick blb with_blb with_tick b_lastCheck b_checkInterval
                         set_lastCheck set_fetcher].
  apply Z.ltb_lt in Hsoon. rewrite Hsoon. cbn [negb].
  eexists. split; reflexivity.
Qed.

Lemma Refresh_renews_witness :
  exists w',
    Refresh (Resolved failing_fetcher 10)
      (make_world (Blob sample_fetcher 10 3 0 empty_cache 0 5 0 [] false) []) = Done None w'
    /\ b_fetcher (blb w') = failing_fetcher
    /\ exists w'', Check w' = Done None w'' /\ trace w'' = [].
Proof.
  destruct (Refresh_renews
              (make_world (Blob sample_fetcher 10 3 0 empty_cache 0 5 0 [] false) [])
              failing_fetcher eq_refl)
    as (w' & Hrun & Hf & _ & _ & _ & _ & Hcheck & _).
  exists w'. split; [exact Hrun |]. split; [exact Hf |].
  apply Hcheck. vm_compute. reflexivity.
Defined.

(** ** ReadAt: the count *)

Lemma adjustBufferSize_bounds lenp offset size :
  0 <= lenp -> 0 <= adjustBufferSize lenp offset size <= lenp.
Proof.
  intros H. unfold adjustBufferSize.
  destruct (Z.leb_spec (Int64.sub size offset) lenp);
    [destruct (Z.ltb_spec (Int64.sub size offset) 0) |]; lia.
Qed.

(** X3: whatever [ReadAt] returns, the count lies between [0] and
    [len p], so the re-slicing [p[:n]] of a caller is always in range,
    and it is [0] whenever an error is returned. *)
Theorem ReadAt_count_in_buffer (fuel : nat) (p : list byte) (offset : Z) (w : world)
    (n : Z) (err : option error) (w' : world) :
  ReadAt fuel p offset w = Done (n, err) w' ->
  0 <= n <= len p /\ (err <> None -> n = 0).
Proof.
  intros Hrun. pose proof (len_nonneg p) as Hp.
  destruct (b_closed (blb w)) eqn:Hclosed.
  { rewrite ReadAt_closed in Hrun by assumption. inversion Hrun; subst. lia. }
  destruct ((len p =? 0) || (b_size (blb w) <? offset)) eqn:Hguard.
  { rewrite ReadAt_nothing in Hrun by assumption. inversion Hrun; subst. lia. }
  destruct (Z.eq_dec (b_chunkSize (blb w)) 0) as [Hz | Hnz].
  { rewrite ReadAt_zero_chunk in Hrun by assumption. discriminate. }
  rewrite ReadAt_open in Hrun by assumption.
  destruct (prepareChunksForRead _ _ _ _ _) as [[e |] w1 | |]; try discriminate.
  { inversion Hrun; subst. lia. }
  destruct (fetchRange fuel w1) as [[e |] w2 | |]; try discriminate.
  { inversion Hrun; subst. lia. }
  inversion Hrun; subst n err w'.
  pose proof (adjustBufferSize_bounds (len p) offset (b_size (blb w)) Hp).
  split; [lia | congruence].
Qed.

Lemma ReadAt_count_in_buffer_witness :
  exists w',
    ReadAt 8 [x00; x00; x00; x00] 8 sample_world = Done (2, None) w'
    /\ 0 <= 2 <= 4.
Proof.
  eexists. split; [vm_compute; reflexivity |].
  refine (proj1 (ReadAt_count_in_buffer 8 [x00; x00; x00; x00] 8 sample_world 2 None _ _)).
  vm_compute. reflexivity.
Defined.

(** ** walkChunks: the edges *)

(** X4: [walkChunks] on a blob whose chunk size is zero panics on the
    alignment test; on an aligned region that is empty or starts at or
    after the end of the blob it returns [nil] without calling the walk
    function. *)
Theorem walkChunks_edges (fuel : nat) (r : region) (fn : walkFunc) (w : world) :
  (b_chunkSize (blb w) = 0 -> walkChunks fuel r fn w = Crash PanicDivideByZero)
  /\ (b_chunkSize (blb w) <> 0 ->
      Z.rem (reg_b r) (b_chunkSize (blb w)) = 0 ->
      reg_e r < reg_b r \/ b_size (blb w) <= reg_b r ->
      walkChunks (S fuel) r fn w = Done None w).
Proof.
  split.
  - intros Hz. unfold walkChunks, bind, gets, crash. rewrite Hz. reflexivity.
  - intros Hnz Hrem Hedge.
    rewrite walkChunks_aligned by assumption.
    simpl. unfold bind, gets, ret.
    assert (Hcond : (reg_b r <=? reg_e r) && (reg_b r <? b_size (blb w)) = false).
    { apply andb_false_iff. destruct Hedge; [left; apply Z.leb_gt | right; apply Z.ltb_ge];
        assumption. }
    rewrite Hcond. reflexivity.
Qed.

(** ** floor *)

(** X5: [floor(n, u)] is the multiple of [u] next to [n] in the direction
    of zero: at most [n] for [n >= 0], at least [n] for [n <= 0], less
    than one unit away either way. *)
Theorem floor_toward_zero (n u : Z) :
  Int64.in_range n -> 0 < u ->
  Z.rem (floor n u) u = 0
  /\ (0 <= n -> floor n u <= n < floor n u + u)
  /\ (n <= 0 -> floor n u - u < n <= floor n u /\ floor n u <= 0).
Proof.
  intros Hn Hu. unfold floor. rewrite quot_small by assumption.
  destruct (quot_abs_le n u Hu) as [Hpos Hneg].
  pose proof (Z.quot_rem' n u) as Hqr.
  assert (Hrpos : 0 <= n -> 0 <= Z.rem n u < u)
    by (intros H0; apply Z.rem_bound_pos; lia).
  assert (Hrneg : n <= 0 -> - u < Z.rem n u <= 0).
  { intros H0. apply Z.rem_bound_pos_neg; lia. }
  assert (Hrem : Z.rem (Z.quot n u * u) u = 0) by (apply Z.rem_mul; lia).
  unfold Int64.in_range, Int64.min_int, Int64.max_int in Hn.
  set (q := Z.quot n u) in *. set (r := Z.rem n u) in *. clearbody q r.
  assert (Hmul : Int64.mul q u = q * u).
  { unfold Int64.mul. apply wrap_id.
    unfold Int64.in_range, Int64.min_int, Int64.max_int.
    destruct (Z_le_gt_dec 0 n) as [H0 | H0].
    - specialize (Hpos H0). specialize (Hrpos H0). nia.
    - specialize (Hneg ltac:(lia)). specialize (Hrneg ltac:(lia)). nia. }
  rewrite Hmul. split; [exact Hrem |]. clear Hrem Hmul. split.
  - intros H0. specialize (Hrpos H0). specialize (Hpos H0). nia.
  - intros H0. specialize (Hrneg H0). specialize (Hneg H0). nia.
Qed.

Lemma floor_toward_zero_witness :
  Z.rem (floor (-7) 3) 3 = 0
  /\ (0 <= -7 -> floor (-7) 3 <= -7 < floor (-7) 3 + 3)
  /\ (-7 <= 0 -> floor (-7) 3 - 3 < -7 <= floor (-7) 3 /\ floor (-7) 3 <= 0).
Proof.
  apply (floor_toward_zero (-7) 3).
  - unfold Int64.in_range, Int64.min_int, Int64.max_int. lia.
  - lia.
Defined.

(** ** bytesWriter.Write *)

Lemma byte_at_ext (a b : list byte) :
  len a = len b ->
  (forall t, 0 <= t < len a -> byte_at a t = byte_at b t) ->
  a = b.
Proof.
  intros Hlen Hbytes. unfold len in *.
  apply (nth_ext a b x00 x00); [lia |].
  intros n Hn. specialize (Hbytes (Z.of_nat n) ltac:(lia)).
  unfold byte_at in Hbytes. destruct (Z.ltb_spec (Z.of_nat n) 0); [lia |].
  rewrite Nat2Z.id in Hbytes. exact Hbytes.
Qed.

(** X6: a [Write] of block [q] with the cursor at [cur], on a writer
    whose window [dest] lies inside the buffer, never panics and never
    fails; it advances the cursor by [len q], keeps the length of the
    buffer, changes no byte outside the window, and puts every byte of
    [q] whose stream position [k] falls in [destOff, destOff + len dest)
    at index [k - destOff] of the window. *)
Theorem bytesWriter_Write_window (sb ex lo cur : Z) (q : list byte) (w : world) :
  0 <= sb -> 0 <= ex -> sb + ex <= len (buf w) ->
  0 <= lo -> 0 <= cur ->
  lo + ex <= Int64.max_int -> cur + len q <= Int64.max_int ->
  exists buf',
    bytesWriter_Write (BytesWriterOf (Slice sb ex) lo cur) q w
      = Done (BytesWriterOf (Slice sb ex) lo (cur + len q)) (with_buf buf' w)
    /\ len buf' = len (buf w)
    /\ (forall t, ~ (sb <= t < sb + ex) -> byte_at buf' t = byte_at (buf w) t)
    /\ (forall k, cur <= k < cur + len q -> lo <= k < lo + ex ->
          byte_at buf' (sb + (k - lo)) = byte_at q (k - cur)).
Proof.
  intros H1 H2 H3 H4 H5 H6 H7.
  destruct (bytesWriter_Write_run sb ex lo cur q w H1 H2 H3 H4 H5 H6 H7)
    as (buf' & Hrun & Hlen & Hbytes).
  exists buf'. split; [exact Hrun |]. split; [exact Hlen |]. split.
  - intros t Ht. rewrite Hbytes.
    destruct (Z.leb_spec (sb + Z.max cur lo - lo) t);
      destruct (Z.ltb_spec t (sb + Z.min (cur + len q) (lo + ex) - lo));
      simpl; try reflexivity. lia.
  - intros k Hk1 Hk2. rewrite Hbytes.
    destruct (Z.leb_spec (sb + Z.max cur lo - lo) (sb + (k - lo))); [| lia].
    destruct (Z.ltb_spec (sb + (k - lo)) (sb + Z.min (cur + len q) (lo + ex) - lo));
      [| lia].
    simpl. f_equal. lia.
Qed.

Lemma bytesWriter_Write_window_witness :
  exists buf',
    bytesWriter_Write (BytesWriterOf (Slice 1 2) 1 0) [x61; x62; x63; x64]
      (with_buf [x00; x00; x00; x00] sample_world)
      = Done (BytesWriterOf (Slice 1 2) 1 (0 + 4))
             (with_buf buf' (with_buf [x00; x00; x00; x00] sample_world))
    /\ len buf' = 4
    /\ (forall t, ~ (1 <= t < 1 + 2) -> byte_at buf' t = x00)
    /\ byte_at buf' 1 = x62 /\ byte_at buf' 2 = x63.
Proof.
  destruct (bytesWriter_Write_window 1 2 1 0 [x61; x62; x63; x64]
              (with_buf [x00; x00; x00; x00] sample_world))
    as (buf' & Hrun & Hlen & Hout & Hin);
    try (vm_compute; congruence).
  exists buf'. split; [exact Hrun |]. split; [exact Hlen |]. split.
  - intros t Ht. rewrite (Hout t Ht). unfold byte_at. cbn [buf with_buf].
    destruct (t <? 0); [reflexivity |].
    destruct (Z.to_nat t) as [| [| [| [| [| m]]]]]; reflexivity.
  - split.
    + apply (Hin 1); vm_compute; split; congruence.
    + apply (Hin 2); vm_compute; split; congruence.
Defined.

(** X7: what a [bytesWriter] leaves in the buffer does not depend on how
    the stream is cut into blocks: writing [q1] and then [q2] gives the
    same buffer and the same cursor as writing [q1 ++ q2] at once. *)
Theorem bytesWriter_Write_split (sb ex lo cur : Z) (q1 q2 : list byte) (w : world) :
  0 <= sb -> 0 <= ex -> sb + ex <= len (buf w) ->
  0 <= lo -> 0 <= cur ->
  lo + ex <= Int64.max_int -> cur + len q1 + len q2 <= Int64.max_int ->
  (let* bw1 := bytesWriter_Write (BytesWriterOf (Slice sb ex) lo cur) q1 in
   bytesWriter_Write bw1 q2) w
  = bytesWriter_Write (BytesWriterOf (Slice sb ex) lo cur) (q1 ++ q2) w.
Proof.
  intros H1 H2 H3 H4 H5 H6 H7.
  pose proof (len_nonneg q1) as Hq1. pose proof (len_nonneg q2) as Hq2.
  destruct (bytesWriter_Write_run sb ex lo cur q1 w H1 H2 H3 H4 H5 H6 ltac:(lia))
    as (b1 & Hrun1 & Hlen1 & Hb1).
  destruct (bytesWriter_Write_run sb ex lo (cur + len q1) q2 (with_buf b1 w)
              H1 H2 ltac:(cbn [buf with_buf]; lia) H4 ltac:(lia) H6 ltac:(lia))
    as (b2 & Hrun2 & Hlen2 & Hb2).
  destruct (bytesWriter_Write_run sb ex lo cur (q1 ++ q2) w H1 H2 H3 H4 H5 H6
              ltac:(rewrite len_app; lia))
    as (b & Hrun & Hlen & Hb).
  unfold bind. rewrite Hrun1, Hrun2, Hrun.
  cbn [buf with_buf] in Hlen2, Hb2.
  rewrite len_app, Z.add_assoc.
  replace b2 with b; [reflexivity |].
  apply byte_at_ext; [lia |].
  intros t Ht. rewrite Hb, Hb2, Hb1. rewrite len_app.
  destruct (Z.leb_spec (sb + Z.max cur lo - lo) t);
    destruct (Z.ltb_spec t (sb + Z.min (cur + (len q1 + len q2)) (lo + ex) - lo));
    destruct (Z.leb_spec (sb + Z.max (cur + len q1) lo - lo) t);
    destruct (Z.ltb_spec t (sb + Z.min (cur + len q1 + len q2) (lo + ex) - lo));
    destruct (Z.ltb_spec t (sb + Z.min (cur + len q1) (lo + ex) - lo));
    simpl; try reflexivity; try lia.
  - rewrite byte_at_app_r by lia. f_equal. lia.
  - rewrite byte_at_app_l by lia. reflexivity.
Qed.

Lemma bytesWriter_Write_split_witness :
  (let* bw1 := bytesWriter_Write (BytesWriterOf (Slice 1 2) 1 0) [x61; x62] in
   bytesWriter_Write bw1 [x63; x64]) (with_buf [x00; x00; x00; x00] sample_world)
  = bytesWriter_Write (BytesWriterOf (Slice 1 2) 1 0) ([x61; x62] ++ [x63; x64])
      (with_buf [x00; x00; x00; x00] sample_world).
Proof.
  apply (bytesWriter_Write_split 1 2 1 0 [x61; x62] [x63; x64]
           (with_buf [x00; x00; x00; x00] sample_world));
    vm_compute; congruence.
Defined.

(** ** What reading and prefetching leave alone *)

Section KeepsSettings.

Lemma time_Now_keeps_settings : keeps settings time_Now.
Proof. intros w a w' H. inversion H; subst. reflexivity. Qed.

Ltac ks tac :=
  repeat (keeps_step
          || apply time_Now_keeps_settings
          || tac
          || match goal with
             | |- keeps _ (match ?x with inl _ => _ | inr _ => _ end) => destruct x
             | |- keeps _ (match ?x with [] => _ | _ :: _ => _ end) => destruct x
             | |- keeps _ (match ?x with (_, _) => _ end) => destruct x
             | |- keeps _ (match ?x with Lead _ => _ | Join _ _ => _ end) => destruct x
             end).

Lemma write_to_keeps_settings c q : keeps settings (write_to c q).
Proof. unfold write_to, bytesWriter_Write. ks fail. Qed.

Lemma copy_blocks_keeps_settings write rerr :
  (forall q, keeps settings (write q)) ->
  forall blocks n, keeps settings (copy_blocks write n blocks rerr).
Proof.
  intros Hw. induction blocks as [| q rest IH]; intros n; simpl.
  - ks fail.
  - ks ltac:(apply Hw || apply IH).
Qed.

Lemma cacheChunkData_keeps_settings c fr : keeps settings (cacheChunkData c fr).
Proof.
  unfold cacheChunkData, io_CopyN. cbv zeta.
  keeps_step; [keeps_step |]. keeps_step; [keeps_step |].
  keeps_step; [keeps_step |]. keeps_step; [keeps_step |].
  match goal with
  | |- context [map_get c ?f] => destruct (map_get c f)
  end;
    ks ltac:((apply copy_blocks_keeps_settings; intros ?)
             || apply write_to_keeps_settings).
Qed.

Lemma walk_loop_keeps_settings fn :
  (forall c, keeps settings (fn c)) ->
  forall fuel e i, keeps settings (walk_loop fuel fn e i).
Proof.
  intros Hfn. induction fuel as [| fuel IH]; intros e i; simpl.
  - apply keeps_out_of_fuel.
  - ks ltac:(apply Hfn || apply IH).
Qed.

Lemma walkChunks_keeps_settings fn fuel r :
  (forall c, keeps settings (fn c)) -> keeps settings (walkChunks fuel r fn).
Proof.
  intros Hfn. unfold walkChunks.
  ks ltac:(apply walk_loop_keeps_settings || apply Hfn).
Qed.

Lemma next_parts_keeps_settings fuel fr final :
  forall parts, keeps settings (next_parts fuel fr parts final).
Proof.
  induction parts as [| pt rest IH]; simpl.
  - ks fail.
  - ks ltac:(apply IH
             || (apply walkChunks_keeps_settings; intros ?)
             || apply cacheChunkData_keeps_settings).
Qed.

Lemma fetchRegions_keeps_settings fuel : keeps settings (fetchRegions fuel).
Proof.
  unfold fetchRegions, getFetcher, do_fetch.
  ks ltac:(apply next_parts_keeps_settings).
Qed.

Lemma copyFetchedChunks_keeps_settings fuel reg :
  keeps settings (copyFetchedChunks fuel reg).
Proof.
  unfold copyFetchedChunks. apply walkChunks_keeps_settings. intros c.
  unfold copyFetchedChunk, getFetcher, io_CopyN.
  ks ltac:((apply copy_blocks_keeps_settings; intros ?)
           || apply write_to_keeps_settings).
Qed.

Lemma shared_loop_keeps_settings fuel :
  forall regs, keeps settings (shared_loop fuel regs).
Proof.
  induction regs as [| reg rest IH]; simpl.
  - ks fail.
  - ks ltac:(apply IH || apply copyFetchedChunks_keeps_settings).
Qed.

Lemma fetchRange_keeps_settings : forall fuel, keeps settings (fetchRange fuel).
Proof.
  induction fuel as [| fuel IH]; simpl.
  - apply keeps_out_of_fuel.
  - unfold singleflight_Do, handleSharedFetch.
    ks ltac:(apply IH || apply fetchRegions_keeps_settings
             || apply shared_loop_keeps_settings).
Qed.

Lemma prepareChunk_keeps_settings off fr c : keeps settings (prepareChunk off fr c).
Proof.
  intros w a w' H. apply prepareChunk_keeps_blb in H.
  unfold settings. rewrite H. reflexivity.
Qed.

Lemma ReadAt_keeps_settings fuel p offset : keeps settings (ReadAt fuel p offset).
Proof.
  unfold ReadAt, isClosed, getFetcher, prepareChunksForRead.
  ks ltac:(apply fetchRange_keeps_settings
           || (apply walkChunks_keeps_settings; intros ?)
           || apply prepareChunk_keeps_settings).
Qed.

Lemma cacheAt_keeps_settings fuel offset size fr :
  keeps settings (cacheAt fuel offset size fr).
Proof.
  unfold cacheAt, cacheChunk.
  ks ltac:(apply fetchRange_keeps_settings
           || (apply walkChunks_keeps_settings; intros ?)).
Qed.

Lemma cache_windows_keeps_settings fuel fetchSize end_ fr :
  forall budget i first,
    keeps settings (cache_windows fuel budget fetchSize end_ i fr first).
Proof.
  induction budget as [| budget IH]; intros i first; simpl.
  - apply keeps_out_of_fuel.
  - ks ltac:(apply cacheAt_keeps_settings || apply IH).
Qed.

Lemma Cache_keeps_settings fuel offset size : keeps settings (Cache fuel offset size).
Proof.
  unfold Cache, isClosed.
  ks ltac:(apply cacheAt_keeps_settings || apply cache_windows_keeps_settings).
Qed.

End KeepsSettings.

(** X8: neither [ReadAt] nor [Cache], however they end, assigns the
    size, the chunk sizes, the check interval, the fetcher or the closed
    flag of the blob: [Size] answers the same before and after, and an
    open blob stays open. *)
Theorem reads_keep_settings (fuel : nat) (w : world) :
  (forall p offset r w', ReadAt fuel p offset w = Done r w' -> settings w' = settings w)
  /\ (forall offset size r w', Cache fuel offset size w = Done r w' ->
        settings w' = settings w)
  /\ (forall p offset r w', ReadAt fuel p offset w = Done r w' ->
        Size w' = Done (b_size (blb w)) w').
Proof.
  split; [| split].
  - intros p offset r w' H. exact (ReadAt_keeps_settings fuel p offset w r w' H).
  - intros offset size r w' H. exact (Cache_keeps_settings fuel offset size w r w' H).
  - intros p offset r w' H. apply ReadAt_keeps_settings in H.
    unfold Size, gets. unfold settings in H. congruence.
Qed.

(** A chunk whose entry covers its window is copied from the cache;
    nothing is registered for it. *)
Lemma prepareChunk_hit_run off fr c w L base lo ex data :
  L = len (buf w) ->
  base = chunk_base off c ->
  lo = chunk_lowerUnread off c ->
  ex = chunk_expectedSize off L c ->
  0 <= base -> 0 <= ex -> base + ex <= L -> L <= Int64.max_int -> 0 <= lo ->
  entries (b_cache (blb w)) !! genID fr c = Some data ->
  ex = 0 \/ lo + ex <= len data ->
  exists buf',
    prepareChunk off fr c w = Done None (with_buf buf' w)
    /\ len buf' = L
    /\ (forall t, ~ (base <= t < base + ex) -> byte_at buf' t = byte_at (buf w) t)
    /\ (forall j, 0 <= j < ex -> byte_at buf' (base + j) = byte_at data (lo + j)).
Proof.
  intros HLdef Hbdef Hldef Hedef Hbase Hex Hfit HL Hlo Hget Hcover.
  assert (Hadd : Int64.add base ex = base + ex).
  { apply add_id. unfold Int64.min_int, Int64.max_int in *. lia. }
  unfold prepareChunk. unfold bind at 1. unfold gets at 1. cbv beta zeta.
  rewrite <- HLdef, <- Hbdef, <- Hldef, <- Hedef. clear Hbdef Hldef Hedef.
  rewrite Hadd.
  unfold bind at 1. rewrite slice_of_buf_ok by lia.
  replace (base + ex - base) with ex by lia.
  unfold bind at 1.
  destruct (readFromCache_entry c (Slice base ex) lo fr w data Hget Hlo)
    as (buf' & err & Hrun & Hlen' & Hout & Hiff & Hin);
    cbn [sl_off sl_len]; try lia.
  cbn [sl_off sl_len] in *.
  assert (Herr : err = None) by (apply Hiff; exact Hcover).
  subst err. rewrite Hrun.
  exists buf'. split; [reflexivity |]. split; [lia |].
  split; [exact Hout | apply Hin; reflexivity].
Qed.

(** ** ReadAt on a warm and on a cold cache *)

Section WarmAndCold.

Variables off L cs size : Z.
Variable fr : fetcher.
Hypothesis Hcs : 0 < cs.
Hypothesis Hoff : 0 <= off <= size.
Hypothesis HL : 0 < L.
Hypothesis Hsize : size <= Int64.max_int.
Hypothesis Hceil : (Z.quot (off + L - 1) cs + 1) * cs <= Int64.max_int.

Local Abbreviation request :=
  (Region (Z.quot off cs * cs) ((Z.quot (off + L - 1) cs + 1) * cs - 1)).

(** Where the window of a chunk lies, in the buffer and in the chunk. *)
Lemma window_geometry c :
  relevant off L cs size c ->
  0 <= chunk_base off c
  /\ 0 <= chunk_expectedSize off L c
  /\ chunk_base off c + chunk_expectedSize off L c <= L
  /\ 0 <= chunk_lowerUnread off c
  /\ chunk_lowerUnread off c + chunk_expectedSize off L c <= reg_e c - reg_b c + 1
  /\ (forall x, reg_b c <= x <= reg_e c -> off <= x < off + L ->
        0 <= x - reg_b c - chunk_lowerUnread off c < chunk_expectedSize off L c
        /\ x - off = chunk_base off c + (x - reg_b c - chunk_lowerUnread off c))
  /\ (forall t, chunk_base off c <= t < chunk_base off c + chunk_expectedSize off L c ->
        reg_b c <= off + t <= reg_e c).
Proof.
  intros Hrel.
  destruct (relevant_window off L cs size Hcs Hoff HL Hsize Hceil c Hrel)
    as (-> & -> & _ & -> & Hbe & Hex0).
  destruct Hrel as (_ & Hb0 & HbL & Hbs & He & Hbo).
  clear Hceil. repeat split; lia.
Qed.

Lemma request_chunks_cover x :
  off <= x -> x < off + L -> x < size ->
  exists c, In c (spec_chunks request cs size) /\ reg_b c <= x <= reg_e c.
Proof.
  intros Hx1 Hx2 Hx3.
  destruct (floor_request off cs size Hcs Hoff Hsize) as (_ & Hb & Hq).
  pose proof (quot_bracket (off + L - 1) cs Hcs) as He.
  clear Hceil.
  set (b := Z.quot off cs * cs) in *.
  set (e := (Z.quot (off + L - 1) cs + 1) * cs - 1) in *.
  set (k := (x - b) / cs).
  assert (Hk0 : 0 <= k) by (apply Z.div_pos; lia).
  assert (Hk1 : cs * k <= x - b) by (apply Z.mul_div_le; lia).
  assert (Hk2 : x - b < cs * Z.succ k) by (apply Z.mul_succ_div_gt; lia).
  exists (Region (b + k * cs) (Z.min (b + (k + 1) * cs - 1) (size - 1))).
  split; [| cbn [reg_b reg_e]; lia].
  unfold spec_chunks. apply in_map_iff. exists (Z.to_nat k). cbn [reg_b].
  split; [rewrite Z2Nat.id by lia; reflexivity |].
  apply in_seq. split; [lia |]. simpl. unfold chunk_count. cbn [reg_b reg_e].
  destruct (Z.leb_spec b (Z.min e (size - 1))) as [Hle | Hgt]; [| unfold e in *; lia].
  assert (Hmono : k <= (Z.min e (size - 1) - b) / cs).
  { apply Z.div_le_mono; [lia |]. unfold e. lia. }
  lia.
Qed.

(** A chunk whose entry is complete is copied from the cache; nothing
    is registered for it. *)
Lemma prepareChunk_hit c w data :
  relevant off L cs size c ->
  len (buf w) = L ->
  entries (b_cache (blb w)) !! genID fr c = Some data ->
  reg_e c - reg_b c + 1 <= len data ->
  exists buf',
    prepareChunk off fr c w = Done None (with_buf buf' w)
    /\ len buf' = L
    /\ (forall t, ~ (chunk_base off c <= t < chunk_base off c + chunk_expectedSize off L c) ->
          byte_at buf' t = byte_at (buf w) t)
    /\ (forall j, 0 <= j < chunk_expectedSize off L c ->
          byte_at buf' (chunk_base off c + j) = byte_at data (chunk_lowerUnread off c + j)).
Proof.
  intros Hrel Hlen Hentry Hdata.
  destruct (window_geometry c Hrel) as (G1 & G2 & G3 & G4 & G5 & _).
  pose proof (request_end_fits off L cs Hcs Hceil) as Hend.
  apply (prepareChunk_hit_run off fr c w L _ _ _ data);
    try reflexivity; try assumption; try (symmetry; assumption);
    try (clear Hceil; lia).
Qed.

(** With every chunk of a list complete in the cache, the preparation
    fills the buffer from the cache and registers nothing. *)
Lemma prepare_all_hits (all : list region) :
  forall l w,
    (forall c, In c l -> In c all /\ relevant off L cs size c) ->
    (forall c, In c l ->
       exists data,
         entries (b_cache (blb w)) !! genID fr c = Some data
         /\ reg_e c - reg_b c + 1 <= len data) ->
    len (buf w) = L ->
    (forall x, off <= x < off + L -> x < size ->
       (exists c data,
          In c all
          /\ entries (b_cache (blb w)) !! genID fr c = Some data
          /\ reg_b c <= x <= reg_e c
          /\ byte_at (buf w) (x - off) = byte_at data (x - reg_b c))
       \/ exists c, In c l /\ reg_b c <= x <= reg_e c) ->
    exists buf',
      for_each (prepareChunk off fr) l w = Done None (with_buf buf' w)
      /\ len buf' = L
      /\ forall x, off <= x < off + L -> x < size ->
           exists c data,
             In c all
             /\ entries (b_cache (blb w)) !! genID fr c = Some data
             /\ reg_b c <= x <= reg_e c
             /\ byte_at buf' (x - off) = byte_at data (x - reg_b c).
Proof.
  induction l as [| c l IH]; intros w Hrel Hhit Hlen Hcov.
  - exists (buf w). simpl. unfold ret. rewrite with_buf_same.
    split; [reflexivity |]. split; [exact Hlen |].
    intros x Hx1 Hx2. destruct (Hcov x Hx1 Hx2) as [Hg | (c & [] & _)]. exact Hg.
  - destruct (Hrel c (or_introl eq_refl)) as [Hall Hrc].
    destruct (Hhit c (or_introl eq_refl)) as (data & Hentry & Hdata).
    destruct (prepareChunk_hit c w data Hrc Hlen Hentry Hdata)
      as (b1 & Hrun & Hlen1 & Hout & Hin).
    destruct (window_geometry c Hrc) as (G1 & G2 & G3 & G4 & G5 & G6 & G7).
    destruct (IH (with_buf b1 w)) as (b2 & Hrest & Hlen2 & Hgood).
    + intros c' Hc'. apply Hrel. right. exact Hc'.
    + intros c' Hc'. apply Hhit. right. exact Hc'.
    + exact Hlen1.
    + intros x Hx1 Hx2. cbn [blb buf with_buf].
      assert (Hdec : (reg_b c <= x <= reg_e c) \/ ~ (reg_b c <= x <= reg_e c))
        by (clear Hceil; lia).
      destruct Hdec as [Hxc | Hxc].
      * left. exists c, data.
        destruct (G6 x Hxc Hx1) as [Hj Heq].
        refine (conj Hall (conj Hentry (conj Hxc _))).
        rewrite Heq, Hin by exact Hj. f_equal. clear Hceil. lia.
      * destruct (Hcov x Hx1 Hx2) as [(c' & d' & A1 & A2 & A3 & A4) | (c' & Hc' & Hx')].
        -- left. exists c', d'. refine (conj A1 (conj A2 (conj A3 _))).
           rewrite Hout; [exact A4 |]. intros Ht. apply Hxc.
           specialize (G7 (x - off) Ht).
           replace (off + (x - off)) with x in G7 by lia. exact G7.
        -- right. exists c'. split; [| exact Hx'].
           destruct Hc' as [<- | Hc']; [contradiction | exact Hc'].
    + exists b2. simpl. unfold bind at 1. rewrite Hrun. cbn [blb with_buf] in *.
      split; [exact Hrest |]. split; [exact Hlen2 | exact Hgood].
Qed.


End WarmAndCold.

(** X9: when the cache holds a complete entry for every chunk the
    request spans, [ReadAt] succeeds without going through the
    single-flight group or the fetcher, whatever the fetcher would
    answer: the trace of external calls and the blob are as before, and
    the first [n] bytes of the buffer are those of the cached entries. *)
Theorem ReadAt_from_cache (fuel : nat) (p : list byte) (offset : Z) (w : world) :
  b_closed (blb w) = false ->
  p <> [] ->
  0 <= offset <= b_size (blb w) ->
  0 < b_chunkSize (blb w) ->
  b_size (blb w) <= Int64.max_int ->
  (Z.quot (offset + len p - 1) (b_chunkSize (blb w)) + 1) * b_chunkSize (blb w)
    <= Int64.max_int ->
  (chunk_count (read_region w p offset) (b_chunkSize (blb w)) (b_size (blb w)) < fuel)%nat ->
  (forall c,
     In c (spec_chunks (read_region w p offset) (b_chunkSize (blb w)) (b_size (blb w))) ->
     exists data,
       entries (b_cache (blb w)) !! genID (b_fetcher (blb w)) c = Some data
       /\ reg_e c - reg_b c + 1 <= len data) ->
  exists w',
    ReadAt fuel p offset w = Done (Z.min (len p) (b_size (blb w) - offset), None) w'
    /\ trace w' = trace w
    /\ blb w' = blb w
    /\ len (buf w') = len p
    /\ forall k, 0 <= k < len p -> offset + k < b_size (blb w) ->
         exists c data,
           In c (spec_chunks (read_region w p offset) (b_chunkSize (blb w))
                             (b_size (blb w)))
           /\ entries (b_cache (blb w)) !! genID (b_fetcher (blb w)) c = Some data
           /\ reg_b c <= offset + k <= reg_e c
           /\ byte_at (buf w') k = byte_at data (offset + k - reg_b c).
Proof.
  intros Hopen Hp Hoff Hcs Hsize Hceil Hfuel Hwarm.
  assert (HL : 0 < len p).
  { destruct p; [contradiction |]. unfold len. simpl length. lia. }
  destruct (floor_request offset (b_chunkSize (blb w)) (b_size (blb w)) Hcs Hoff Hsize)
    as (Hfloor & Hb & Hq).
  pose proof (ceil_request offset (len p) (b_chunkSize (blb w)) (b_size (blb w))
                Hcs Hoff HL Hceil) as Hce.
  rewrite ReadAt_open; try assumption.
  2:{ apply orb_false_iff. split; [apply Z.eqb_neq | apply Z.ltb_ge]; lia. }
  2:{ lia. }
  unfold read_region in *. rewrite Hfloor, Hce in *.
  set (r := Region (Z.quot offset (b_chunkSize (blb w)) * b_chunkSize (blb w))
                   ((Z.quot (offset + len p - 1) (b_chunkSize (blb w)) + 1)
                    * b_chunkSize (blb w) - 1)) in *.
  set (w0 := with_allData [] (with_buf p w)).
  unfold prepareChunksForRead.
  rewrite (walkChunks_for_each fuel r _ w0).
  2:{ apply prepareChunk_keeps_geometry. }
  2:{ exact Hcs. }
  2:{ unfold r. cbn [reg_b]. unfold Int64.in_range, Int64.min_int, Int64.max_int in *. lia. }
  2:{ change (blb w0) with (blb w).
      unfold Int64.in_range, Int64.min_int, Int64.max_int in *. lia. }
  2:{ unfold r. cbn [reg_b]. apply Z.rem_mul. change (blb w0) with (blb w). lia. }
  2:{ change (blb w0) with (blb w). unfold r. cbn [reg_b].
      apply request_walk_fits; assumption. }
  2:{ exact Hfuel. }
  change (blb w0) with (blb w).
  destruct (prepare_all_hits offset (len p) (b_chunkSize (blb w)) (b_size (blb w))
              (b_fetcher (blb w)) Hcs Hoff HL Hsize Hceil
              (spec_chunks r (b_chunkSize (blb w)) (b_size (blb w)))
              (spec_chunks r (b_chunkSize (blb w)) (b_size (blb w))) w0)
    as (buf' & Hrun & Hlen & Hgood).
  - intros c Hin. split; [exact Hin |].
    exact (spec_chunks_relevant offset (len p) (b_chunkSize (blb w)) (b_size (blb w))
             Hcs Hoff HL Hsize Hceil c Hin).
  - exact Hwarm.
  - reflexivity.
  - intros x Hx1 Hx2. right.
    apply (request_chunks_cover offset (len p) (b_chunkSize (blb w)) (b_size (blb w))
             Hcs Hoff Hsize); lia.
  - rewrite Hrun. destruct fuel as [| fuel]; [lia |].
    rewrite fetchRange_nothing by reflexivity.
    eexists. split.
    { rewrite adjustBufferSize_spec; [f_equal; f_equal; lia | | lia | lia].
      unfold Int64.in_range, Int64.min_int, Int64.max_int in *. lia. }
    split; [reflexivity |]. split; [reflexivity |]. split; [exact Hlen |].
    intros k Hk1 Hk2. cbn [buf with_buf].
    destruct (Hgood (offset + k) ltac:(lia) Hk2) as (c & data & A1 & A2 & A3 & A4).
    exists c, data. replace (offset + k - offset) with k in A4 by lia.
    refine (conj A1 (conj A2 (conj A3 A4))).
Qed.



Lemma ReadAt_from_cache_witness :
  exists w',
    ReadAt 8 [x00; x00] 1 warm_world = Done (Z.min 2 (10 - 1), None) w'
    /\ trace w' = []
    /\ blb w' = blb warm_world
    /\ len (buf w') = 2.
Proof.
  destruct (ReadAt_from_cache 8 [x00; x00] 1 warm_world)
    as (w' & H1 & H2 & H3 & H4 & _).
  - reflexivity.
  - discriminate.
  - simpl. lia.
  - simpl. lia.
  - vm_compute. congruence.
  - vm_compute. congruence.
  - vm_compute. lia.
  - intros c Hin.
    replace (spec_chunks _ _ _) with [Region 0 2] in Hin by (vm_compute; reflexivity).
    destruct Hin as [<- | []].
    exists [x30; x31; x32]. split; [vm_compute; reflexivity | vm_compute; congruence].
  - exists w'. repeat split; assumption.
Defined.


(** ** cacheChunkData: all or nothing *)

(** [io.CopyN] through a writer that appends to the open cache entry:
    on success the entry has grown by the first [n] bytes of the
    stream, which the stream did hold. *)
Lemma copy_blocks_cw {B : Type} (proj : world -> B)
    (write : list byte -> M (option error)) rerr :
  (forall r w, proj (with_reader r w) = proj w) ->
  (forall r w, cw (with_reader r w) = cw w) ->
  (forall q w err w', write q w = Done err w' ->
     proj w' = proj w /\ (err = None -> cw w' = cw w ++ q)) ->
  forall blocks n w err w',
    copy_blocks write n blocks rerr w = Done err w' ->
    proj w' = proj w
    /\ (err = None ->
        cw w' = cw w ++ firstn (Z.to_nat n) (concat blocks)
        /\ (Z.to_nat n <= length (concat blocks))%nat).
Proof.
  intros Hpr Hcr Hw. induction blocks as [| q rest IH]; intros n w err w' Hrun.
  - simpl in Hrun. destruct (Z.leb_spec n 0).
    + unfold bind, modify, ret in Hrun. inversion Hrun; subst.
      split; [apply Hpr |]. intros _. rewrite Hcr.
      replace (Z.to_nat n) with 0%nat by lia. simpl. rewrite app_nil_r. split; [reflexivity | lia].
    + unfold bind, modify, ret in Hrun. inversion Hrun; subst.
      split; [apply Hpr |]. destruct rerr; discriminate.
  - simpl in Hrun. destruct (Z.leb_spec n 0).
    { unfold bind, modify, ret in Hrun. inversion Hrun; subst.
      split; [apply Hpr |]. intros _. rewrite Hcr.
      replace (Z.to_nat n) with 0%nat by lia. simpl. rewrite app_nil_r. split; [reflexivity | lia]. }
    destruct (Z.eqb_spec (len q) 0) as [Hq0 | Hq0].
    { apply len_zero_nil in Hq0. subst q. simpl. apply IH. exact Hrun. }
    destruct (Z.ltb_spec n (len q)) as [Hlt | Hge].
    + apply bind_inv in Hrun as ([] & w1 & E & Hrun).
      unfold modify in E. inversion E; subst w1. clear E.
      destruct (Hw _ _ _ _ Hrun) as [Hp Hc].
      split; [rewrite Hp; apply Hpr |].
      intros He. rewrite (Hc He), Hcr. unfold len in *. simpl concat.
      rewrite firstn_app. replace (Z.to_nat n - length q)%nat with 0%nat by lia.
      simpl. rewrite app_nil_r. split; [reflexivity |]. rewrite length_app. lia.
    + apply bind_inv in Hrun as (err1 & w1 & Hwr & Hrun).
      destruct (Hw _ _ _ _ Hwr) as [Hp Hc].
      destruct err1 as [e1 |].
      * unfold bind, modify, ret in Hrun. inversion Hrun; subst.
        split; [rewrite Hpr; exact Hp | discriminate].
      * destruct (IH _ _ _ _ Hrun) as [Hp2 Hc2].
        split; [congruence |].
        intros He. destruct (Hc2 He) as [Hc3 Hlen]. rewrite Hc3, (Hc eq_refl).
        unfold len in *. simpl concat. rewrite firstn_app, length_app.
        rewrite (firstn_all2 (n := Z.to_nat n) q) by lia.
        replace (Z.to_nat (n - Z.of_nat (length q))) with (Z.to_nat n - length q)%nat
          in * by lia.
        rewrite <- app_assoc. split; [reflexivity | lia].
Qed.

Lemma cacheChunkData_outcome c fr w err w' :
  cacheChunkData c fr w = Done err w' ->
  trace w' = trace w /\ tick w' = tick w /\ clock w' = clock w /\ flights w' = flights w
  /\ map fst (allData w') = map fst (allData w)
  /\ settings w' = settings w
  /\ b_lastCheck (blb w') = b_lastCheck (blb w)
  /\ (err <> None -> blb w' = blb w /\ fetched w' = fetched w)
  /\ (err = None ->
      fetched w' = map_set c true (fetched w)
      /\ entries (b_cache (blb w'))
         = <[genID fr c := firstn (Z.to_nat (region_size c)) (stream_of (reader w))]>
             (entries (b_cache (blb w)))
      /\ b_fetchedRegionSet (blb w') = regionSet_add c (b_fetchedRegionSet (blb w))
      /\ (Z.to_nat (region_size c) <= length (stream_of (reader w)))%nat).
Proof.
  intros Hrun. unfold cacheChunkData in Hrun.
  apply bind_inv in Hrun as (c0 & w1 & E1 & Hrun). inversion E1; subst c0 w1. clear E1.
  destruct (addErr (b_cache (blb w)) (genID fr c)).
  { inversion Hrun; subst. repeat split; try reflexivity; discriminate. }
  apply bind_inv in Hrun as ([] & w1 & E1 & Hrun). inversion E1; subst w1. clear E1.
  apply bind_inv in Hrun as (f & w1 & E1 & Hrun). inversion E1; subst f w1. clear E1.
  cbn [fetched with_cw] in Hrun.
  apply bind_inv in Hrun as (err1 & w2 & Hcopy & Hrun).
  unfold io_CopyN in Hcopy.
  apply bind_inv in Hcopy as (r & w1 & E1 & Hcopy). inversion E1; subst r w1. clear E1.
  cbn [reader with_cw] in Hcopy.
  set (proj := fun w : world =>
                 (blb w, fetched w, trace w, tick w, clock w, flights w,
                  map fst (allData w))).
  assert (Hstage :
    proj w2 = proj (with_cw [] w)
    /\ (err1 = None ->
        cw w2 = cw (with_cw [] w)
                ++ firstn (Z.to_nat (region_size c)) (concat (rd_pieces (reader w)))
        /\ (Z.to_nat (region_size c) <= length (concat (rd_pieces (reader w))))%nat)).
  { revert Hcopy. apply copy_blocks_cw; try (intros; reflexivity).
    intros q w3 err3 w4 Hwr.
    destruct (map_get c (fetched w)).
    - apply bind_inv in Hwr as (x & w5 & E & Hwr).
      unfold bind, modify, ret in E. inversion E; subst x w5. clear E.
      unfold write_to in Hwr.
      apply bind_inv in Hwr as (m & w5 & E & Hwr). inversion E; subst m w5. clear E.
      cbn [allData with_cw] in Hwr.
      destruct (map_get c (allData w3)) as [[| bw] |] eqn:Hget; [| | inversion Hwr].
      + inversion Hwr; subst. split; [reflexivity | intros _; reflexivity].
      + apply bind_inv in Hwr as (bw' & w5 & Hbw & Hwr).
        unfold bind, modify, ret in Hwr. inversion Hwr; subst err3 w4. clear Hwr.
        assert (Hk : proj w5 = proj (with_cw (cw w3 ++ q) w3)
                     /\ cw w5 = cw (with_cw (cw w3 ++ q) w3)
                     /\ allData w5 = allData w3).
        { unfold bytesWriter_Write in Hbw.
          repeat match type of Hbw with
                 | (if ?b then _ else _) _ = _ => destruct b
                 end;
            unfold bind, modify, ret, crash in Hbw; inversion Hbw; subst;
            repeat split; reflexivity. }
        destruct Hk as (Hk1 & Hk2 & Hk3).
        split.
        { unfold proj in *.
          cbn [blb fetched trace tick clock flights allData with_allData with_cw] in *.
          rewrite map_set_keys_present by (rewrite Hk3, Hget; eauto).
          exact Hk1. }
        intros _. cbn [cw with_allData]. rewrite Hk2. reflexivity.
    - unfold bind, modify, ret in Hwr. inversion Hwr; subst.
      split; [reflexivity | intros _; reflexivity]. }
  destruct Hstage as [Hproj Hcw].
  assert (Hsame : blb w2 = blb w /\ fetched w2 = fetched w /\ trace w2 = trace w
                  /\ tick w2 = tick w /\ clock w2 = clock w /\ flights w2 = flights w
                  /\ map fst (allData w2) = map fst (allData w)).
  { unfold proj in Hproj.
    cbn [blb fetched trace tick clock flights allData with_cw] in Hproj.
    inversion Hproj. repeat split; assumption. }
  destruct Hsame as (S1 & S2 & S3 & S4 & S5 & S6 & S7).
  destruct err1 as [e1 |].
  { unfold bind, modify, ret in Hrun. inversion Hrun; subst err w'.
    cbn [blb fetched trace tick clock flights allData with_cw]. unfold settings.
    cbn [blb with_cw]. rewrite S1.
    repeat split; try assumption; try reflexivity; congruence. }
  destruct (Hcw eq_refl) as [Hdata Hlen]. cbn [cw with_cw] in Hdata. simpl app in Hdata.
  destruct (commitErr (b_cache (blb w)) (genID fr c)).
  { unfold bind, modify, ret in Hrun. inversion Hrun; subst err w'.
    cbn [blb fetched trace tick clock flights allData with_cw]. unfold settings.
    cbn [blb with_cw]. rewrite S1.
    repeat split; try assumption; try reflexivity; congruence. }
  unfold bind, modify, ret in Hrun. inversion Hrun; subst err w'. clear Hrun.
  cbn [blb fetched trace tick clock flights allData with_cw with_blb with_fetched
       b_cache b_lastCheck b_fetchedRegionSet set_cache set_fetchedRegionSet entries].
  unfold settings.
  cbn [blb with_cw with_blb with_fetched b_size b_chunkSize b_prefetchChunkSize
       b_checkInterval b_fetcher b_closed set_cache set_fetchedRegionSet].
  rewrite S1, S2, Hdata.
  repeat split; try assumption; try reflexivity; congruence.
Qed.

(** X11: [cacheChunkData] is all or nothing.  When it fails, at opening
    the cache writer, while copying or at the commit, the cache and the
    [fetched] map are as before; when it succeeds, the entry of the
    chunk holds exactly the first [chunk.size()] bytes of the part body,
    no other entry has changed and the chunk is marked fetched. *)
Theorem cacheChunkData_all_or_nothing (c : region) (fr : fetcher) (w : world)
    (err : option error) (w' : world) :
  cacheChunkData c fr w = Done err w' ->
  (err <> None -> blb w' = blb w /\ fetched w' = fetched w)
  /\ (err = None ->
      0 <= region_size c ->
      exists data,
        entries (b_cache (blb w')) !! genID fr c = Some data
        /\ data = firstn (Z.to_nat (region_size c)) (stream_of (reader w))
        /\ len data = region_size c
        /\ (forall k, k <> genID fr c ->
              entries (b_cache (blb w')) !! k = entries (b_cache (blb w)) !! k)
        /\ map_get c (fetched w') = Some true).
Proof.
  intros Hrun.
  destruct (cacheChunkData_outcome c fr w err w' Hrun)
    as (_ & _ & _ & _ & _ & _ & _ & Hbad & Hok).
  split; [exact Hbad |].
  intros He Hsz. destruct (Hok He) as (Hf & Hentries & _ & Hlen).
  eexists. rewrite Hentries, lookup_insert_eq. split; [reflexivity |].
  split; [reflexivity |]. split.
  - unfold len. rewrite length_firstn. lia.
  - split.
    + intros k Hk. rewrite lookup_insert_ne by congruence. reflexivity.
    + rewrite Hf. apply map_get_set_eq.
Qed.

Lemma cacheChunkData_all_or_nothing_witness :
  exists w',
    cacheChunkData (Region 0 2) sample_fetcher
      (with_reader (Reader [[x30; x31]; [x32; x33]] None) sample_world) = Done None w'
    /\ entries (b_cache (blb w')) !! sample_genID (Region 0 2) = Some [x30; x31; x32]
    /\ map_get (Region 0 2) (fetched w') = Some true.
Proof.
  eexists. split; [vm_compute; reflexivity |].
  destruct (cacheChunkData_all_or_nothing (Region 0 2) sample_fetcher
              (with_reader (Reader [[x30; x31]; [x32; x33]] None) sample_world) None _
              ltac:(vm_compute; reflexivity))
    as (_ & Hok).
  destruct (Hok eq_refl ltac:(vm_compute; congruence)) as (data & H1 & H2 & _ & _ & H5).
  split; [| exact H5].
  change (sample_genID (Region 0 2)) with (genID sample_fetcher (Region 0 2)).
  rewrite H1, H2. vm_compute. reflexivity.
Defined.

(** ** What a successful fetch leaves behind *)

Lemma committed_refl fr w : committed fr w w.
Proof. unfold committed. repeat split; auto. Qed.

Lemma committed_trans fr w0 w1 w2 :
  committed fr w0 w1 -> committed fr w1 w2 -> committed fr w0 w2.
Proof.
  intros (A1 & A2 & A3 & A4 & A5 & A6 & A7 & A8 & A9 & A10)
         (B1 & B2 & B3 & B4 & B5 & B6 & B7 & B8 & B9 & B10).
  unfold committed. repeat split; try congruence.
  - intros k Hk. apply B7, A7, Hk.
  - intros c Hc. destruct (B8 c Hc) as [H1 | H2]; [| right; exact H2].
    destruct (A8 c H1) as [H0 | H0]; [left; exact H0 | right; apply B7, H0].
  - intros c Hc. apply B9, A9, Hc.
Qed.

Lemma cacheChunkData_committed c fr w w' :
  cacheChunkData c fr w = Done None w' -> committed fr w w'.
Proof.
  intros Hrun.
  destruct (cacheChunkData_outcome c fr w None w' Hrun)
    as (H1 & H2 & H3 & H4 & H4' & H5 & H6 & _ & Hok).
  destruct (Hok eq_refl) as (Hf & Hentries & _ & _).
  unfold committed. repeat split; try assumption.
  - intros k Hk. rewrite Hentries.
    destruct (decide (genID fr c = k)) as [<- | Hne];
      [rewrite lookup_insert_eq; eauto | rewrite lookup_insert_ne by assumption; exact Hk].
  - intros c' Hc'. rewrite Hf in Hc'.
    destruct (decide (c = c')) as [<- | Hne].
    + right. rewrite Hentries, lookup_insert_eq. eauto.
    + left. rewrite map_get_set_ne in Hc' by assumption. exact Hc'.
  - intros c' Hc'. rewrite Hf.
    destruct (decide (c = c')) as [<- | Hne];
      [rewrite map_get_set_eq; eauto | rewrite map_get_set_ne by assumption; exact Hc'].
Qed.

Lemma walk_loop_committed fr fn :
  (forall c w w', fn c w = Done None w' -> committed fr w w') ->
  forall fuel e i w w',
    walk_loop fuel fn e i w = Done None w' -> committed fr w w'.
Proof.
  intros Hfn. induction fuel as [| fuel IH]; intros e i w w' Hrun; [discriminate |].
  simpl in Hrun. unfold bind at 1 2 in Hrun. unfold gets at 1 2 in Hrun.
  destruct ((i <=? e) && (i <? b_size (blb w))).
  - apply bind_inv in Hrun as (err & w1 & Hcall & Hrun).
    destruct err as [e1 |]; [inversion Hrun |].
    eapply committed_trans; [apply (Hfn _ _ _ Hcall) | apply (IH _ _ _ _ Hrun)].
  - inversion Hrun; subst. apply committed_refl.
Qed.

Lemma walkChunks_committed fr fn fuel r w w' :
  (forall c w w', fn c w = Done None w' -> committed fr w w') ->
  walkChunks fuel r fn w = Done None w' -> committed fr w w'.
Proof.
  intros Hfn Hrun. unfold walkChunks in Hrun.
  apply bind_inv in Hrun as (cs & w1 & E & Hrun). inversion E; subst cs w1. clear E.
  destruct (b_chunkSize (blb w) =? 0); [inversion Hrun |].
  destruct (negb _); [inversion Hrun |].
  eapply walk_loop_committed; eassumption.
Qed.

Lemma next_parts_committed fuel fr final :
  forall parts w w',
    next_parts fuel fr parts final w = Done None w' -> committed fr w w'.
Proof.
  induction parts as [| pt rest IH]; intros w w' Hrun; simpl in Hrun.
  - destruct final; inversion Hrun; subst. apply committed_refl.
  - apply bind_inv in Hrun as ([] & w1 & E & Hrun).
    unfold modify in E. inversion E; subst w1. clear E.
    apply bind_inv in Hrun as (err & w2 & Hwalk & Hrun).
    destruct err as [e1 |]; [inversion Hrun |].
    eapply committed_trans; [| apply (IH _ _ Hrun)].
    apply (walkChunks_committed fr) in Hwalk.
    + destruct Hwalk as (A1 & A2 & A3 & A4 & A5 & A6 & A7 & A8 & A9 & A10).
      unfold committed. repeat split; assumption.
    + intros c w3 w4. apply cacheChunkData_committed.
Qed.

(** A run of [fetchRegions] that succeeds: one request for the regions
    of [allData], every one of them in the cache afterwards, the check
    timer set to the time of the request. *)
Lemma fetchRegions_fills fuel w w' :
  fetched w = [] ->
  allData w <> [] ->
  fetchRegions fuel w = Done None w' ->
  trace w' = trace w ++ [EvFetch (map fst (allData w))]
  /\ tick w' = S (tick w)
  /\ flights w' = flights w
  /\ settings w' = settings w
  /\ b_lastCheck (blb w') = clock w (tick w)
  /\ (forall k, is_Some (entries (b_cache (blb w)) !! k) ->
                is_Some (entries (b_cache (blb w')) !! k))
  /\ (forall c, In c (map fst (allData w)) ->
                is_Some (entries (b_cache (blb w')) !! genID (b_fetcher (blb w)) c)).
Proof.
  intros Hf0 Hne Hrun. unfold fetchRegions in Hrun.
  apply bind_inv in Hrun as (m & w1 & E & Hrun). inversion E; subst m w1. clear E.
  destruct (allData w) as [| kv m] eqn:Hm; [contradiction |].
  rewrite <- Hm in *.
  apply bind_inv in Hrun as (fr' & w1 & E & Hrun). inversion E; subst fr' w1. clear E.
  apply bind_inv in Hrun as ([] & w1 & E & Hrun). inversion E; subst w1. clear E.
  apply bind_inv in Hrun as (res & w1 & E & Hrun).
  unfold do_fetch, bind, gets, modify, ret in E. inversion E; subst res w1. clear E.
  destruct (fetch (b_fetcher (blb w)) _ _) as [err | mr]; [inversion Hrun |].
  apply bind_inv in Hrun as (now & w1 & E & Hrun).
  unfold time_Now in E. inversion E; subst now w1. clear E.
  apply bind_inv in Hrun as ([] & w1 & E & Hrun). inversion E; subst w1. clear E.
  apply bind_inv in Hrun as (err & w3 & Hnext & Hrun).
  destruct err as [e1 |]; [inversion Hrun |].
  apply bind_inv in Hrun as (f & w4 & E & Hrun). inversion E; subst f w4. clear E.
  destruct (List.filter _ (fetched w3)) eqn:Hfilter; [| inversion Hrun].
  inversion Hrun; subst w'. clear Hrun.
  apply next_parts_committed in Hnext.
  destruct Hnext as (A1 & A2 & A3 & A4 & A5 & A6 & A7 & A8 & A9 & A10).
  cbn [trace tick clock flights blb fetched allData with_blb with_tick log with_fetched
       b_cache b_lastCheck set_lastCheck] in *.
  unfold settings in *.
  cbn [blb with_blb b_size b_chunkSize b_prefetchChunkSize b_checkInterval b_fetcher
       b_closed set_lastCheck] in *.
  repeat split; try assumption.
  intros c Hc.
  destruct (A9 c) as [v Hv].
  { apply fold_false_keys. left. exact Hc. }
  pose proof (filter_unfetched_nil _ Hfilter c v Hv) as ->.
  destruct (A8 c Hv) as [Hold | Hnew]; [| exact Hnew].
  apply fold_false_keys in Hold. rewrite Hf0 in Hold. discriminate.
Qed.

(** ** Cache: prefetching a range *)

Lemma cacheChunk_keeps_geometry fr : keeps_geometry (cacheChunk fr).
Proof.
  intros reg w a w' H. unfold cacheChunk, bind, gets, modify, ret in H.
  destruct (entries (b_cache (blb w)) !! genID fr reg); inversion H; subst; auto.
Qed.

(** The first phase of [cacheAt]: the chunks the cache lacks are
    registered with [io.Discard], nothing else changes. *)
Lemma for_each_cacheChunk fr :
  forall l w err w',
    for_each (cacheChunk fr) l w = Done err w' ->
    err = None
    /\ w' = with_allData (allData w') w
    /\ forall c,
         In c (map fst (allData w')) <->
         In c (map fst (allData w))
         \/ (In c l /\ entries (b_cache (blb w)) !! genID fr c = None).
Proof.
  induction l as [| c l IH]; intros w err w' Hrun; simpl in Hrun.
  - inversion Hrun; subst. split; [reflexivity |].
    split; [symmetry; apply with_allData_same; reflexivity |].
    intros c. split; [auto | intros [H | [[] _]]; exact H].
  - apply bind_inv in Hrun as (err1 & w1 & Hc & Hrun).
    unfold cacheChunk, bind, gets, modify, ret in Hc.
    destruct (entries (b_cache (blb w)) !! genID fr c) eqn:Hentry;
      inversion Hc; subst err1 w1; clear Hc.
    + destruct (IH _ _ _ Hrun) as (-> & Hw & Hkeys).
      split; [reflexivity |]. split; [exact Hw |].
      intros c'. rewrite Hkeys. split.
      * intros [H | [H1 H2]]; [left; exact H | right; split; [right; exact H1 | exact H2]].
      * intros [H | [[<- | H1] H2]];
          [left; exact H | congruence | right; split; assumption].
    + destruct (IH _ _ _ Hrun) as (-> & Hw & Hkeys).
      split; [reflexivity |]. split; [exact Hw |].
      intros c'. rewrite Hkeys. cbn [allData blb with_allData].
      rewrite <- !map_get_keys.
      destruct (decide (c = c')) as [<- | Hne].
      * rewrite map_get_set_eq. split; [| eauto].
        intros _. right. split; [left; reflexivity | exact Hentry].
      * rewrite map_get_set_ne by assumption. split.
        -- intros [H | [H1 H2]]; [left; exact H | right; split; [right; exact H1 | exact H2]].
        -- intros [H | [[H1 | H1] H2]];
             [left; exact H | contradiction | right; split; assumption].
Qed.


(** [fetchRange] with no flight in progress: nothing to do, or one run
    of [fetchRegions] whose result is the result. *)
Lemma fetchRange_alone fuel w r w' :
  flights w = [] ->
  fetchRange fuel w = Done r w' ->
  (allData w = [] /\ r = None /\ w' = w)
  \/ (allData w <> []
      /\ fetchRegions fuel (log EvDo (with_fetched [] w)) = Done r w').
Proof.
  intros Hfl Hrun. destruct fuel as [| fuel]; [discriminate |].
  cbn [fetchRange] in Hrun.
  apply bind_inv in Hrun as (m & w1 & E & Hrun). inversion E; subst m w1. clear E.
  destruct (allData w) as [| kv m] eqn:Hm.
  { inversion Hrun; subst. left. auto. }
  right. split; [discriminate |].
  apply bind_inv in Hrun as ([] & w1 & E & Hrun). inversion E; subst w1. clear E.
  apply bind_inv in Hrun as ([err shared] & w1 & Hdo & Hrun).
  unfold singleflight_Do in Hdo.
  apply bind_inv in Hdo as ([] & w2 & E & Hdo). inversion E; subst w2. clear E.
  apply bind_inv in Hdo as (fl & w2 & E & Hdo). inversion E; subst fl w2. clear E.
  cbn [flights log with_fetched] in Hdo. rewrite Hfl in Hdo.
  apply bind_inv in Hdo as (err0 & w2 & Hfetch & Hdo).
  inversion Hdo; subst err0 shared w2. clear Hdo.
  rewrite Hfetch. destruct err; inversion Hrun; subst; reflexivity.
Qed.

Section CacheRange.

Variable w : world.
Variables offset csize : Z.
Hypothesis Hopen : b_closed (blb w) = false.
Hypothesis Hdirect : b_prefetchChunkSize (blb w) <= b_chunkSize (blb w).
Hypothesis Hoff : 0 <= offset <= b_size (blb w).
Hypothesis Hcsize : 0 < csize.
Hypothesis Hcs : 0 < b_chunkSize (blb w).
Hypothesis Hsize : b_size (blb w) <= Int64.max_int.
Hypothesis Hceil :
  (Z.quot (offset + csize - 1) (b_chunkSize (blb w)) + 1) * b_chunkSize (blb w)
    <= Int64.max_int.

Local Abbreviation chunks :=
  (spec_chunks (cache_region w offset csize) (b_chunkSize (blb w)) (b_size (blb w))).

(** [Cache] in its direct mode is [cacheAt] on the blob's fetcher. *)
Lemma Cache_direct fuel :
  Cache fuel offset csize w =
    match walkChunks fuel (cache_region w offset csize) (cacheChunk (b_fetcher (blb w)))
            (with_allData [] w) with
    | Done (Some e) w1 => Done (Some e) w1
    | Done None w1 => fetchRange fuel w1
    | Crash q => Crash q
    | OutOfFuel => OutOfFuel
    end.
Proof.
  unfold Cache, isClosed, cacheAt, bind, gets, modify, ret. rewrite Hopen.
  destruct (Z.leb_spec (b_prefetchChunkSize (blb w)) (b_chunkSize (blb w))); [| lia].
  destruct (Z.eqb_spec (b_chunkSize (blb w)) 0); [lia |].
  unfold cache_region.
  destruct (walkChunks _ _ _ _) as [[e |] w1 | |]; reflexivity.
Qed.

Lemma cache_walk_hyps :
  Int64.in_range (reg_b (cache_region w offset csize))
  /\ Z.rem (reg_b (cache_region w offset csize)) (b_chunkSize (blb w)) = 0
  /\ reg_b (cache_region w offset csize)
     + Z.of_nat (chunk_count (cache_region w offset csize) (b_chunkSize (blb w))
                             (b_size (blb w)))
       * b_chunkSize (blb w) <= Int64.max_int.
Proof.
  destruct (floor_request offset (b_chunkSize (blb w)) (b_size (blb w)) Hcs Hoff Hsize)
    as (Hfloor & Hb & Hq).
  pose proof (ceil_request offset csize (b_chunkSize (blb w)) (b_size (blb w))
                Hcs Hoff Hcsize Hceil) as Hce.
  unfold cache_region. rewrite Hfloor, Hce. cbn [reg_b].
  split; [| split].
  - unfold Int64.in_range, Int64.min_int, Int64.max_int in *. clear Hceil Hce. lia.
  - apply Z.rem_mul. lia.
  - apply request_walk_fits; assumption.
Qed.

End CacheRange.

(** X12: a [Cache] that succeeds with no flight in progress leaves
    every chunk of the range in the cache and removes none; either all
    of them were there already and nothing was asked of the fetcher, or
    the fetcher was asked once, for exactly the chunks that were
    missing, and [lastCheck] is the time of that request. *)
Theorem Cache_fills (fuel : nat) (offset csize : Z) (w w' : world) :
  b_closed (blb w) = false ->
  b_prefetchChunkSize (blb w) <= b_chunkSize (blb w) ->
  flights w = [] ->
  0 <= offset <= b_size (blb w) ->
  0 < csize ->
  0 < b_chunkSize (blb w) ->
  b_size (blb w) <= Int64.max_int ->
  (Z.quot (offset + csize - 1) (b_chunkSize (blb w)) + 1) * b_chunkSize (blb w)
    <= Int64.max_int ->
  Cache fuel offset csize w = Done None w' ->
  (forall c,
     In c (spec_chunks (cache_region w offset csize) (b_chunkSize (blb w))
                       (b_size (blb w))) ->
     is_Some (entries (b_cache (blb w')) !! genID (b_fetcher (blb w)) c))
  /\ (forall k, is_Some (entries (b_cache (blb w)) !! k) ->
                is_Some (entries (b_cache (blb w')) !! k))
  /\ settings w' = settings w
  /\ ((trace w' = trace w /\ blb w' = blb w)
      \/ exists req,
           trace w' = trace w ++ [EvDo; EvFetch req]
           /\ (forall c,
                 In c req <->
                 In c (spec_chunks (cache_region w offset csize) (b_chunkSize (blb w))
                                   (b_size (blb w)))
                 /\ entries (b_cache (blb w)) !! genID (b_fetcher (blb w)) c = None)
           /\ b_lastCheck (blb w') = clock w (tick w)).
Proof.
  intros Hopen Hdirect Hfl Hoff Hcsize Hcs Hsize Hceil Hrun.
  rewrite Cache_direct in Hrun by assumption.
  destruct (cache_walk_hyps w offset csize Hoff Hcsize Hcs Hsize Hceil) as (W1 & W2 & W3).
  destruct (walkChunks fuel _ _ _) as [[e |] w1 | |] eqn:Hwalk; try discriminate.
  apply walkChunks_done in Hwalk;
    [| apply cacheChunk_keeps_geometry | exact Hcs | exact W1
     | unfold Int64.in_range, Int64.min_int, Int64.max_int in *; cbn [blb with_allData]; lia
     | exact W2 | exact W3].
  cbn [blb with_allData] in Hwalk.
  destruct (for_each_cacheChunk _ _ _ _ _ Hwalk) as (_ & Hw1 & Hkeys).
  cbn [allData blb with_allData map] in Hkeys.
  assert (Hfl1 : flights w1 = []) by (rewrite Hw1; exact Hfl).
  assert (Hblb1 : blb w1 = blb w) by (rewrite Hw1; reflexivity).
  assert (Htr1 : trace w1 = trace w) by (rewrite Hw1; reflexivity).
  assert (Htk1 : tick w1 = tick w /\ clock w1 = clock w) by (rewrite Hw1; split; reflexivity).
  destruct (fetchRange_alone fuel w1 None w' Hfl1 Hrun) as [(Hm & _ & ->) | (Hm & Hfetch)].
  - split.
    { intros c Hc. rewrite Hblb1.
      destruct (entries (b_cache (blb w)) !! genID (b_fetcher (blb w)) c) eqn:Hentry;
        [eauto |].
      exfalso. assert (Hin : In c (map fst (allData w1))) by (apply Hkeys; right; auto).
      rewrite Hm in Hin. exact Hin. }
    split; [rewrite Hblb1; auto |].
    split; [unfold settings; rewrite Hblb1; reflexivity |].
    left. split; assumption.
  - apply fetchRegions_fills in Hfetch; [| reflexivity | exact Hm].
    destruct Hfetch as (F1 & F2 & F3 & F4 & F5 & F6 & F7).
    cbn [trace tick clock flights blb allData log with_fetched] in *.
    unfold settings in *. cbn [blb log with_fetched] in *.
    rewrite Hblb1 in *.
    split.
    { intros c Hc.
      destruct (entries (b_cache (blb w)) !! genID (b_fetcher (blb w)) c) eqn:Hentry.
      - apply F6. rewrite Hentry. eauto.
      - apply F7. apply Hkeys. right. auto. }
    split; [exact F6 |]. split; [exact F4 |].
    right. exists (map fst (allData w1)).
    split; [rewrite F1, Htr1, <- app_assoc; reflexivity |].
    split.
    + intros c. rewrite Hkeys. split; [intros [[] | H]; exact H | intros H; right; exact H].
    + rewrite F5. destruct Htk1 as [-> ->]. reflexivity.
Qed.

Lemma Cache_fills_witness :
  exists w',
    Cache 8 0 10 sample_world = Done None w'
    /\ (forall c, In c (spec_chunks (cache_region sample_world 0 10) 3 10) ->
          is_Some (entries (b_cache (blb w')) !! sample_genID c)).
Proof.
  eexists. split; [vm_compute; reflexivity |].
  refine (proj1 (Cache_fills 8 0 10 sample_world _ _ _ _ _ _ _ _ _ _)).
  - reflexivity.
  - simpl. lia.
  - reflexivity.
  - simpl. lia.
  - lia.
  - simpl. lia.
  - vm_compute. congruence.
  - vm_compute. congruence.
  - vm_compute. reflexivity.
Defined.




(** ** ReadAt at the end of the blob *)

(** [io.CopyN] returns normally when the stream is long enough and the
    writer accepts every block. *)
Lemma copy_blocks_runs (I : Z -> world -> Prop) (write : list byte -> M (option error))
    rerr (N : Z) :
  (forall r t w, I t w -> I t (with_reader r w)) ->
  (forall q t w, I t w -> 0 <= t -> 0 < len q -> t + len q <= N ->
     exists w', write q w = Done None w' /\ I (t + len q) w') ->
  forall blocks n t w,
    I t w -> 0 <= t -> t + n <= N -> n <= len (concat blocks) ->
    exists w', copy_blocks write n blocks rerr w = Done None w' /\ I (t + Z.max 0 n) w'.
Proof.
  intros Hrd Hwr. induction blocks as [| q rest IH]; intros n t w HI Ht HN Hlen.
  - simpl. unfold len in Hlen. simpl in Hlen.
    destruct (Z.leb_spec n 0); [| lia].
    eexists. split; [reflexivity |].
    replace (t + Z.max 0 n) with t by lia. apply Hrd. exact HI.
  - simpl. destruct (Z.leb_spec n 0).
    { eexists. split; [reflexivity |].
      replace (t + Z.max 0 n) with t by lia. apply Hrd. exact HI. }
    simpl concat in Hlen. rewrite len_app in Hlen.
    destruct (Z.eqb_spec (len q) 0) as [Hq0 | Hq0].
    { apply IH; try assumption. lia. }
    pose proof (len_nonneg q) as Hq.
    destruct (Z.ltb_spec n (len q)) as [Hlt | Hge].
    + unfold bind at 1. unfold modify at 1.
      destruct (Hwr (firstn (Z.to_nat n) q) t (with_reader
                  (Reader (skipn (Z.to_nat n) q :: rest) rerr) w))
        as (w' & Hrun & HI').
      * apply Hrd. exact HI.
      * exact Ht.
      * rewrite len_firstn by lia. lia.
      * rewrite len_firstn by lia. lia.
      * exists w'. split; [exact Hrun |].
        rewrite len_firstn in HI' by lia.
        replace (t + Z.max 0 n) with (t + n) by lia. exact HI'.
    + destruct (Hwr q t w HI Ht ltac:(lia) ltac:(lia)) as (w1 & Hrun & HI1).
      unfold bind at 1. rewrite Hrun.
      destruct (IH (n - len q) (t + len q) w1 HI1 ltac:(lia) ltac:(lia) ltac:(lia))
        as (w' & Hrest & HI').
      exists w'. split; [exact Hrest |].
      replace (t + Z.max 0 n) with (t + len q + Z.max 0 (n - len q)) by lia. exact HI'.
Qed.

Lemma cacheChunkData_runs c fr w sb ex lo v :
  addErr (b_cache (blb w)) (genID fr c) = None ->
  commitErr (b_cache (blb w)) (genID fr c) = None ->
  map_get c (fetched w) = Some v ->
  map_get c (allData w) = Some (BytesWriter (BytesWriterOf (Slice sb ex) lo 0)) ->
  0 <= sb -> 0 <= ex -> sb + ex <= len (buf w) ->
  0 <= lo -> lo + ex <= Int64.max_int ->
  0 <= region_size c <= Int64.max_int ->
  region_size c <= len (stream_of (reader w)) ->
  exists w', cacheChunkData c fr w = Done None w'.
Proof.
  intros Hadd Hcommit Hf Hwr Hsb Hex Hfit Hlo Hmax Hn Hstream.
  unfold cacheChunkData. cbv zeta.
  unfold bind at 1. unfold gets at 1. rewrite Hadd.
  unfold bind at 1. unfold modify at 1.
  unfold bind at 1. unfold gets at 1. cbn [fetched with_cw]. rewrite Hf.
  unfold io_CopyN at 1.
  set (tee := fun q : list byte =>
                (modify (fun w0 : world => with_cw (cw w0 ++ q) w0);;; ret (@None error));;;
                write_to c q).
  destruct (copy_blocks_runs
              (fun t w1 =>
                 map_get c (allData w1)
                   = Some (BytesWriter (BytesWriterOf (Slice sb ex) lo t))
                 /\ len (buf w1) = len (buf w))
              tee (rd_err (reader w)) (region_size c))
    with (blocks := rd_pieces (reader w)) (n := region_size c) (t := 0)
         (w := with_cw [] w) as (w2 & Hcopy & _).
  - intros r t w1 H. exact H.
  - intros q t w1 [Hget Hlen] Ht Hq HN. unfold tee.
    destruct (write_to_bytes c sb ex lo t q (with_cw (cw w1 ++ q) w1) Hget)
      as (buf' & Hrun & Hlen' & _); cbn [buf with_cw]; try lia.
    cbn [buf with_cw] in Hlen'.
    unfold bind at 1. unfold bind at 1. unfold modify at 1. unfold ret at 1.
    rewrite Hrun. eexists. split; [reflexivity |].
    cbn [allData buf with_allData with_buf with_cw]. rewrite map_get_set_eq.
    split; [reflexivity | lia].
  - split; [exact Hwr | reflexivity].
  - lia.
  - lia.
  - exact Hstream.
  - unfold bind at 1. unfold bind at 1. unfold gets at 1.
    cbn [reader with_cw]. fold tee. rewrite Hcopy. rewrite Hcommit.
    eexists. reflexivity.
Qed.

(** At [offset == size] on a blob whose size is not a multiple of the
    chunk size, the walk of a request visits the last chunk and nothing
    else. *)
Lemma last_chunk_only size cs e :
  0 < cs -> 0 <= size -> Z.rem size cs <> 0 -> size - 1 <= e ->
  chunk_count (Region (Z.quot size cs * cs) e) cs size = 1%nat
  /\ spec_chunks (Region (Z.quot size cs * cs) e) cs size
       = [Region (Z.quot size cs * cs) (size - 1)]
  /\ Z.quot size cs * cs < size < Z.quot size cs * cs + cs.
Proof.
  intros Hcs Hsize Hrem He.
  rewrite Z.rem_mod_nonneg in Hrem by lia.
  rewrite Z.quot_div_nonneg by lia.
  pose proof (Z.div_mod size cs ltac:(lia)) as Hdm.
  pose proof (Z.mod_pos_bound size cs Hcs) as Hmod.
  set (q := size / cs) in *. set (r := size mod cs) in *. clearbody q r.
  assert (Hcount : chunk_count (Region (q * cs) e) cs size = 1%nat).
  { unfold chunk_count. cbn [reg_b reg_e].
    rewrite Z.min_r by lia.
    destruct (Z.leb_spec (q * cs) (size - 1)); [| lia].
    rewrite Z.div_small by lia. reflexivity. }
  split; [exact Hcount |]. split; [| lia].
  unfold spec_chunks. rewrite Hcount. cbn [seq map reg_b reg_e].
  change (Z.of_nat 0) with 0. f_equal. f_equal; lia.
Qed.

(** The preparation at [offset == size]: the window of the last chunk
    in the buffer is empty, so any entry counts as read, and a missing
    one registers the chunk with an empty destination. *)
Lemma prepare_at_size fuel p w c :
  p <> [] ->
  0 < b_chunkSize (blb w) ->
  0 <= b_size (blb w) <= Int64.max_int ->
  Z.rem (b_size (blb w)) (b_chunkSize (blb w)) <> 0 ->
  (Z.quot (b_size (blb w) + len p - 1) (b_chunkSize (blb w)) + 1) * b_chunkSize (blb w)
    <= Int64.max_int ->
  (2 <= fuel)%nat ->
  c = Region (Z.quot (b_size (blb w)) (b_chunkSize (blb w)) * b_chunkSize (blb w))
             (b_size (blb w) - 1) ->
  prepareChunksForRead fuel (read_region w p (b_size (blb w))) (b_size (blb w))
      (b_fetcher (blb w)) (with_allData [] (with_buf p w))
    = Done None
        (match entries (b_cache (blb w)) !! genID (b_fetcher (blb w)) c with
         | Some _ => with_allData [] (with_buf p w)
         | None =>
             with_allData [(c, newBytesWriter (Slice 0 0) (b_size (blb w) - reg_b c))]
                          (with_buf p w)
         end).
Proof.
  intros Hp Hcs Hsize Hrem Hceil Hfuel Hc.
  assert (HL : 0 < len p).
  { destruct p; [contradiction |]. unfold len. simpl length. lia. }
  assert (Hoff : 0 <= b_size (blb w) <= b_size (blb w)) by lia.
  destruct Hsize as [Hsize0 Hsize].
  destruct (floor_request (b_size (blb w)) (b_chunkSize (blb w)) (b_size (blb w))
              Hcs Hoff Hsize) as (Hfloor & Hb & Hq).
  pose proof (ceil_request (b_size (blb w)) (len p) (b_chunkSize (blb w)) (b_size (blb w))
                Hcs Hoff HL Hceil) as Hce.
  pose proof (quot_bracket (b_size (blb w) + len p - 1) (b_chunkSize (blb w)) Hcs) as Hbr.
  destruct (last_chunk_only (b_size (blb w)) (b_chunkSize (blb w))
              ((Z.quot (b_size (blb w) + len p - 1) (b_chunkSize (blb w)) + 1)
               * b_chunkSize (blb w) - 1) Hcs Hsize0 Hrem ltac:(lia))
    as (Hcount & Hchunks & Hlast).
  unfold read_region. rewrite Hfloor, Hce.
  set (r := Region (Z.quot (b_size (blb w)) (b_chunkSize (blb w)) * b_chunkSize (blb w))
                   ((Z.quot (b_size (blb w) + len p - 1) (b_chunkSize (blb w)) + 1)
                    * b_chunkSize (blb w) - 1)) in *.
  set (w0 := with_allData [] (with_buf p w)).
  assert (Hrel : relevant (b_size (blb w)) (len p) (b_chunkSize (blb w)) (b_size (blb w)) c).
  { apply (spec_chunks_relevant (b_size (blb w)) (len p) (b_chunkSize (blb w))
             (b_size (blb w)) Hcs Hoff HL Hsize Hceil).
    fold r. rewrite Hchunks, Hc. left. reflexivity. }
  destruct (relevant_window (b_size (blb w)) (len p) (b_chunkSize (blb w)) (b_size (blb w))
              Hcs Hoff HL Hsize Hceil c Hrel) as (Gb & Gl & _ & Ge & _ & _).
  assert (Hcb : reg_b c = Z.quot (b_size (blb w)) (b_chunkSize (blb w)) * b_chunkSize (blb w))
    by (rewrite Hc; reflexivity).
  assert (Hcend : reg_e c = b_size (blb w) - 1) by (rewrite Hc; reflexivity).
  unfold prepareChunksForRead.
  rewrite (walkChunks_for_each fuel r _ w0).
  2:{ apply prepareChunk_keeps_geometry. }
  2:{ exact Hcs. }
  2:{ unfold r. cbn [reg_b]. unfold Int64.in_range, Int64.min_int, Int64.max_int in *. lia. }
  2:{ change (blb w0) with (blb w).
      unfold Int64.in_range, Int64.min_int, Int64.max_int in *. lia. }
  2:{ unfold r. cbn [reg_b]. apply Z.rem_mul. change (blb w0) with (blb w). lia. }
  2:{ change (blb w0) with (blb w). unfold r. cbn [reg_b].
      apply request_walk_fits; assumption. }
  2:{ change (blb w0) with (blb w). rewrite Hcount. lia. }
  change (blb w0) with (blb w). rewrite Hchunks, <- Hc.
  cbn [for_each].
  assert (Hfits : len p <= Int64.max_int).
  { pose proof (request_end_fits (b_size (blb w)) (len p) (b_chunkSize (blb w))
                  Hcs Hceil). lia. }
  destruct (entries (b_cache (blb w)) !! genID (b_fetcher (blb w)) c) as [data |] eqn:Hget.
  - destruct (prepareChunk_hit_run (b_size (blb w)) (b_fetcher (blb w)) c w0 (len p)
                0 (b_size (blb w) - reg_b c) 0 data)
      as (buf' & Hrun & Hlen & Hout & _);
      try reflexivity; try lia; try exact Hget.
    assert (Hbuf : buf' = p).
      { apply byte_at_ext; [exact Hlen |].
        intros t Ht. rewrite Hout by lia. reflexivity. }
    subst buf'. unfold bind at 1. rewrite Hrun. reflexivity.
  - destruct (prepareChunk_run (b_size (blb w)) (b_fetcher (blb w)) c w0 (len p)
                0 (b_size (blb w) - reg_b c) 0)
      as (buf' & A' & Hrun & Hlen & Hout & Hcase);
      try reflexivity; try lia.
    assert (Hbuf : buf' = p).
    { apply byte_at_ext; [exact Hlen |].
      intros t Ht. rewrite Hout by lia. reflexivity. }
    subst buf'. unfold bind at 1. rewrite Hrun.
    destruct Hcase as [(_ & data & Hget' & _) | ->].
    + change (entries (b_cache (blb w0))) with (entries (b_cache (blb w))) in Hget'.
      congruence.
    + reflexivity.
Qed.

Lemma cacheChunkData_keeps_geometry fr : keeps_geometry (fun c => cacheChunkData c fr).
Proof.
  intros reg w a w' H. apply cacheChunkData_outcome in H.
  destruct H as (_ & _ & _ & _ & _ & Hs & _).
  unfold settings in Hs. inversion Hs. split; reflexivity || assumption.
Qed.

(** One part that carries one whole chunk, registered and asked for:
    the chunk is committed and marked fetched. *)
Lemma next_parts_one_chunk fuel fr w c sb ex lo body v :
  map_get c (fetched w) = Some v ->
  map_get c (allData w) = Some (newBytesWriter (Slice sb ex) lo) ->
  addErr (b_cache (blb w)) (genID fr c) = None ->
  commitErr (b_cache (blb w)) (genID fr c) = None ->
  0 < b_chunkSize (blb w) ->
  Int64.in_range (reg_b c) -> Int64.in_range (b_size (blb w)) ->
  Z.rem (reg_b c) (b_chunkSize (blb w)) = 0 ->
  reg_b c + b_chunkSize (blb w) <= Int64.max_int ->
  chunk_count c (b_chunkSize (blb w)) (b_size (blb w)) = 1%nat ->
  spec_chunks c (b_chunkSize (blb w)) (b_size (blb w)) = [c] ->
  0 <= sb -> 0 <= ex -> sb + ex <= len (buf w) ->
  0 <= lo -> lo + ex <= Int64.max_int ->
  0 <= region_size c <= Int64.max_int ->
  region_size c <= len (stream_of body) ->
  (2 <= fuel)%nat ->
  exists w',
    next_parts fuel fr [Part c body] None w = Done None w'
    /\ trace w' = trace w
    /\ fetched w' = map_set c true (fetched w)
    /\ map fst (allData w') = map fst (allData w)
    /\ entries (b_cache (blb w')) !! genID fr c
         = Some (firstn (Z.to_nat (region_size c)) (stream_of body)).
Proof.
  intros Hf Hwr Hadd Hcommit Hcs Hb Hs Hrem Hmax Hcount Hchunks
         Hsb Hex Hfit Hlo Hlomax Hn Hbody Hfuel.
  cbn [next_parts part_reg part_body].
  unfold bind at 1. unfold modify at 1. cbv beta iota. unfold bind at 1.
  rewrite (walkChunks_for_each fuel c _ (with_reader body w));
    [| apply cacheChunkData_keeps_geometry | exact Hcs | exact Hb | exact Hs | exact Hrem
     | change (blb (with_reader body w)) with (blb w); rewrite Hcount; lia
     | change (blb (with_reader body w)) with (blb w); rewrite Hcount; lia ].
  change (blb (with_reader body w)) with (blb w). rewrite Hchunks.
  cbn [for_each].
  destruct (cacheChunkData_runs c fr (with_reader body w) sb ex lo v)
    as (w' & Hrun); try assumption.
  unfold bind at 1. rewrite Hrun. unfold ret.
  exists w'. split; [reflexivity |].
  apply cacheChunkData_outcome in Hrun.
  destruct Hrun as (Ht & _ & _ & _ & Hkeys & _ & _ & _ & Hok).
  destruct (Hok eq_refl) as (Hfd & Hent & _).
  split; [exact Ht |]. split; [exact Hfd |]. split; [exact Hkeys |].
  rewrite Hent. apply lookup_insert_eq.
Qed.

(** A caller that is not made to wait for the flight of another
    goroutine runs the function itself; [shared] tells whether others
    waited for its result. *)
Lemma singleflight_Do_leads fn w shared :
  (flights w = [] /\ shared = false) \/ (exists rest, flights w = Lead shared :: rest) ->
  singleflight_Do fn w =
    match fn (with_flights (tl (flights w)) (log EvDo w)) with
    | Done err w' => Done (err, shared) w'
    | Crash q => Crash q
    | OutOfFuel => OutOfFuel
    end.
Proof.
  intros [[Hfl ->] | [rest Hfl]]; unfold singleflight_Do, bind, modify, gets, ret;
    cbn [flights log]; rewrite Hfl; cbn [tl].
  - replace (with_flights [] (log EvDo w)) with (log EvDo w)
      by (unfold with_flights, log; cbn; rewrite Hfl; reflexivity).
    reflexivity.
  - reflexivity.
Qed.

Lemma fetchRange_leads fuel w kv m shared :
  allData w = kv :: m ->
  (flights w = [] /\ shared = false) \/ (exists rest, flights w = Lead shared :: rest) ->
  fetchRange (S fuel) w =
    match fetchRegions (S fuel)
            (with_flights (tl (flights w)) (log EvDo (with_fetched [] w))) with
    | Done (Some e) w1 => Done (Some e) w1
    | Done None w1 =>
        if shared then
          match handleSharedFetch (S fuel) w1 with
          | Done (Some _) w2 => fetchRange fuel w2
          | Done None w2 => Done None w2
          | Crash q => Crash q
          | OutOfFuel => OutOfFuel
          end
        else Done None w1
    | Crash q => Crash q
    | OutOfFuel => OutOfFuel
    end.
Proof.
  intros Hm Hfl. cbn [fetchRange].
  unfold bind at 1. unfold gets at 1. rewrite Hm.
  unfold bind at 1. unfold modify at 1. cbv beta iota.
  unfold bind at 1.
  rewrite (singleflight_Do_leads _ (with_fetched [] w) shared) by exact Hfl.
  cbn [flights with_fetched].
  destruct (fetchRegions (S fuel) _) as [[e |] w1 | |]; try reflexivity.
  destruct shared; [| reflexivity].
  unfold bind at 1.
  destruct (handleSharedFetch (S fuel) w1) as [[e |] w2 | |]; reflexivity.
Qed.

(** [fetchRegions] for one registered chunk against a fetcher that
    fails: one request, the error as the fetcher gave it. *)
Lemma fetchRegions_one_chunk_fails fuel w c wr e :
  allData w = [(c, wr)] ->
  (forall k, fetch (b_fetcher (blb w)) k [c] = inl e) ->
  exists w',
    fetchRegions fuel w = Done (Some e) w'
    /\ trace w' = trace w ++ [EvFetch [c]].
Proof.
  intros Hm Hfail.
  unfold fetchRegions, getFetcher, do_fetch. unfold bind, gets, modify, ret.
  rewrite Hm. cbn [blb trace log with_fetched map fst]. rewrite Hfail.
  eexists. split; reflexivity.
Qed.

(** [fetchRegions] for one registered chunk against a fetcher that
    answers with that chunk: one request, the chunk committed to the
    cache and marked fetched. *)
Lemma fetchRegions_one_chunk fuel w c sb ex lo body :
  allData w = [(c, newBytesWriter (Slice sb ex) lo)] ->
  fetched w = [] ->
  (forall k, fetch (b_fetcher (blb w)) k [c] = inr (MultipartReader [Part c body] None)) ->
  addErr (b_cache (blb w)) (genID (b_fetcher (blb w)) c) = None ->
  commitErr (b_cache (blb w)) (genID (b_fetcher (blb w)) c) = None ->
  0 < b_chunkSize (blb w) ->
  Int64.in_range (reg_b c) -> Int64.in_range (b_size (blb w)) ->
  Z.rem (reg_b c) (b_chunkSize (blb w)) = 0 ->
  reg_b c + b_chunkSize (blb w) <= Int64.max_int ->
  chunk_count c (b_chunkSize (blb w)) (b_size (blb w)) = 1%nat ->
  spec_chunks c (b_chunkSize (blb w)) (b_size (blb w)) = [c] ->
  0 <= sb -> 0 <= ex -> sb + ex <= len (buf w) ->
  0 <= lo -> lo + ex <= Int64.max_int ->
  0 <= region_size c <= Int64.max_int ->
  region_size c <= len (stream_of body) ->
  (2 <= fuel)%nat ->
  exists w',
    fetchRegions fuel w = Done None w'
    /\ trace w' = trace w ++ [EvFetch [c]]
    /\ fetched w' = [(c, true)]
    /\ map fst (allData w') = [c]
    /\ entries (b_cache (blb w')) !! genID (b_fetcher (blb w)) c
         = Some (firstn (Z.to_nat (region_size c)) (stream_of body)).
Proof.
  intros Hm Hfd0 Hfetch Hadd Hcommit Hcs Hb Hs Hrem Hmax Hcount Hchunks
         Hsb Hex Hfit Hlo Hlomax Hn Hbody Hfuel.
  unfold fetchRegions, getFetcher, do_fetch, time_Now. unfold bind, gets, modify, ret.
  rewrite Hm. cbn [blb trace log with_fetched map fst]. rewrite Hfetch.
  cbn [mr_parts mr_err].
  match goal with
  | |- context [next_parts ?f ?fr ?ps ?fin ?w3] =>
      destruct (next_parts_one_chunk f fr w3 c sb ex lo body false)
        as (w4 & Hrun & Htr & Hfd & Hkeys & Hent)
  end; try assumption; try lia.
  - cbn [fetched allData with_blb with_tick log with_fetched fold_left].
    rewrite Hfd0. apply map_get_set_eq.
  - cbn [fetched allData with_blb with_tick log with_fetched fold_left].
    rewrite Hm. cbn [map_get]. destruct (decide (c = c)); [reflexivity | contradiction].
  - rewrite Hrun.
    cbn [fetched allData with_blb with_tick log with_fetched fold_left] in Hfd, Hkeys.
    rewrite Hfd0 in Hfd. cbn [map_set] in Hfd.
    destruct (decide (c = c)) as [_ | Hne]; [| contradiction].
    rewrite Hm in Hkeys. cbn [map fst] in Hkeys.
    rewrite Hfd. cbn [List.filter snd negb].
    eexists. split; [reflexivity |].
    split; [| split; [exact Hfd | split; [exact Hkeys | exact Hent]]].
    rewrite Htr. reflexivity.
Qed.

(** After a flight that this caller has led and that fetched every
    registered chunk, [handleSharedFetch] has nothing to copy. *)
Lemma handleSharedFetch_led fuel w c :
  map fst (allData w) = [c] ->
  fetched w = [(c, true)] ->
  handleSharedFetch fuel w = Done None w.
Proof.
  intros Hkeys Hfd. unfold handleSharedFetch. unfold bind at 1. unfold gets at 1.
  rewrite Hkeys. cbn [shared_loop]. unfold bind at 1. unfold gets at 1.
  rewrite Hfd. cbn [map_get]. destruct (decide (c = c)); [reflexivity | contradiction].
Qed.

(** [ReadAt] at [offset == size] on a blob whose size is not a multiple
    of the chunk size: the last chunk is looked up in the cache and,
    when it is missing, handed to [fetchRange] with an empty window. *)
Lemma ReadAt_at_size fuel p w c :
  b_closed (blb w) = false ->
  p <> [] ->
  0 < b_chunkSize (blb w) ->
  0 <= b_size (blb w) <= Int64.max_int ->
  Z.rem (b_size (blb w)) (b_chunkSize (blb w)) <> 0 ->
  (Z.quot (b_size (blb w) + len p - 1) (b_chunkSize (blb w)) + 1) * b_chunkSize (blb w)
    <= Int64.max_int ->
  (2 <= fuel)%nat ->
  c = Region (Z.quot (b_size (blb w)) (b_chunkSize (blb w)) * b_chunkSize (blb w))
             (b_size (blb w) - 1) ->
  ReadAt fuel p (b_size (blb w)) w =
    match entries (b_cache (blb w)) !! genID (b_fetcher (blb w)) c with
    | Some _ => Done (0, None) (with_allData [] (with_buf p w))
    | None =>
        match fetchRange fuel
                (with_allData [(c, newBytesWriter (Slice 0 0) (b_size (blb w) - reg_b c))]
                              (with_buf p w)) with
        | Done err w2 => Done (0, err) w2
        | Crash q => Crash q
        | OutOfFuel => OutOfFuel
        end
    end.
Proof.
  intros Hopen Hp Hcs Hsize Hrem Hceil Hfuel Hc.
  assert (HL : 0 < len p).
  { destruct p; [contradiction |]. unfold len. simpl length. lia. }
  assert (Hadj : adjustBufferSize (len p) (b_size (blb w)) (b_size (blb w)) = 0).
  { unfold adjustBufferSize, Int64.sub. rewrite Z.sub_diag.
    change (Int64.wrap 0) with 0.
    destruct (Z.leb_spec 0 (len p)); [reflexivity | lia]. }
  rewrite ReadAt_open; [| assumption | | lia].
  2:{ apply orb_false_iff. split; [apply Z.eqb_neq | apply Z.ltb_ge]; lia. }
  rewrite (prepare_at_size fuel p w c) by assumption.
  rewrite Hadj.
  destruct (entries (b_cache (blb w)) !! genID (b_fetcher (blb w)) c).
  - destruct fuel as [| fuel]; [lia |].
    rewrite fetchRange_nothing by reflexivity. reflexivity.
  - destruct (fetchRange fuel _) as [[e |] w2 | |]; reflexivity.
Qed.

(** C5 (amended): on an open blob and for a non-empty [dst], [ReadAt]
    with [offset > size] returns 0 bytes and no error whatever the cache
    and the fetcher are; with [offset == size] it does so as well,
    without visiting any chunk, when the size is a multiple of the chunk
    size, and whatever it returns, it returns 0 bytes.  With
    [offset == size] on a size that is not a multiple of the chunk size
    the last chunk is visited: if the cache holds an entry for it,
    [ReadAt] returns 0 bytes and no error without a fetch; if not, the
    chunk alone goes to [fetchRange] with an empty window and [ReadAt]
    returns 0 bytes with the error of [fetchRange]; when this caller
    runs the single-flight function itself, alone or with others
    waiting for it, that is one request for the last chunk, whose
    failure [ReadAt] returns as it is, and whose success, once the cache
    has accepted the chunk, is 0 bytes and no error.  All of this with
    the end of the request, rounded up to the next chunk boundary,
    inside [int64]. *)
Theorem ReadAt_past_end (fuel : nat) (p : list byte) (offset : Z) (w : world) :
  b_closed (blb w) = false ->
  p <> [] ->
  (b_size (blb w) < offset ->
     ReadAt fuel p offset w = Done (0, None) (with_buf p w))
  /\ (offset = b_size (blb w) ->
      0 < b_chunkSize (blb w) ->
      Int64.in_range (b_size (blb w)) ->
      Z.rem (b_size (blb w)) (b_chunkSize (blb w)) = 0 ->
      (0 < fuel)%nat ->
      ReadAt fuel p offset w = Done (0, None) (with_allData [] (with_buf p w)))
  /\ (offset = b_size (blb w) ->
      forall n err w', ReadAt fuel p offset w = Done (n, err) w' -> n = 0)
  /\ (offset = b_size (blb w) ->
      0 < b_chunkSize (blb w) ->
      0 <= b_size (blb w) <= Int64.max_int ->
      Z.rem (b_size (blb w)) (b_chunkSize (blb w)) <> 0 ->
      (Z.quot (b_size (blb w) + len p - 1) (b_chunkSize (blb w)) + 1)
        * b_chunkSize (blb w) <= Int64.max_int ->
      (2 <= fuel)%nat ->
      forall c,
        c = Region (Z.quot (b_size (blb w)) (b_chunkSize (blb w)) * b_chunkSize (blb w))
                   (b_size (blb w) - 1) ->
        (is_Some (entries (b_cache (blb w)) !! genID (b_fetcher (blb w)) c) ->
           ReadAt fuel p offset w = Done (0, None) (with_allData [] (with_buf p w)))
        /\ (entries (b_cache (blb w)) !! genID (b_fetcher (blb w)) c = None ->
            ReadAt fuel p offset w =
              match fetchRange fuel
                      (with_allData
                         [(c, newBytesWriter (Slice 0 0) (b_size (blb w) - reg_b c))]
                         (with_buf p w)) with
              | Done err w2 => Done (0, err) w2
              | Crash q => Crash q
              | OutOfFuel => OutOfFuel
              end)
        /\ (entries (b_cache (blb w)) !! genID (b_fetcher (blb w)) c = None ->
            (flights w = [] \/ exists shared rest, flights w = Lead shared :: rest) ->
            forall e,
              (forall k, fetch (b_fetcher (blb w)) k [c] = inl e) ->
              exists w',
                ReadAt fuel p offset w = Done (0, Some e) w'
                /\ trace w' = trace w ++ [EvDo; EvFetch [c]])
        /\ (entries (b_cache (blb w)) !! genID (b_fetcher (blb w)) c = None ->
            (flights w = [] \/ exists shared rest, flights w = Lead shared :: rest) ->
            forall body,
              (forall k, fetch (b_fetcher (blb w)) k [c]
                           = inr (MultipartReader [Part c body] None)) ->
              b_size (blb w) - reg_b c <= len (stream_of body) ->
              addErr (b_cache (blb w)) (genID (b_fetcher (blb w)) c) = None ->
              commitErr (b_cache (blb w)) (genID (b_fetcher (blb w)) c) = None ->
              exists w',
                ReadAt fuel p offset w = Done (0, None) w'
                /\ trace w' = trace w ++ [EvDo; EvFetch [c]]
                /\ entries (b_cache (blb w')) !! genID (b_fetcher (blb w)) c
                     = Some (firstn (Z.to_nat (b_size (blb w) - reg_b c))
                                    (stream_of body)))).
Proof.
  intros Hopen Hp.
  assert (Hlen : 0 < len p).
  { destruct p; [contradiction | unfold len; simpl; lia]. }
  assert (Hlen0 : (len p =? 0) = false) by (apply Z.eqb_neq; lia).
  split; [| split; [| split]].
  - intros Hgt. apply ReadAt_nothing; [assumption |].
    apply orb_true_iff. right. apply Z.ltb_lt. assumption.
  - intros -> Hcs Hrange Hrem Hfuel.
    destruct fuel as [| fuel]; [lia |].
    rewrite ReadAt_open; [| assumption | | lia].
    2:{ rewrite Hlen0, Z.ltb_irrefl. reflexivity. }
    unfold prepareChunksForRead.
    rewrite walkChunks_aligned.
    2:{ simpl. lia. }
    2:{ simpl. rewrite floor_multiple by assumption. assumption. }
    simpl reg_b. simpl reg_e.
    rewrite floor_multiple by assumption.
    rewrite walk_loop_past_size by (simpl; lia).
    rewrite fetchRange_nothing by reflexivity.
    f_equal. f_equal. unfold adjustBufferSize, Int64.sub.
    rewrite Z.sub_diag. change (Int64.wrap 0) with 0.
    destruct (Z.leb_spec 0 (len p)); [reflexivity | lia].
  - intros -> n err w' H.
    destruct (Z.eq_dec (b_chunkSize (blb w)) 0) as [Hz | Hz].
    { rewrite ReadAt_zero_chunk in H; [discriminate | assumption | | assumption].
      rewrite Hlen0, Z.ltb_irrefl. reflexivity. }
    rewrite ReadAt_open in H; [| assumption | | assumption].
    2:{ rewrite Hlen0, Z.ltb_irrefl. reflexivity. }
    destruct (prepareChunksForRead _ _ _ _ _) as [[e |] w1 | |]; try discriminate.
    { inversion H. reflexivity. }
    destruct (fetchRange fuel w1) as [[e |] w2 | |]; try discriminate.
    { inversion H. reflexivity. }
    inversion H. unfold adjustBufferSize, Int64.sub.
    rewrite Z.sub_diag. change (Int64.wrap 0) with 0.
    destruct (Z.leb_spec 0 (len p)); [reflexivity | lia].
  - intros -> Hcs Hsize Hrem Hceil Hfuel c Hc.
    pose proof (ReadAt_at_size fuel p w c Hopen Hp Hcs Hsize Hrem Hceil Hfuel Hc) as Hshape.
    destruct (last_chunk_only (b_size (blb w)) (b_chunkSize (blb w)) (b_size (blb w) - 1)
                Hcs ltac:(lia) Hrem ltac:(lia)) as (Hcount & Hchunks & Hlast).
    rewrite <- Hc in Hcount, Hchunks.
    assert (Hcb : reg_b c
                  = Z.quot (b_size (blb w)) (b_chunkSize (blb w)) * b_chunkSize (blb w))
      by (rewrite Hc; reflexivity).
    assert (Hce : reg_e c = b_size (blb w) - 1) by (rewrite Hc; reflexivity).
    split; [| split; [| split]].
    + intros [data Hget]. rewrite Hshape, Hget. reflexivity.
    + intros Hget. rewrite Hshape, Hget. reflexivity.
    + intros Hget Hfl e Hfail. rewrite Hshape, Hget.
      destruct fuel as [| fuel]; [lia |].
      set (w1 := with_allData [(c, newBytesWriter (Slice 0 0) (b_size (blb w) - reg_b c))]
                              (with_buf p w)).
      assert (Hlead : exists shared,
                (flights w1 = [] /\ shared = false)
                \/ (exists rest, flights w1 = Lead shared :: rest)).
      { destruct Hfl as [Hfl | (shared & rest & Hfl)].
        - exists false. left. split; [exact Hfl | reflexivity].
        - exists shared. right. exists rest. exact Hfl. }
      destruct Hlead as (shared & Hlead).
      rewrite (fetchRange_leads fuel w1 _ _ shared eq_refl Hlead).
      destruct (fetchRegions_one_chunk_fails (S fuel)
                  (with_flights (tl (flights w1)) (log EvDo (with_fetched [] w1)))
                  c (newBytesWriter (Slice 0 0) (b_size (blb w) - reg_b c)) e)
        as (w' & Hrun & Htr); [reflexivity | exact Hfail |].
      rewrite Hrun. exists w'. split; [reflexivity |].
      rewrite Htr. cbn [trace with_flights log with_fetched with_allData with_buf w1].
      rewrite <- app_assoc. reflexivity.
    + intros Hget Hfl body Hfetch Hbody Hadd Hcommit. rewrite Hshape, Hget.
      assert (Hb0 : 0 <= reg_b c).
      { rewrite Hcb. apply Z.mul_nonneg_nonneg; [apply Z.quot_pos |]; lia. }
      assert (Hbmax : reg_b c + b_chunkSize (blb w) <= Int64.max_int).
      { pose proof (quot_bracket (b_size (blb w) + len p - 1) (b_chunkSize (blb w)) Hcs)
          as Hbr.
        assert (Z.quot (b_size (blb w)) (b_chunkSize (blb w))
                <= Z.quot (b_size (blb w) + len p - 1) (b_chunkSize (blb w)))
          by (apply Z.quot_le_mono; lia).
        rewrite Hcb. nia. }
      assert (Hbrem : Z.rem (reg_b c) (b_chunkSize (blb w)) = 0).
      { rewrite Hcb. apply Z.rem_mul. lia. }
      rewrite <- Hcb in Hlast. clear Hceil Hshape Hcb.
      assert (Hrs : region_size c = b_size (blb w) - reg_b c).
      { unfold region_size. rewrite Hce.
        rewrite sub_id by (unfold Int64.min_int, Int64.max_int in *; lia).
        rewrite add_id by (unfold Int64.min_int, Int64.max_int in *; lia). lia. }
      destruct fuel as [| fuel]; [lia |].
      set (w1 := with_allData [(c, newBytesWriter (Slice 0 0) (b_size (blb w) - reg_b c))]
                              (with_buf p w)).
      assert (Hlead : exists shared,
                (flights w1 = [] /\ shared = false)
                \/ (exists rest, flights w1 = Lead shared :: rest)).
      { destruct Hfl as [Hfl | (shared & rest & Hfl)].
        - exists false. left. split; [exact Hfl | reflexivity].
        - exists shared. right. exists rest. exact Hfl. }
      destruct Hlead as (shared & Hlead).
      rewrite (fetchRange_leads fuel w1 _ _ shared eq_refl Hlead).
      destruct (fetchRegions_one_chunk (S fuel)
                  (with_flights (tl (flights w1)) (log EvDo (with_fetched [] w1)))
                  c 0 0 (b_size (blb w) - reg_b c) body)
        as (w' & Hrun & Htr & Hfd & Hkeys & Hent);
        try reflexivity; try assumption;
        cbn [blb buf with_allData with_buf with_flights log with_fetched w1];
        try (unfold Int64.in_range, Int64.min_int, Int64.max_int in *; lia).
      rewrite Hrun.
      assert (Htrace : trace w' = trace w ++ [EvDo; EvFetch [c]]).
      { rewrite Htr. cbn [trace with_flights log with_fetched with_allData with_buf w1].
        rewrite <- app_assoc. reflexivity. }
      rewrite Hrs in Hent.
      destruct shared.
      * rewrite (handleSharedFetch_led (S fuel) w' c Hkeys Hfd).
        exists w'. split; [reflexivity |]. split; assumption.
      * exists w'. split; [reflexivity |]. split; assumption.
Qed.

Lemma ReadAt_past_end_witness :
  ReadAt 8 [x00] 11 failing_world = Done (0, None) (with_buf [x00] failing_world)
  /\ ReadAt 8 [x00] 10 tail_world
       = Done (0, None) (with_allData [] (with_buf [x00] tail_world))
  /\ (exists w',
        ReadAt 8 [x00] 10 failing_world
          = Done (0, Some (ErrExternal "500 Internal Server Error")) w'
        /\ trace w' = [] ++ [EvDo; EvFetch [Region 9 9]])
  /\ (exists w',
        ReadAt 8 [x00] 10 sample_world = Done (0, None) w'
        /\ trace w' = [] ++ [EvDo; EvFetch [Region 9 9]]
        /\ entries (b_cache (blb w')) !! sample_genID (Region 9 9) = Some [x39]).
Proof.
  destruct (ReadAt_past_end 8 [x00] 11 failing_world eq_refl ltac:(discriminate))
    as (Hpast & _ & _ & _).
  destruct (ReadAt_past_end 8 [x00] 10 tail_world eq_refl ltac:(discriminate))
    as (_ & _ & _ & Hwarm).
  destruct (ReadAt_past_end 8 [x00] 10 failing_world eq_refl ltac:(discriminate))
    as (_ & _ & _ & Hdown).
  destruct (ReadAt_past_end 8 [x00] 10 sample_world eq_refl ltac:(discriminate))
    as (_ & _ & _ & Hcold).
  split; [| split; [| split]].
  - apply Hpast. simpl. lia.
  - destruct (Hwarm eq_refl ltac:(simpl; lia) ltac:(vm_compute; split; congruence)
                ltac:(vm_compute; congruence) ltac:(vm_compute; congruence)
                ltac:(lia) (Region 9 9) eq_refl) as (H & _).
    apply H. exists [x39]. vm_compute. reflexivity.
  - destruct (Hdown eq_refl ltac:(simpl; lia) ltac:(vm_compute; split; congruence)
                ltac:(vm_compute; congruence) ltac:(vm_compute; congruence)
                ltac:(lia) (Region 9 9) eq_refl) as (_ & _ & H & _).
    apply H; [reflexivity | left; reflexivity | intros k; reflexivity].
  - destruct (Hcold eq_refl ltac:(simpl; lia) ltac:(vm_compute; split; congruence)
                ltac:(vm_compute; congruence) ltac:(vm_compute; congruence)
                ltac:(lia) (Region 9 9) eq_refl) as (_ & _ & _ & H).
    apply (H eq_refl (or_introl eq_refl) (Reader [[x39]] None));
      [intros k | vm_compute; congruence | |]; reflexivity.
Defined.
